(** * Systems of operator polynomials (dalgebra, [RWOSystem])

    A shallow embedding of [dalgebra/diff_polynomial/diff_polynomial_system.py]:
    the class [RWOSystem] (and its subclasses [DifferentialSystem] and
    [DifferenceSystem]), its accessors, the extension builder
    [extend_by_operation], the structural classifier ([is_sp2] and friends),
    the extension search and the dispatch of [diff_resultant].

    Python objects live in a store; a method that reads or writes the private
    caches of its receiver is a computation over that store which either
    returns a value or raises. *)

From Stdlib Require Import ZArith List Bool Lia Ascii.
From stdpp Require Import base option list gmap strings sorting.

Local Open Scope Z_scope.

(** ** Exceptions and results *)

(** The exceptions raised by the embedded code. [InvalidReference] is not a
    Python exception: it marks a location outside the store, which no
    well-formed store contains. *)
Inductive exn :=
  | TypeError
  | ValueError
  | IndexError
  | NotImplementedError
  | CoercionException
  | UnboundLocalError
  | AttributeError
  | InvalidReference.

Inductive result (A : Type) :=
  | Ok (a : A)
  | Raise (e : exn).
Arguments Ok {A} a.
Arguments Raise {A} e.

#[global] Instance exn_eq_dec : EqDecision exn.
Proof. solve_decision. Defined.

#[global] Instance result_ret : MRet result := fun A a => Ok a.
#[global] Instance result_bind : MBind result := fun A B f m =>
  match m with
  | Ok a => f a
  | Raise e => Raise e
  end.

(** [[f(x) for x in l]] where [f] may raise: the first failure wins. *)
Fixpoint traverse {A B} (f : A → result B) (l : list A) : result (list B) :=
  match l with
  | [] => Ok []
  | x :: l' => y ← f x; ys ← traverse f l'; Ok (y :: ys)
  end.

(** Python's [functools.reduce] without an initial value. *)
Definition reduce {A} (f : A → A → result A) (l : list A) : result A :=
  match l with
  | [] => Raise TypeError
  | x :: l' => foldl (fun acc y => a ← acc; f a y) (Ok x) l'
  end.

(** [t[i]] on a tuple or list: negative indices count from the end. *)
Definition getitem {A} (t : list A) (i : Z) : result A :=
  let n := Z.of_nat (length t) in
  let j := if i <? 0 then i + n else i in
  if (j <? 0) || (n <=? j) then Raise IndexError
  else match t !! Z.to_nat j with
       | Some x => Ok x
       | None => Raise IndexError
       end.

(** [l.index(x)] followed by [l'[...]], as used on generator names. *)
Fixpoint index_of (x : string) (l : list string) : option nat :=
  match l with
  | [] => None
  | y :: l' => if String.eqb x y then Some O else S <$> index_of x l'
  end.

(** [range(start, stop, step)] for a non-zero [step]. *)
Definition py_range (start stop step : Z) : list Z :=
  let n := if 0 <? step then (stop - start + step - 1) / step
           else (start - stop - step - 1) / (- step) in
  (fun j => start + j * step) <$> seqZ 0 n.

(** [slice(start, stop, step).indices(len)] *)
Definition slice_indices (start stop step : option Z) (len : Z)
  : result (Z * Z * Z) :=
  let st := default 1 step in
  if st =? 0 then Raise ValueError else
  let lower := if st <? 0 then -1 else 0 in
  let upper := if st <? 0 then len - 1 else len in
  let clamp (v : Z) :=
    if v <? 0 then Z.max (v + len) lower else Z.min v upper in
  let s := match start with
           | None => if st <? 0 then upper else lower
           | Some v => clamp v
           end in
  let e := match stop with
           | None => if st <? 0 then lower else upper
           | Some v => clamp v
           end in
  Ok (s, e, st).

(** ** The ring interface

    The rings with an operator, their polynomials and the algebraic solvers
    are external to the module under study (Sage and
    [dalgebra.diff_polynomial.diff_polynomial_ring]); the system code uses
    them through the operations below. A generator (a variable family) is
    identified with its name, as the constructor of [RWOSystem] does; an
    algebraic variable [u_k] is the pair of its family and its index. *)

Definition avar : Type := string * nat.

Class OperatorRing := {
  PolyRing : Type;
  Poly : Type;
  AlgPoly : Type;
  (** [el.parent()] *)
  parent_of : Poly → PolyRing;
  (** [pushout(p, q)] *)
  pushout : PolyRing → PolyRing → result PolyRing;
  is_RWOPolynomialRing : PolyRing → bool;
  is_DifferentialPolynomialRing : PolyRing → bool;
  is_DifferencePolynomialRing : PolyRing → bool;
  (** [R(el)]: conversion of a polynomial into the ring [R] *)
  coerce : PolyRing → Poly → result Poly;
  (** [[str(g) for g in R.gens()]] *)
  gens : PolyRing → list string;
  (** one application of the operator of the ring *)
  apply_operator : Poly → Poly;
  (** [equ.variables()] *)
  poly_variables : Poly → list avar;
  (** the order used by [sort()] on algebraic variables *)
  avar_le : avar → avar → bool;
  (** [equ.orders()]: the order in each generator, [-1] when absent *)
  orders : Poly → list Z;
  (** [equ.is_linear(variables)] *)
  poly_is_linear : list string → Poly → bool;
  (** conversion of an equation into the plain polynomial ring whose
      variables and parameters are the two given lists *)
  collapse : PolyRing → list avar → list avar → Poly → result AlgPoly;
  (** [equ.is_homogeneous()] and [el.homogenize()] on plain polynomials *)
  alg_is_homogeneous : AlgPoly → bool;
  homogenize : AlgPoly → AlgPoly;
  (** [ring.macaulay_resultant(equs)] *)
  macaulay_resultant : list AlgPoly → result AlgPoly;
  (** [output == 0] and [self.parent()(output)] *)
  alg_is_zero : AlgPoly → bool;
  from_algebraic : PolyRing → AlgPoly → result Poly;
}.

(** What the system code relies on: a ring is its own pushout, converting a
    polynomial into its own ring changes nothing, a converted polynomial
    belongs to the ring it was converted into, and the operator stays in the
    ring. *)
Class OperatorRingLaws (R : OperatorRing) : Prop := {
  pushout_same : ∀ r : PolyRing, pushout r r = Ok r;
  coerce_same : ∀ p : Poly, coerce (parent_of p) p = Ok p;
  coerce_parent : ∀ (r : PolyRing) (p q : Poly),
    coerce r p = Ok q → parent_of q = r;
  apply_operator_parent : ∀ p : Poly, parent_of (apply_operator p) = parent_of p;
}.

(** ** The store of system objects *)

(** A location is an index into the store. *)
Abbreviation loc := nat.

(** [self.__class__] *)
Inductive sys_class :=
  | RWOSystem_class
  | DifferentialSystem_class
  | DifferenceSystem_class.

Section System.
Context `{R : OperatorRing}.

(** The attributes of an instance of [RWOSystem]. The extension cache maps a
    tuple of bounds to the system built for it; systems are objects, so the
    cache holds their locations. *)
Record RWOSystem := {
  class_of : sys_class;
  parent : PolyRing;
  _equations : list Poly;
  variables : list string;
  parameters : list string;
  CACHED_SP1 : gmap (list Z) loc;
  CACHED_RES : option Poly;
}.

(** The store: the objects allocated so far, a location being an index. *)
Local Abbreviation store := (list RWOSystem).

(** Computations over the store that return or raise; a raised exception
    keeps the writes made before it. *)
Definition M (A : Type) : Type := store → result A * store.

#[global] Instance M_ret : MRet M := fun A a h => (Ok a, h).
#[global] Instance M_bind : MBind M := fun A B f m h =>
  match m h with
  | (Ok a, h') => f a h'
  | (Raise e, h') => (Raise e, h')
  end.

Definition raise {A} (e : exn) : M A := fun h => (Raise e, h).
Definition lift {A} (r : result A) : M A := fun h => (r, h).

Definition load (s : loc) : M RWOSystem := fun h =>
  match h !! s with
  | Some o => (Ok o, h)
  | None => (Raise InvalidReference, h)
  end.

Definition alloc (o : RWOSystem) : M loc := fun h => (Ok (length h), h ++ [o]).

Definition modify (s : loc) (f : RWOSystem → RWOSystem) : M unit := fun h =>
  match h !! s with
  | Some o => (Ok (), <[s := f o]> h)
  | None => (Raise InvalidReference, h)
  end.

(** ** Construction *)

(** The check each class adds to its constructor. *)
Definition class_check (c : sys_class) (r : PolyRing) : bool :=
  match c with
  | RWOSystem_class => true
  | DifferentialSystem_class => is_DifferentialPolynomialRing r
  | DifferenceSystem_class => is_DifferencePolynomialRing r
  end.

(** [__init__(self, equations, parent=None, variables=None)]; [variables]
    holds the names [str(v)] of the requested variables. *)
Definition init (c : sys_class) (equations : list Poly)
    (parent : option PolyRing) (variables : option (list string))
  : result RWOSystem :=
  let parents := parent_of <$> equations in
  let parents := match parent with
                 | Some p => p :: parents
                 | None => parents
                 end in
  pushed ← reduce pushout parents;
  if negb (is_RWOPolynomialRing pushed) then Raise TypeError else
  eqs ← traverse (coerce pushed) equations;
  dvars ← match variables with
           | Some str_vars =>
               traverse (fun var =>
                 match index_of var (gens pushed) with
                 | None => Raise ValueError
                 | Some i => getitem (gens pushed) (Z.of_nat i)
                 end) str_vars
           | None => Ok (gens pushed)
           end;
  if negb (class_check c pushed) then Raise TypeError else
  Ok {| class_of := c;
        parent := pushed;
        _equations := eqs;
        variables := dvars;
        parameters := filter (fun el => el ∉ dvars) (gens pushed);
        CACHED_SP1 := ∅;
        CACHED_RES := None |}.

(** [self.__class__(equations, parent, variables)]: a new object. *)
Definition new (c : sys_class) (equations : list Poly)
    (parent : option PolyRing) (variables : option (list string)) : M loc :=
  o ← lift (init c equations parent variables); alloc o.

(** ** Accessors *)

Definition size (self : RWOSystem) : Z := Z.of_nat (length (_equations self)).

(** Modelled from the spec: [RWOPolynomial.operation(times)] belongs to
    [diff_polynomial_element.py], which is not part of the sources at hand.
    The spec describes it as applying the operator [times] times; the
    rejection of a negative count is that of its sibling
    [DiffPolynomial.derivative]. *)
Definition operation (p : Poly) (times : Z) : result Poly :=
  if times <? 0 then Raise ValueError
  else Ok (Nat.iter (Z.to_nat times) apply_operator p).

(** The argument of [equation]: an integer, a list or tuple [(i, n)] of two
    integers, or a value that indexing a tuple rejects with [TypeError] (a
    string, a float, a list of another length). A slice, which indexing a
    tuple accepts and answers with a tuple of equations, is not among these
    arguments. *)
Inductive index :=
  | Plain (i : Z)
  | Pair (i n : Z)
  | NotAnIndex.

Definition equation (self : RWOSystem) (idx : index) : result Poly :=
  match idx with
  | Pair i n => p ← getitem (_equations self) i; operation p n
  | Plain i => getitem (_equations self) i
  | NotAnIndex => Raise TypeError
  end.

(** [equation(index)] for a slice: [self._equations[index]] is then the
    tuple of the selected equations. *)
Definition equation_slice (self : RWOSystem) (start stop step : option Z)
  : result (list Poly) :=
  '(s, e, st) ← slice_indices start stop step
                  (Z.of_nat (length (_equations self)));
  traverse (getitem (_equations self)) (py_range s e st).

(** The argument of [equations]: [None], a slice, a list or tuple of
    arguments of [equation], an integer, or another value that indexing a
    tuple rejects. *)
Inductive indices :=
  | NoIndices
  | Slice (start stop step : option Z)
  | Sequence (l : list index)
  | Scalar (i : Z)
  | NotIndices.

Definition equations (self : RWOSystem) (ind : indices) : result (list Poly) :=
  match ind with
  | NoIndices => Ok (_equations self)
  | Slice start stop step =>
      '(s, e, st) ← slice_indices start stop step (size self);
      traverse (equation self) (Plain <$> py_range s e st)
  | Sequence l => traverse (equation self) l
  | Scalar i => traverse (equation self) [Plain i]
  | NotIndices => traverse (equation self) [NotAnIndex]
  end.

Definition subsystem (s : loc) (ind : indices) (vars : option (list string))
  : M loc :=
  self ← load s;
  let vars := match vars with
              | None => variables self
              | Some vs => vs
              end in
  eqs ← lift (equations self ind);
  new (class_of self) eqs (Some (parent self)) (Some vars).

(** The argument of [change_variables]: a list or tuple of variables, or a
    single variable, which the method wraps in a list. *)
Inductive variables_arg :=
  | VarList (vs : list string)
  | OneVar (v : string).

Definition change_variables (s : loc) (vars : variables_arg) : M loc :=
  let vars := match vars with
              | VarList vs => vs
              | OneVar v => [v]
              end in
  subsystem s NoIndices (Some vars).

(** [self[index]] *)
Definition getitem_system (s : loc) (ind : indices) : M loc :=
  self ← load s;
  eqs ← lift (equations self ind);
  new (class_of self) eqs (Some (parent self)) (Some (variables self)).

(** ** The algebraic view *)

Definition avar_rel (a b : avar) : Prop := avar_le a b = true.

#[global] Instance avar_rel_dec : RelDecision avar_rel.
Proof. intros a b. unfold avar_rel. apply _. Defined.

(** [l.sort()] on algebraic variables *)
Definition avar_sort : list avar → list avar := merge_sort avar_rel.

(** [algebraic_variables]: the variables that occur in some equation and
    belong to one of the families in [self.variables]. *)
Definition algebraic_variables (self : RWOSystem) : list avar :=
  let all_vars := remove_dups (concat (poly_variables <$> _equations self)) in
  let filtered := filter (fun el => el.1 ∈ variables self) all_vars in
  avar_sort filtered.

(** [[max(p[i], q[i]) for i in range(len(p))]] *)
Fixpoint max_pointwise (p q : list Z) : result (list Z) :=
  match p, q with
  | [], _ => Ok []
  | x :: p', y :: q' => r ← max_pointwise p' q'; Ok (Z.max x y :: r)
  | _ :: _, [] => Raise IndexError
  end.

(** The loop of [algebraic_equations] over the generators: the instances
    [g[0], ..., g[max_orders[i]]] of each generator go to the variables or to
    the parameters. *)
Fixpoint split_generators (gs : list string) (max_orders : list Z)
    (vars : list string) : result (list avar * list avar) :=
  match gs, max_orders with
  | [], _ => Ok ([], [])
  | _ :: _, [] => Raise IndexError
  | g :: gs', m :: max_orders' =>
      '(vs, ps) ← split_generators gs' max_orders' vars;
      let instances := (fun j => (g, Z.to_nat j)) <$> seqZ 0 (m + 1) in
      if bool_decide (g ∈ vars) then Ok (instances ++ vs, ps)
      else Ok (vs, instances ++ ps)
  end.

Definition algebraic_equations (self : RWOSystem) : result (list AlgPoly) :=
  max_orders ← reduce max_pointwise (orders <$> _equations self);
  '(vs, ps) ← split_generators (gens (parent self)) max_orders (variables self);
  traverse (collapse (parent self) (avar_sort vs) (avar_sort ps))
           (_equations self).

Definition is_homogeneous (self : RWOSystem) : result bool :=
  eqs ← algebraic_equations self; Ok (forallb alg_is_homogeneous eqs).

Definition is_linear (self : RWOSystem) (vars : option (list string)) : bool :=
  let vars := match vars with
              | None => variables self
              | Some vs => vs
              end in
  forallb (poly_is_linear vars) (_equations self).

(** The condition SP2. *)
Definition is_sp2 (self : RWOSystem) : result bool :=
  h ← is_homogeneous self;
  Ok (if h : bool
      then bool_decide (Z.of_nat (length (algebraic_variables self)) = size self)
      else bool_decide (Z.of_nat (length (algebraic_variables self)) = size self - 1)).

(** ** The extension builder *)

(** An entry of the argument of [extend_by_operation], by what the code
    asks of it: an integer; a value that [in ZZ] accepts and that compares
    and hashes as the integer [z] without being one, such as [1.0]; anything
    else. The argument itself is a list or tuple, or anything else. *)
Inductive entry :=
  | InZZ (z : Z)
  | FloatInZZ (z : Z)
  | NotInZZ.

Inductive bounds_arg :=
  | ListOrTuple (els : list entry)
  | NotASequence.

(** [not el in ZZ or el < 0] *)
Definition bad_entry (el : entry) : bool :=
  match el with
  | InZZ z | FloatInZZ z => z <? 0
  | NotInZZ => true
  end.

(** The integer an entry that passed the check is equal to: what
    comparisons see of it, and the keys of the extension cache. *)
Definition entry_value (el : entry) : Z :=
  match el with
  | InZZ z | FloatInZZ z => z
  | NotInZZ => 0
  end.

(** What [range] makes of a value: only an integer is one for it, the
    others raise [TypeError]. *)
Definition as_index (el : entry) : result Z :=
  match el with
  | InZZ z => Ok z
  | FloatInZZ _ | NotInZZ => Raise TypeError
  end.

(** [sum([[self.equation((i,k)) for k in range(Ls[i]+1)]
          for i in range(self.size())], [])] on a tuple of integers *)
Definition extended_equations (self : RWOSystem) (Ls : list Z)
  : result (list Poly) :=
  blocks ← traverse (fun i =>
              Li ← getitem Ls i;
              traverse (fun k => equation self (Pair i k)) (seqZ 0 (Li + 1)))
            (seqZ 0 (size self));
  Ok (concat blocks).

(** The same expression on the entries as they were given: [range] is
    asked for each [Ls[i]] in turn. *)
Definition extended_equations_entries (self : RWOSystem) (els : list entry)
  : result (list Poly) :=
  blocks ← traverse (fun i =>
              el ← getitem els i;
              Li ← as_index el;
              traverse (fun k => equation self (Pair i k)) (seqZ 0 (Li + 1)))
            (seqZ 0 (size self));
  Ok (concat blocks).

Definition extend_by_operation (s : loc) (Ls : bounds_arg) : M loc :=
  match Ls with
  | NotASequence => raise TypeError
  | ListOrTuple els =>
      if existsb bad_entry els then raise ValueError else
      let Ls := entry_value <$> els in
      self ← load s;
      match CACHED_SP1 self !! Ls with
      | Some cached => mret cached
      | None =>
          new_equations ← lift (extended_equations_entries self els);
          ext ← new (class_of self) new_equations (Some (parent self))
                    (Some (variables self));
          _ ← modify s (fun o =>
                {| class_of := class_of o;
                   parent := parent o;
                   _equations := _equations o;
                   variables := variables o;
                   parameters := parameters o;
                   CACHED_SP1 := <[Ls := ext]> (CACHED_SP1 o);
                   CACHED_RES := CACHED_RES o |});
          mret ext
      end
  end.

(** ** The extension search *)

(** Sage's [Compositions(n, length=k, max_part=b)]: the lists of [k] positive
    integers, each at most [b], that sum to [n], in decreasing lexicographic
    order (the order of [IntegerListsLex]). *)
Fixpoint Compositions (k : nat) (n b : Z) : list (list Z) :=
  match k with
  | O => if n =? 0 then [[]] else []
  | S k' =>
      a ← reverse (seqZ 1 (Z.min b n));
      (fun c => a :: c) <$> Compositions k' (n - a) b
  end.

(** The generator [gen_cartesian(size, bound)] of [__get_extension], as the
    list of the tuples it yields. *)
Definition gen_cartesian (size bound : Z) : list (list Z) :=
  i ← seqZ 0 (bound * size);
  (fun c : list Z => (fun el => el - 1) <$> c)
    <$> Compositions (Z.to_nat size) (i + size) bound.

(** [self.extend_by_operation(L).is_sp2()] *)
Definition sp2_of_extension (s : loc) (L : list Z) : M bool :=
  ext ← extend_by_operation s (ListOrTuple (InZZ <$> L));
  e ← load ext;
  lift (is_sp2 e).

(** The [for ... else] loop of [__get_extension] over the candidates. *)
Fixpoint search_extension (s : loc) (candidates : list (list Z)) : M (list Z) :=
  match candidates with
  | [] => raise TypeError
  | L :: rest =>
      found ← sp2_of_extension s L;
      if found : bool then mret L else search_extension s rest
  end.

(** [range(bound*size)] is the first thing the generator asks for. *)
Definition get_extension (s : loc) (bound : entry) : M (list Z) :=
  if bad_entry bound then raise ValueError else
  self ← load s;
  b ← lift (as_index bound);
  search_extension s (gen_cartesian (size self) b).

(** ** The resultant *)

Definition dixon (s : loc) (bound : entry) : M AlgPoly :=
  raise NotImplementedError.

Definition macaulay (s : loc) (bound : entry) : M AlgPoly :=
  L ← get_extension s bound;
  ext ← extend_by_operation s (ListOrTuple (InZZ <$> L));
  e ← load ext;
  aeqs ← lift (algebraic_equations e);
  let equs := homogenize <$> aeqs in
  match equs with
  | [] => raise IndexError
  | _ :: _ => lift (macaulay_resultant equs)
  end.

(** The iterative eliminator [__iterative(bound, alg_res)] builds new systems
    and calls [diff_resultant] on them; [diff_resultant] is defined over it. *)
Variable iterative : loc → entry → string → M AlgPoly.

Definition decide_resultant_algorithm (self : RWOSystem) : string :=
  if is_linear self None then "macaulay"%string else "iterative"%string.

Definition valid_algorithms : list string :=
  ["auto"; "iterative"; "dixon"; "macaulay"]%string.

Definition set_CACHED_RES (r : Poly) (o : RWOSystem) : RWOSystem :=
  {| class_of := class_of o;
     parent := parent o;
     _equations := _equations o;
     variables := variables o;
     parameters := parameters o;
     CACHED_SP1 := CACHED_SP1 o;
     CACHED_RES := Some r |}.

(** The branch of [diff_resultant] on [to_use_alg]. *)
Definition run_algorithm (s : loc) (to_use_alg : string) (bound_L : entry)
    (alg_res : string) : M AlgPoly :=
  if String.eqb to_use_alg "dixon" then dixon s bound_L
  else if String.eqb to_use_alg "macaulay" then macaulay s bound_L
  else if String.eqb to_use_alg "iterative" then iterative s bound_L alg_res
  else raise UnboundLocalError.

(** The end of [diff_resultant]: a zero resultant is an error, any other
    one is converted into the parent, cached and returned. *)
Definition store_resultant (s : loc) (self : RWOSystem) (output : AlgPoly)
  : M Poly :=
  if alg_is_zero output then raise ValueError else
  r ← lift (from_algebraic (parent self) output);
  _ ← modify s (set_CACHED_RES r);
  mret r.

Definition diff_resultant (s : loc) (bound_L : entry) (alg_res : string)
  : M Poly :=
  self ← load s;
  match CACHED_RES self with
  | Some cached => mret cached
  | None =>
      if negb (bool_decide (alg_res ∈ valid_algorithms)) then raise ValueError
      else
        let to_use_alg :=
          if String.eqb alg_res "auto" then decide_resultant_algorithm self
          else alg_res in
        output ← run_algorithm s to_use_alg bound_L alg_res;
        store_resultant s self output
  end.

(** The equations of the system a computation returns. *)
Definition equations_after (m : M loc) (h : store) : result (list Poly) :=
  match m h with
  | (Ok l, h') =>
      match h' !! l with
      | Some o => Ok (_equations o)
      | None => Raise InvalidReference
      end
  | (Raise e, _) => Raise e
  end.

End System.

Arguments RWOSystem {R}.
Abbreviation store := (list RWOSystem).

(** ** A concrete ring: differential polynomials over [Z[x]]

    The rings [Z[x]{g1, ..., gn}] with the derivation [d/dx], in which the
    examples of the docstrings live. Coefficients are dense polynomials in
    [x] without trailing zeros; a monomial is a sorted list of algebraic
    variables with positive exponents; a polynomial is a list of monomials
    with non-zero coefficients, each monomial at most once. *)
Module Zx.

Definition coef : Type := list Z.
Definition mono : Type := list (avar * nat).
Definition terms : Type := list (mono * coef).

Fixpoint cnorm (c : coef) : coef :=
  match c with
  | [] => []
  | a :: c' =>
      match cnorm c' with
      | [] => if a =? 0 then [] else [a]
      | r => a :: r
      end
  end.

Fixpoint cadd_raw (a b : coef) : coef :=
  match a, b with
  | [], _ => b
  | _, [] => a
  | x :: a', y :: b' => (x + y) :: cadd_raw a' b'
  end.

Definition cadd (a b : coef) : coef := cnorm (cadd_raw a b).
Definition cscale (k : Z) (a : coef) : coef := cnorm (Z.mul k <$> a).

Fixpoint cmul_raw (a b : coef) : coef :=
  match a with
  | [] => []
  | x :: a' => cadd_raw (Z.mul x <$> b) (0 :: cmul_raw a' b)
  end.

Definition cmul (a b : coef) : coef := cnorm (cmul_raw a b).

(** [d/dx] on coefficients *)
Definition cderiv (a : coef) : coef :=
  match a with
  | [] => []
  | _ :: a' => cnorm (imap (fun i c => Z.of_nat (S i) * c) a')
  end.

Definition avar_ltb (v w : avar) : bool :=
  String.ltb v.1 w.1 || (String.eqb v.1 w.1 && Nat.ltb v.2 w.2).

(** [v^e * m] *)
Fixpoint mono_mul_var (v : avar) (e : nat) (m : mono) : mono :=
  match m with
  | [] => [(v, e)]
  | (w, k) :: m' =>
      if bool_decide (v = w) then (w, (k + e)%nat) :: m'
      else if avar_ltb v w then (v, e) :: m
      else (w, k) :: mono_mul_var v e m'
  end.

Definition mono_mul (m1 m2 : mono) : mono :=
  foldr (fun '(v, e) acc => mono_mul_var v e acc) m2 m1.

(** [m / v], for a variable [v] of [m] *)
Fixpoint mono_div_var (v : avar) (m : mono) : mono :=
  match m with
  | [] => []
  | (w, k) :: m' =>
      if bool_decide (v = w) then
        match k with
        | S (S k') => (w, S k') :: m'
        | _ => m'
        end
      else (w, k) :: mono_div_var v m'
  end.

Fixpoint add_term (m : mono) (c : coef) (p : terms) : terms :=
  match p with
  | [] => match c with [] => [] | _ => [(m, c)] end
  | (m', c') :: p' =>
      if bool_decide (m = m') then
        match cadd c c' with
        | [] => p'
        | s => (m', s) :: p'
        end
      else (m', c') :: add_term m c p'
  end.

Definition padd (p q : terms) : terms :=
  foldl (fun acc '(m, c) => add_term m c acc) p q.

Definition pmul (p q : terms) : terms :=
  foldl (fun acc '(m1, c1) =>
           foldl (fun acc '(m2, c2) => add_term (mono_mul m1 m2) (cmul c1 c2) acc)
                 acc q)
        [] p.

Definition pneg (p : terms) : terms := (fun '(m, c) => (m, cscale (-1) c)) <$> p.

(** The derivation: [d/dx] on the coefficient and [g_k ↦ g_(k+1)] on each
    variable, by the product rule. *)
Definition term_deriv (t : mono * coef) : terms :=
  let '(m, c) := t in
  foldl (fun acc '(v, e) =>
           add_term (mono_mul_var (v.1, S v.2) 1 (mono_div_var v m))
                    (cscale (Z.of_nat e) c) acc)
        (add_term m (cderiv c) []) m.

Definition pderiv (p : terms) : terms :=
  foldl (fun acc t => padd acc (term_deriv t)) [] p.

(** A ring is given by the names of its generators; a polynomial carries its
    ring. *)
Record poly := { ring_of : list string; terms_of : terms }.

(** A plain polynomial: its variables, its parameters, its terms. *)
Record alg_poly := {
  alg_variables : list avar;
  alg_parameters : list avar;
  alg_terms : terms;
}.

Definition mono_variables (m : mono) : list avar := fst <$> m.

Definition variables_of_terms (p : terms) : list avar :=
  remove_dups (concat ((fun t => mono_variables t.1) <$> p)).

(** The order in the generator [g]: the largest [k] with [g_k] in the
    polynomial, [-1] when there is none. *)
Definition order_in (g : string) (p : terms) : Z :=
  foldr Z.max (-1)
    ((fun v : avar => Z.of_nat v.2)
       <$> filter (fun v : avar => v.1 = g) (variables_of_terms p)).

(** The degree of a monomial in the variables selected by [sel]. *)
Definition mono_degree (sel : avar → bool) (m : mono) : nat :=
  foldr (fun '(v, e) acc => if sel v then (e + acc)%nat else acc) O m.

Definition is_linear_terms (vars : list string) (p : terms) : bool :=
  forallb (fun t => Nat.leb (mono_degree (fun v => bool_decide (v.1 ∈ vars)) t.1) 1) p.

Definition homogeneous_terms (vars : list avar) (p : terms) : bool :=
  match p with
  | [] => true
  | t :: p' =>
      let deg m := mono_degree (fun v => bool_decide (v ∈ vars)) m in
      forallb (fun t' => Nat.eqb (deg t'.1) (deg t.1)) p'
  end.

(** The homogenizing variable. *)
Definition h_var : avar := ("h"%string, O).

Definition homogenize_alg (a : alg_poly) : alg_poly :=
  let deg m := mono_degree (fun v => bool_decide (v ∈ alg_variables a)) m in
  let d := foldr Nat.max O ((fun t => deg t.1) <$> alg_terms a) in
  if homogeneous_terms (alg_variables a) (alg_terms a) then a else
  {| alg_variables := alg_variables a ++ [h_var];
     alg_parameters := alg_parameters a;
     alg_terms := (fun '(m, c) =>
                     match (d - deg m)%nat with
                     | O => (m, c)
                     | S k => (mono_mul_var h_var (S k) m, c)
                     end) <$> alg_terms a |}.

(** The coefficient of the variable [v] in a linear form. *)
Definition coefficient_of (v : avar) (p : terms) : terms :=
  foldl (fun acc '(m, c) =>
           if bool_decide (v ∈ mono_variables m)
           then add_term (mono_div_var v m) c acc else acc)
        [] p.

(** The determinant, by expansion along the first row. *)
Fixpoint drop_column {A} (j : nat) (row : list A) : list A :=
  match row, j with
  | [], _ => []
  | _ :: r, O => r
  | a :: r, S j' => a :: drop_column j' r
  end.

Fixpoint determinant (n : nat) (rows : list (list terms)) : terms :=
  match n, rows with
  | O, _ => [([], [1])]
  | S n', row :: rest =>
      foldl padd []
        (imap (fun j a =>
                 let minor := determinant n' (drop_column j <$> rest) in
                 let t := pmul a minor in
                 if Nat.even j then t else pneg t)
              row)
  | S _, [] => []
  end.

(** The Macaulay resultant of [n] linear forms in [n] variables is the
    determinant of their coefficients; the instance implements no other
    case. *)
Definition linear_form (vars : list avar) (e : alg_poly) : bool :=
  bool_decide (alg_variables e = vars)
  && forallb (fun t : mono * coef =>
                Nat.eqb (mono_degree (fun v => bool_decide (v ∈ vars)) t.1) 1)
             (alg_terms e).

Definition macaulay_linear (equs : list alg_poly) : result alg_poly :=
  match equs with
  | [] => Raise IndexError
  | a :: _ =>
      let vars := alg_variables a in
      if bool_decide (length vars = length equs) && forallb (linear_form vars) equs
      then Ok {| alg_variables := [];
                 alg_parameters := alg_parameters a;
                 alg_terms :=
                   determinant (length equs)
                     ((fun e => (fun v => coefficient_of v (alg_terms e)) <$> vars)
                        <$> equs) |}
      else Raise NotImplementedError
  end.

(** Conversion into a ring: a polynomial of the ring is itself; another one
    is accepted when its variables belong to generators of the ring. *)
Definition coerce_poly (r : list string) (p : poly) : result poly :=
  if bool_decide (ring_of p = r) then Ok p
  else if forallb (fun v : avar => bool_decide (v.1 ∈ r))
            (variables_of_terms (terms_of p))
       then Ok {| ring_of := r; terms_of := terms_of p |}
       else Raise TypeError.

(** Only equal rings are unified. *)
Definition pushout_ring (r1 r2 : list string) : result (list string) :=
  if bool_decide (r1 = r2) then Ok r1 else Raise CoercionException.

(** Later generators first, then by index: the order in which the docstring
    of [algebraic_variables] lists [(v_0, v_1, v_2, u_0, u_1, u_2)]. *)
Definition avar_leb (v w : avar) : bool :=
  String.ltb w.1 v.1 || (String.eqb v.1 w.1 && Nat.leb v.2 w.2).

(** Modelled from the spec: the rings and their polynomials
    ([diff_polynomial_ring.py], [diff_polynomial_element.py] and Sage) are
    not part of the sources at hand. This instance of the ring interface
    follows the glossary of the spec (the operator sends [g_k] to [g_(k+1)]
    and is [d/dx] on coefficients) and the examples of the docstrings. *)
#[global] Instance ring : OperatorRing := {|
  PolyRing := list string;
  Poly := poly;
  AlgPoly := alg_poly;
  parent_of := ring_of;
  pushout := pushout_ring;
  is_RWOPolynomialRing := fun _ => true;
  is_DifferentialPolynomialRing := fun _ => true;
  is_DifferencePolynomialRing := fun _ => false;
  coerce := coerce_poly;
  gens := fun r => r;
  apply_operator := fun p =>
    {| ring_of := ring_of p; terms_of := pderiv (terms_of p) |};
  poly_variables := fun p => variables_of_terms (terms_of p);
  avar_le := avar_leb;
  orders := fun p => (fun g => order_in g (terms_of p)) <$> ring_of p;
  poly_is_linear := fun vars p => is_linear_terms vars (terms_of p);
  collapse := fun _ vs ps p =>
    Ok {| alg_variables := vs; alg_parameters := ps; alg_terms := terms_of p |};
  alg_is_homogeneous := fun a => homogeneous_terms (alg_variables a) (alg_terms a);
  homogenize := homogenize_alg;
  macaulay_resultant := macaulay_linear;
  alg_is_zero := fun a => match alg_terms a with [] => true | _ => false end;
  from_algebraic := fun r a => Ok {| ring_of := r; terms_of := alg_terms a |};
|}.

(** The iterative eliminator is not part of this instance. *)
Definition no_iterative (s : loc) (bound : entry) (alg_res : string)
  : M (R := ring) alg_poly := raise NotImplementedError.

(** *** The systems of the docstrings *)

Definition u (k : nat) : terms := [([(("u"%string, k), 1%nat)], [1])].
Definition v (k : nat) : terms := [([(("v"%string, k), 1%nat)], [1])].
Definition const (c : coef) : terms := add_term [] c [].
(** [x] as a coefficient *)
Definition x : coef := [0; 1].

Definition in_ring (r : list string) (p : terms) : poly :=
  {| ring_of := r; terms_of := p |}.

(** [R.<u> = DifferentialPolynomialRing(QQ)] and [u[1] - u[0]] *)
Definition ring_u : list string := ["u"%string].
Definition eq_u : poly := in_ring ring_u (padd (u 1) (pneg (u 0))).

(** [R.<u,v> = DifferentialPolynomialRing(QQ[x])],
    [x*u[0] + x^2*u[2] - (1-x)*v[0]] and [v[1] - v[2] + u[1]] *)
Definition ring_uv : list string := ["u"%string; "v"%string].
Definition eq1 : poly :=
  in_ring ring_uv
    (padd (padd (pmul (const x) (u 0)) (pmul (const (cmul x x)) (u 2)))
          (pneg (pmul (const (cadd [1] (cscale (-1) x))) (v 0)))).
Definition eq2 : poly :=
  in_ring ring_uv (padd (padd (v 1) (pneg (v 2))) (u 1)).

(** [u[0] - x] and [u[0] - 1]: two linear equations in [u] alone *)
Definition eq_a : poly := in_ring ring_u (padd (u 0) (pneg (const x))).
Definition eq_b : poly := in_ring ring_u (padd (u 0) (pneg (const [1]))).

(** [DifferentialSystem([u[1] - u[0]])] *)
Definition sys_u : RWOSystem :=
  {| class_of := DifferentialSystem_class; parent := ring_u;
     _equations := [eq_u];
     variables := ["u"%string]; parameters := [];
     CACHED_SP1 := ∅; CACHED_RES := None |}.

(** [DifferentialSystem([eq1, eq2], variables=[u])] *)
Definition sys_uv : RWOSystem :=
  {| class_of := DifferentialSystem_class; parent := ring_uv;
     _equations := [eq1; eq2];
     variables := ["u"%string]; parameters := ["v"%string];
     CACHED_SP1 := ∅; CACHED_RES := None |}.

(** [DifferentialSystem([u[0] - x, u[0] - 1])] and its resultant [x - 1] *)
Definition sys_ab : RWOSystem :=
  {| class_of := DifferentialSystem_class; parent := ring_u;
     _equations := [eq_a; eq_b];
     variables := ["u"%string]; parameters := [];
     CACHED_SP1 := ∅; CACHED_RES := None |}.

Definition res_ab : poly := in_ring ring_u (const [-1; 1]).

(** [u[k+1] - u[k]] *)
Definition eq_u_shifted (k : nat) : poly :=
  in_ring ring_u (padd (u (S k)) (pneg (u k))).

End Zx.

(** ** Invariants of systems and stores *)

Section Invariants.
Context `{R : OperatorRing}.

(** Two objects with the same attributes, caches apart. *)
Definition same_system (a b : RWOSystem) : Prop :=
  class_of a = class_of b ∧ parent a = parent b
  ∧ _equations a = _equations b
  ∧ variables a = variables b ∧ parameters a = parameters b.

(** What the constructor establishes. *)
Record wf_system (o : RWOSystem) : Prop := {
  wf_ring : is_RWOPolynomialRing (parent o) = true;
  wf_class : class_check (class_of o) (parent o) = true;
  wf_equations : Forall (fun p => parent_of p = parent o) (_equations o);
  wf_variables : Forall (fun g => g ∈ gens (parent o)) (variables o);
  wf_parameters :
    parameters o = filter (fun el => el ∉ variables o) (gens (parent o));
}.

(** [o'] is what [extend_by_operation] builds from [o] for the tuple [Ls]. *)
Definition extension_of (o : RWOSystem) (Ls : list Z) (o' : RWOSystem) : Prop :=
  class_of o' = class_of o ∧ parent o' = parent o
  ∧ variables o' = variables o ∧ parameters o' = parameters o
  ∧ extended_equations o Ls = Ok (_equations o').

(** The stores the code can reach: every object was built by the constructor
    and every entry of an extension cache was written by
    [extend_by_operation]. *)
Definition store_wf (h : store) : Prop :=
  ∀ s o, h !! s = Some o →
    wf_system o
    ∧ ∀ Ls l, CACHED_SP1 o !! Ls = Some l →
        ∃ o', h !! l = Some o' ∧ extension_of o Ls o'.

(** Objects are never removed and only their caches change. *)
Definition store_le (h h' : store) : Prop :=
  ∀ l o, h !! l = Some o → ∃ o', h' !! l = Some o' ∧ same_system o o'.

(** The attributes of the system [extend_by_operation(Ls)] returns, and the
    value of [extend_by_operation(Ls).is_sp2()]: they depend on the
    attributes of the receiver only, not on the store. *)
Definition extended_system (o : RWOSystem) (Ls : list Z) : result RWOSystem :=
  eqs ← extended_equations o Ls;
  Ok {| class_of := class_of o; parent := parent o; _equations := eqs;
        variables := variables o; parameters := parameters o;
        CACHED_SP1 := ∅; CACHED_RES := None |}.

Definition sp2_extended (o : RWOSystem) (Ls : list Z) : result bool :=
  e ← extended_system o Ls; is_sp2 e.

(** [k] applications of the operator to [p], for [k = 0, ..., Li]. *)
Definition sp1_block (p : Poly) (Li : Z) : list Poly :=
  (fun k => Nat.iter (Z.to_nat k) apply_operator p) <$> seqZ 0 (Li + 1).

Definition sp1_equations (eqs : list Poly) (Ls : list Z) : list Poly :=
  concat (zip_with sp1_block eqs Ls).

(** The indices [(i,0), (i,1), ..., (i,Ls[i])] for [i = 0, ..., size-1]. *)
Definition sp1_indices (n : Z) (Ls : list Z) : list index :=
  i ← seqZ 0 n; Pair i <$> seqZ 0 (Ls !!! Z.to_nat i + 1).

(** The block of the equation at index [i], when [Ls] has a bound for it. *)
Definition block_at (eqs : list Poly) (Ls : list Z) (i : Z) : list Poly :=
  match eqs !! Z.to_nat i, Ls !! Z.to_nat i with
  | Some p, Some Li => sp1_block p Li
  | _, _ => []
  end.

(** A tuple the search may try. *)
Definition candidate_for (o : RWOSystem) (L : list Z) : Prop :=
  Forall (fun Li => 0 ≤ Li) L ∧ (length (_equations o) ≤ length L)%nat.

(** What the loop returns: the first candidate whose extension satisfies
    SP2, [TypeError] when all fail, the error of [is_sp2] when it raises. *)
Definition search_outcome (o : RWOSystem) (candidates : list (list Z))
    (r : result (list Z)) : Prop :=
  match r with
  | Ok L =>
      ∃ pre post, candidates = pre ++ L :: post
        ∧ Forall (fun L' => sp2_extended o L' = Ok false) pre
        ∧ sp2_extended o L = Ok true
  | Raise e =>
      (Forall (fun L' => sp2_extended o L' = Ok false) candidates
       ∧ e = TypeError)
      ∨ ∃ pre L post, candidates = pre ++ L :: post
          ∧ Forall (fun L' => sp2_extended o L' = Ok false) pre
          ∧ sp2_extended o L = Raise e
  end.

(** [sum(f(x) for x in l)] *)
Definition sum_with {A} (f : A → Z) (l : list A) : Z :=
  foldr (fun x acc => f x + acc) 0 l.

End Invariants.

(** ** Further operations of the systems *)

Section Further.
Context `{R : OperatorRing}.

(** Two stores of which the second has every object of the first, with the
    same attributes and the same cached resultant, and at least its cached
    extensions. *)
Definition store_ext (h h' : store) : Prop :=
  ∀ l o, h !! l = Some o →
    ∃ o', h' !! l = Some o' ∧ same_system o o'
          ∧ CACHED_RES o' = CACHED_RES o
          ∧ CACHED_SP1 o ⊆ CACHED_SP1 o'.

(** Python's [max] over an iterable of integers: an empty one is an error. *)
Definition py_max (l : list Z) : result Z :=
  match l with
  | [] => Raise ValueError
  | x :: l' => Ok (foldl Z.max x l')
  end.

(** [equ.order(gen)] is an operation of the polynomials. *)
Variable poly_order : option string → Poly → Z.

(** [order(self, gen=None)] *)
Definition order (self : RWOSystem) (gen : option string) : result Z :=
  py_max (poly_order gen <$> _equations self).

(** Sage's [Subsets(S)], as the list of the sets it iterates over. *)
Variable Subsets : list string → list (gset string).

(** The first loop of [maximal_linear_variables]: the pair of the rejected
    and of the allowed subsets. *)
Definition classify_subsets (self : RWOSystem) (subsets : list (gset string))
  : list (gset string) * list (gset string) :=
  foldl (fun '(rejected, allowed) s =>
           if bool_decide (s = ∅) then (rejected, allowed)
           else if existsb (fun r => bool_decide (r ⊆ s)) rejected
                then (rejected, allowed)
           else if is_linear self (Some (elements s))
                then (rejected, allowed ++ [s])
           else (rejected ++ [s], allowed))
        ([], []) subsets.

(** [sorted(allowed, key=lambda p: len(p))]: a stable sort. *)
Fixpoint insert_by_len (s : gset string) (l : list (gset string))
  : list (gset string) :=
  match l with
  | [] => [s]
  | t :: l' =>
      if (base.size s <? base.size t)%nat then s :: l
      else t :: insert_by_len s l'
  end.

Definition sorted_by_len (l : list (gset string)) : list (gset string) :=
  foldl (fun acc s => insert_by_len s acc) [] l.

(** The order of the sort: by the number of elements. *)
Definition by_len : relation (gset string) :=
  fun a b => (base.size a ≤ base.size b)%nat.

(** One round of the second loop: the candidate is kept when no set kept
    before contains it. *)
Definition keep_step (result : list (gset string)) (candidate : gset string)
  : list (gset string) :=
  if forallb (fun r => negb (bool_decide (candidate ⊆ r))) result
  then result ++ [candidate] else result.

(** The second loop: [allowed.pop()] takes the subsets from the last one. *)
Definition keep_maximal (allowed : list (gset string)) : list (gset string) :=
  foldl keep_step [] (reverse allowed).

Definition maximal_linear_variables (self : RWOSystem) : list (gset string) :=
  keep_maximal
    (sorted_by_len (classify_subsets self (Subsets (variables self))).2).

(** [equ.polynomial().degree(t)] is an operation of the polynomials. *)
Variable poly_degree : Poly → avar → Z.

(** Modelled from the spec: the function [measure] of
    [__iterative_best_variable] asks the generators of
    [diff_polynomial_element.py], which is not part of the sources at hand,
    for [t in v] and [v.index(t)]. They are taken as their siblings
    [DiffPolynomialGen.contains] and [DiffPolynomialGen.index] are: [t] is
    an instance of the family [v], and its index is the number after the
    last underscore of its name. *)
Definition measure (self : RWOSystem) (v : string) : Z :=
  foldl (fun c equ =>
           foldl (fun c (t : avar) =>
                    if bool_decide (t.1 = v)
                    then c + Z.of_nat t.2 ^ poly_degree equ t
                    else c)
                 c (poly_variables equ))
        0 (_equations self).

Definition iterative_best_variable (self : RWOSystem) : result string :=
  match variables self with
  | [] => Raise IndexError
  | v :: rest =>
      Ok (foldl (fun '(v, m) nv =>
                   let nm := measure self nv in
                   if nm <? m then (nv, nm) else (v, m))
                (v, measure self v) rest).1
  end.

End Further.

(** ** Generators and derivatives ([differential_polynomial_element.py]) *)

(** [s.split(sep)] for a separator of one character *)
Fixpoint split_on (sep : Ascii.ascii) (s : string) : list string :=
  match s with
  | EmptyString => [EmptyString]
  | String c s' =>
      if Ascii.eqb c sep then EmptyString :: split_on sep s'
      else match split_on sep s' with
           | [] => [String c EmptyString]
           | w :: ws => String c w :: ws
           end
  end.

(** [sep.join(l)] *)
Fixpoint join_with (sep : string) (l : list string) : string :=
  match l with
  | [] => EmptyString
  | w :: l' =>
      match l' with
      | [] => w
      | _ :: _ => String.append w (String.append sep (join_with sep l'))
      end
  end.

(** [l[:-1]] and [l[-1]] for the non-empty lists [split] returns *)
Definition but_last (l : list string) : list string := removelast l.
Definition last_of (l : list string) : string := List.last l EmptyString.

Section Generators.

(** Python's [int(s)] *)
Variable py_int : string → result Z.

(** [DiffPolynomialGen.contains(element)], on the name [str(element)] *)
Definition contains (name : string) (element : string) : bool :=
  let spl := split_on "_"%char element in
  let first := join_with "_"%string (but_last spl) in
  String.eqb first name.

(** [DiffPolynomialGen.index(element)]: [None] for an element of another
    generator *)
Definition index_in (name : string) (element : string) : result (option Z) :=
  if contains name element
  then k ← py_int (last_of (split_on "_"%char element)); Ok (Some k)
  else Ok None.

(** [DiffPolynomial.derivative(times)]; [derivation] is
    [self.parent().derivation]. *)
Variable P : Type.
Variable derivation : P → P.

Fixpoint derivative_times (p : P) (times : nat) : P :=
  match times with
  | O => p
  | S n =>
      match n with
      | O => derivation p
      | S _ => derivation (derivative_times p n)
      end
  end.

Definition derivative (p : P) (times : entry) : result P :=
  if bad_entry times then Raise ValueError
  else Ok (derivative_times p (Z.to_nat (entry_value times))).

End Generators.

(** [c in s] for a character *)
Fixpoint occurs (c : Ascii.ascii) (s : string) : bool :=
  match s with
  | EmptyString => false
  | String d s' => Ascii.eqb d c || occurs c s'
  end.

(** ** Subsets in the order of Sage

    Sage's [Subsets(S)] goes through the subsets of [S] by size and, for
    one size, in the order of the combinations of the elements of [S]. *)
Fixpoint sublists (l : list string) : list (list string) :=
  match l with
  | [] => [[]]
  | x :: l' => (cons x <$> sublists l') ++ sublists l'
  end.

Definition Subsets_by_size (l : list string) : list (gset string) :=
  k ← seq 0 (S (length l));
  list_to_set <$> filter (fun s => length s = k) (sublists l).

(** ** The differential systems of [differential_polynomial_system.py]

    The class [DifferentialSystem] of the module [differential_polynomial]
    has the attributes of [RWOSystem] except the cached resultant; its
    objects are the records of class [DifferentialSystem_class] that leave
    [CACHED_RES] empty. Its polynomials are the [DiffPolynomial] and its
    generators the [DiffPolynomialGen] of [differential_polynomial_element.py].
    Some of its methods do not terminate on some systems: they return an
    option, [None] standing for a call that never ends. *)
Module Legacy.
Section Legacy.
Context `{R : OperatorRing}.

(** [__init__(self, equations, parent=None, variables=None)]; the ring is
    checked with [is_DiffPolynomialRing]. *)
Definition init (equations : list Poly) (parent : option PolyRing)
    (variables : option (list string)) : result RWOSystem :=
  let parents := parent_of <$> equations in
  let parents := match parent with
                 | Some p => p :: parents
                 | None => parents
                 end in
  pushed ← reduce pushout parents;
  if negb (is_DifferentialPolynomialRing pushed) then Raise TypeError else
  eqs ← traverse (coerce pushed) equations;
  dvars ← match variables with
           | Some str_vars =>
               traverse (fun var =>
                 match index_of var (gens pushed) with
                 | None => Raise ValueError
                 | Some i => getitem (gens pushed) (Z.of_nat i)
                 end) str_vars
           | None => Ok (gens pushed)
           end;
  Ok {| class_of := DifferentialSystem_class;
        parent := pushed;
        _equations := eqs;
        variables := dvars;
        parameters := filter (fun el => el ∉ dvars) (gens pushed);
        CACHED_SP1 := ∅;
        CACHED_RES := None |}.

(** [DifferentialSystem(equations, parent, variables)]: a new object. *)
Definition new (equations : list Poly) (parent : option PolyRing)
    (variables : option (list string)) : M loc :=
  o ← lift (init equations parent variables); alloc o.

(** [sum([[self.equations[i].derivative(times=k) for k in range(Ls[i]+1)]
          for i in range(self.size())], [])] *)
Definition derived_equations (self : RWOSystem) (els : list entry)
  : result (list Poly) :=
  blocks ← traverse (fun i =>
              el ← getitem els i;
              Li ← as_index el;
              traverse (fun k =>
                          p ← getitem (_equations self) i;
                          derivative Poly apply_operator p (InZZ k))
                       (seqZ 0 (Li + 1)))
            (seqZ 0 (size self));
  Ok (concat blocks).

Definition build_sp1 (s : loc) (Ls : bounds_arg) : M loc :=
  match Ls with
  | NotASequence => raise TypeError
  | ListOrTuple els =>
      if existsb bad_entry els then raise ValueError else
      let Ls := entry_value <$> els in
      self ← load s;
      match CACHED_SP1 self !! Ls with
      | Some cached => mret cached
      | None =>
          new_equations ← lift (derived_equations self els);
          ext ← new new_equations (Some (parent self)) (Some (variables self));
          _ ← modify s (fun o =>
                {| class_of := class_of o;
                   parent := parent o;
                   _equations := _equations o;
                   variables := variables o;
                   parameters := parameters o;
                   CACHED_SP1 := <[Ls := ext]> (CACHED_SP1 o);
                   CACHED_RES := CACHED_RES o |});
          mret ext
      end
  end.

(** [el in g] for a generator [g]: [DiffPolynomialGen] has [__getitem__]
    and no [__contains__], so Python compares [el] with [g[0]], [g[1]], ...
    in turn. It finds an instance of [g] at its index, and never ends on a
    variable of another generator, no index being out of range. *)
Definition gen_contains (g : string) (el : avar) : option bool :=
  if bool_decide (el.1 = g) then Some true else None.

(** [any(el in g for g in self.variables)] *)
Fixpoint any_contains (gs : list string) (el : avar) : option bool :=
  match gs with
  | [] => Some false
  | g :: gs' =>
      found ← gen_contains g el;
      if found : bool then Some true else any_contains gs' el
  end.

(** [algebraic_variables]: as in [RWOSystem], with this membership test. *)
Definition algebraic_variables (self : RWOSystem) : option (list avar) :=
  let all_vars := remove_dups (concat (poly_variables <$> _equations self)) in
  kept ← mapM (fun el => found ← any_contains (variables self) el;
                        Some (el, found)) all_vars;
  Some (avar_sort (fst <$> filter (fun x => snd x = true) kept)).

(** The condition SP2 of this class: one equation more than algebraic
    variables. *)
Definition is_sp2 (self : RWOSystem) : option bool :=
  vs ← algebraic_variables self;
  Some (bool_decide (Z.of_nat (length vs) = size self - 1)).

(** [algebraic_equations] asks each equation for [orders()], which
    [DiffPolynomial] does not have: with an equation the call stops there
    with [AttributeError]; without any, [reduce] finds an empty list. *)
Definition algebraic_equations (self : RWOSystem) : result (list AlgPoly) :=
  match _equations self with
  | [] => Raise TypeError
  | _ :: _ => Raise AttributeError
  end.

(** [cartesian_product(n*[values])], as the list of the tuples in the order
    of [itertools.product]. *)
Fixpoint cartesian_product (n : nat) (values : list Z) : list (list Z) :=
  match n with
  | O => [[]]
  | S n' => a ← values; cons a <$> cartesian_product n' values
  end.

(** A computation over the store that may not terminate. *)
Definition Run (A : Type) : Type := store → option (result A * store).

(** The loop of [differential_resultant]: the first tuple whose extension
    satisfies SP2, or [None] (the value) when there is none. *)
Fixpoint search (s : loc) (candidates : list (list Z))
  : Run (option (list Z)) := fun h =>
  match candidates with
  | [] => Some (Ok None, h)
  | L :: rest =>
      match build_sp1 s (ListOrTuple (InZZ <$> L)) h with
      | (Raise e, h1) => Some (Raise e, h1)
      | (Ok ext, h1) =>
          match h1 !! ext with
          | None => Some (Raise InvalidReference, h1)
          | Some e =>
              match is_sp2 e with
              | None => None
              | Some true => Some (Ok (Some L), h1)
              | Some false => search s rest h1
              end
          end
      end
  end.

(** The end of [differential_resultant], with the tuple found. A call that
    ran through both branches on [alg_res] would return [None] (the
    value). *)
Definition compute_resultant (s : loc) (L : list Z) (alg_res : string)
  : M (option AlgPoly) :=
  if String.eqb alg_res "dixon" then raise NotImplementedError
  else if String.eqb alg_res "macaulay" then
    ext ← build_sp1 s (ListOrTuple (InZZ <$> L));
    e ← load ext;
    aeqs ← lift (algebraic_equations e);
    let equs := homogenize <$> aeqs in
    match equs with
    | [] => raise IndexError
    | _ :: _ => r ← lift (macaulay_resultant equs); mret (Some r)
    end
  else mret None.

(** [differential_resultant(self, bound_L=10, alg_res="dixon")] *)
Definition differential_resultant (s : loc) (bound_L : entry)
    (alg_res : string) : Run (option AlgPoly) := fun h =>
  if bad_entry bound_L then Some (Raise ValueError, h) else
  if negb (bool_decide (alg_res ∈ ["dixon"; "macaulay"]%string))
  then Some (Raise ValueError, h) else
  match h !! s with
  | None => Some (Raise InvalidReference, h)
  | Some self =>
      match as_index bound_L with
      | Raise e => Some (Raise e, h)
      | Ok b =>
          match search s (cartesian_product (length (_equations self))
                            (py_range 0 (b + 1) 1)) h with
          | None => None
          | Some (Raise e, h1) => Some (Raise e, h1)
          | Some (Ok None, h1) => Some (Raise TypeError, h1)
          | Some (Ok (Some L), h1) => Some (compute_resultant s L alg_res h1)
          end
      end
  end.

End Legacy.
End Legacy.

(** * Properties *)

(** ** Tuples, comprehensions and [reduce] *)

Lemma getitem_lookup {A} (t : list A) (i : nat) (x : A) :
  t !! i = Some x → getitem t (Z.of_nat i) = Ok x.
Proof.
  intros Hx. unfold getitem.
  pose proof (lookup_lt_Some _ _ _ Hx) as Hlt.
  destruct (Z.of_nat i <? 0) eqn:Hneg; [lia|].
  destruct (Z.of_nat i <? 0) eqn:E1; [lia|].
  destruct (Z.of_nat (length t) <=? Z.of_nat i) eqn:E2; [lia|].
  simpl. by rewrite Nat2Z.id, Hx.
Qed.

Lemma getitem_elem_of {A} (t : list A) (i : Z) (x : A) :
  getitem t i = Ok x → x ∈ t.
Proof.
  unfold getitem.
  destruct (_ || _); [done|].
  destruct (t !! _) eqn:E; [|done].
  intros [= <-]. by eapply list_elem_of_lookup_2.
Qed.

Lemma getitem_out_of_range {A} (t : list A) (i : Z) :
  i < - Z.of_nat (length t) ∨ Z.of_nat (length t) ≤ i →
  getitem t i = Raise IndexError.
Proof.
  intros Hi. unfold getitem.
  destruct (i <? 0) eqn:Hneg.
  - destruct (i + Z.of_nat (length t) <? 0) eqn:E; [done|]. lia.
  - destruct (i <? 0) eqn:E1; [lia|].
    destruct (Z.of_nat (length t) <=? i) eqn:E2; [done|]. lia.
Qed.

Lemma getitem_in_range {A} (t : list A) (i : Z) :
  - Z.of_nat (length t) ≤ i < Z.of_nat (length t) →
  ∃ x, getitem t i = Ok x.
Proof.
  intros Hi. unfold getitem.
  set (j := if i <? 0 then i + Z.of_nat (length t) else i).
  assert (0 ≤ j < Z.of_nat (length t)) as Hj.
  { unfold j. destruct (i <? 0) eqn:E; lia. }
  destruct (j <? 0) eqn:E1; [lia|].
  destruct (Z.of_nat (length t) <=? j) eqn:E2; [lia|]. simpl.
  destruct (lookup_lt_is_Some_2 t (Z.to_nat j)) as [x Hx]; [lia|].
  rewrite Hx. eauto.
Qed.

Lemma traverse_id {A} (f : A → result A) (l : list A) :
  Forall (fun x => f x = Ok x) l → traverse f l = Ok l.
Proof.
  induction 1 as [|x l Hx _ IH]; [done|].
  simpl. rewrite Hx. simpl. by rewrite IH.
Qed.

Lemma traverse_Ok {A B} (f : A → result B) (l : list A) (l' : list B) :
  traverse f l = Ok l' ↔ Forall2 (fun x y => f x = Ok y) l l'.
Proof.
  revert l'. induction l as [|x l IH]; intros l'; simpl.
  - split; [intros [= <-]; constructor | by inversion 1].
  - destruct (f x) as [y|e] eqn:Hx; simpl.
    + destruct (traverse f l) as [ys|e] eqn:Hl; simpl.
      * split.
        -- intros [= <-]. constructor; [done|]. by apply IH.
        -- inversion 1 as [|? y' ? ys' Hy Hys]; subst.
           apply IH in Hys. congruence.
      * split; [done|].
        inversion 1 as [|? y' ? ys' Hy Hys]; subst.
        apply IH in Hys. congruence.
    + split; [done|]. inversion 1; congruence.
Qed.

Lemma traverse_total {A B} (f : A → result B) (g : A → B) (l : list A) :
  Forall (fun x => f x = Ok (g x)) l → traverse f l = Ok (g <$> l).
Proof.
  induction 1 as [|x l Hx _ IH]; [done|].
  simpl. rewrite Hx. simpl. by rewrite IH.
Qed.

Lemma index_of_lookup (x : string) (l : list string) :
  x ∈ l → ∃ i, index_of x l = Some i ∧ l !! i = Some x.
Proof.
  induction l as [|y l IH]; [by intros ?%elem_of_nil|].
  intros Hin. simpl. destruct (String.eqb x y) eqn:E.
  - apply String.eqb_eq in E as ->. by exists O.
  - apply String.eqb_neq in E.
    apply elem_of_cons in Hin as [?|Hin]; [done|].
    destruct (IH Hin) as (i & -> & Hi). by exists (S i).
Qed.

Section Properties.
Context `{R : OperatorRing}.

Lemma reduce_pushout_same `{!OperatorRingLaws R} (r : PolyRing) (l : list PolyRing) :
  Forall (fun q => q = r) l → reduce pushout (r :: l) = Ok r.
Proof.
  simpl. induction 1 as [|q l -> _ IH]; [done|].
  simpl. by rewrite pushout_same.
Qed.

(** ** The constructor *)

Lemma init_wf `{!OperatorRingLaws R} c eqs par vars (o : RWOSystem) :
  init c eqs par vars = Ok o →
  wf_system o ∧ class_of o = c ∧ CACHED_SP1 o = ∅ ∧ CACHED_RES o = None.
Proof.
  unfold init.
  destruct (reduce pushout _) as [pushed|] eqn:Hpush; simpl; [|done].
  destruct (is_RWOPolynomialRing pushed) eqn:Hrwo; simpl; [|done].
  destruct (traverse (coerce pushed) eqs) as [eqs'|] eqn:Heqs; simpl; [|done].
  destruct (match vars with Some _ => _ | None => _ end)
    as [dvars|] eqn:Hvars; simpl; [|done].
  destruct (class_check c pushed) eqn:Hc; simpl; [|done].
  intros [= <-]. split; [|done].
  constructor; simpl; try done.
  - apply traverse_Ok in Heqs. clear -Heqs OperatorRingLaws0.
    induction Heqs as [|p q ps qs Hpq _ IH]; constructor; [|done].
    by eapply coerce_parent.
  - destruct vars as [str_vars|].
    + apply traverse_Ok in Hvars. clear -Hvars.
      induction Hvars as [|x y xs ys Hxy _ IH]; constructor; [|done].
      destruct (index_of x (gens pushed)); [|done].
      by eapply getitem_elem_of.
    + injection Hvars as <-. apply Forall_forall. auto.
Qed.

(** Building a system from polynomials of a ring [par] that passed the
    checks, with generators of [par] as variables, succeeds and yields
    exactly these attributes. *)
Lemma init_derived `{!OperatorRingLaws R} c eqs par vars :
  is_RWOPolynomialRing par = true →
  class_check c par = true →
  Forall (fun p => parent_of p = par) eqs →
  Forall (fun g => g ∈ gens par) vars →
  init c eqs (Some par) (Some vars)
  = Ok {| class_of := c; parent := par; _equations := eqs; variables := vars;
          parameters := filter (fun el => el ∉ vars) (gens par);
          CACHED_SP1 := ∅; CACHED_RES := None |}.
Proof.
  intros Hrwo Hc Heqs Hvars. unfold init.
  rewrite reduce_pushout_same; [|by apply Forall_fmap]. simpl.
  rewrite Hrwo. simpl.
  rewrite (traverse_id (coerce par) eqs); [simpl|].
  2:{ eapply Forall_impl; [exact Heqs|]. intros p <-. apply coerce_same. }
  rewrite (traverse_id _ vars); [simpl|].
  2:{ eapply Forall_impl; [exact Hvars|]. intros g Hg. simpl in Hg.
      destruct (index_of_lookup g _ Hg) as (i & -> & Hi).
      by apply getitem_lookup. }
  by rewrite Hc.
Qed.

(** ** Equations *)

Lemma operation_Ok (p : Poly) (n : Z) :
  0 ≤ n → operation p n = Ok (Nat.iter (Z.to_nat n) apply_operator p).
Proof. intros Hn. unfold operation. destruct (n <? 0) eqn:E; [lia|done]. Qed.

Lemma iter_operator_parent `{!OperatorRingLaws R} (p : Poly) (k : nat) :
  parent_of (Nat.iter k apply_operator p) = parent_of p.
Proof.
  induction k as [|k IH]; [done|]. simpl. by rewrite apply_operator_parent.
Qed.

Lemma operation_parent `{!OperatorRingLaws R} (p q : Poly) (n : Z) :
  operation p n = Ok q → parent_of q = parent_of p.
Proof.
  unfold operation. destruct (n <? 0); [done|].
  intros [= <-]. apply iter_operator_parent.
Qed.

Lemma equation_parent `{!OperatorRingLaws R} (o : RWOSystem) idx (p : Poly) :
  wf_system o → equation o idx = Ok p → parent_of p = parent o.
Proof.
  intros Hwf. pose proof (wf_equations _ Hwf) as Hall.
  rewrite Forall_forall in Hall.
  destruct idx as [i|i n|]; simpl; [| |done].
  - intros H%getitem_elem_of. auto.
  - destruct (getitem (_equations o) i) as [q|] eqn:Hq; simpl; [|done].
    intros ->%operation_parent. apply getitem_elem_of in Hq. auto.
Qed.

Lemma traverse_equation_parent `{!OperatorRingLaws R}
    (o : RWOSystem) (l : list index) (eqs : list Poly) :
  wf_system o → traverse (equation o) l = Ok eqs →
  Forall (fun p => parent_of p = parent o) eqs.
Proof.
  intros Hwf H%traverse_Ok.
  induction H as [|idx p l eqs Hp _ IH]; constructor; [|done].
  by eapply equation_parent.
Qed.

Lemma equations_parent `{!OperatorRingLaws R} (o : RWOSystem) ind eqs :
  wf_system o → equations o ind = Ok eqs →
  Forall (fun p => parent_of p = parent o) eqs.
Proof.
  intros Hwf. destruct ind as [|a b c|l|i|]; simpl.
  - intros [= <-]. by apply wf_equations.
  - destruct (slice_indices a b c (size o)) as [[[s e] st]|]; simpl; [|done].
    by apply traverse_equation_parent.
  - by apply traverse_equation_parent.
  - by apply (traverse_equation_parent o [Plain i]).
  - done.
Qed.

(** ** The equations of an extension *)

Lemma traverse_Ok_elem {A B} (f : A → result B) l l' x :
  traverse f l = Ok l' → x ∈ l → ∃ y, f x = Ok y.
Proof.
  intros H%traverse_Ok Hx. revert Hx.
  induction H as [|a b l l' Hab _ IH]; [by intros ?%elem_of_nil|].
  intros [->|Hx]%elem_of_cons; eauto.
Qed.

Lemma traverse_Raise {A B} (f : A → result B) l e :
  traverse f l = Raise e → ∃ x, x ∈ l ∧ f x = Raise e.
Proof.
  induction l as [|a l IH]; simpl; [done|].
  destruct (f a) as [b|e'] eqn:Ha; simpl.
  - destruct (traverse f l) as [bs|e'] eqn:Hl; simpl; [done|].
    intros [= ->]. destruct IH as (x & Hx & Hfx); [done|].
    exists x. split; [by apply elem_of_cons; right|done].
  - intros [= ->]. exists a. split; [by apply elem_of_cons; left|done].
Qed.

Lemma getitem_Raise {A} (t : list A) (i : Z) e :
  getitem t i = Raise e → e = IndexError.
Proof.
  unfold getitem. destruct (_ || _); [congruence|].
  destruct (t !! _); congruence.
Qed.

Lemma equation_pair_block (o : RWOSystem) (i : Z) (p : Poly) (Li : Z) :
  getitem (_equations o) i = Ok p →
  traverse (fun k => equation o (Pair i k)) (seqZ 0 (Li + 1))
  = Ok (sp1_block p Li).
Proof.
  intros Hp. unfold sp1_block. apply traverse_total.
  apply Forall_seqZ. intros k Hk. simpl.
  rewrite Hp. simpl. apply operation_Ok. lia.
Qed.

Lemma sp1_lookup_zip (eqs : list Poly) (Ls : list Z) :
  (length eqs ≤ length Ls)%nat →
  block_at eqs Ls <$> seqZ 0 (Z.of_nat (length eqs)) = zip_with sp1_block eqs Ls.
Proof.
  intros Hlen. apply list_eq. intros j.
  rewrite list_lookup_fmap, lookup_zip_with.
  destruct (decide (j < length eqs)%nat) as [Hj|Hj].
  - rewrite lookup_seqZ_lt by lia. simpl.
    destruct (lookup_lt_is_Some_2 eqs j) as [p Hp]; [done|].
    destruct (lookup_lt_is_Some_2 Ls j) as [Li HLi]; [lia|].
    unfold block_at. rewrite Z.add_0_l, Nat2Z.id, Hp, HLi. done.
  - rewrite lookup_seqZ_ge by lia.
    rewrite (lookup_ge_None_2 eqs) by lia. done.
Qed.

Lemma extended_equations_Ok (o : RWOSystem) (Ls : list Z) :
  (length (_equations o) ≤ length Ls)%nat →
  extended_equations o Ls = Ok (sp1_equations (_equations o) Ls).
Proof.
  intros Hlen. unfold extended_equations, sp1_equations.
  rewrite (traverse_total _ (block_at (_equations o) Ls)).
  - simpl. unfold size. by rewrite sp1_lookup_zip.
  - apply Forall_seqZ. intros i Hi. unfold size in Hi.
    destruct (lookup_lt_is_Some_2 (_equations o) (Z.to_nat i)) as [p Hp]; [lia|].
    destruct (lookup_lt_is_Some_2 Ls (Z.to_nat i)) as [Li HLi]; [lia|].
    unfold block_at. rewrite Hp, HLi.
    apply getitem_lookup in Hp, HLi. rewrite Z2Nat.id in Hp, HLi by lia.
    rewrite HLi. simpl. by apply equation_pair_block.
Qed.

Lemma extended_equations_Ok_length (o : RWOSystem) (Ls : list Z) eqs :
  extended_equations o Ls = Ok eqs →
  (length (_equations o) ≤ length Ls)%nat.
Proof.
  unfold extended_equations.
  destruct (traverse _ (seqZ 0 (size o))) as [blocks|] eqn:Hb; simpl; [|done].
  intros _. destruct (decide (length (_equations o) ≤ length Ls)%nat); [done|].
  destruct (traverse_Ok_elem _ _ _ (Z.of_nat (length Ls)) Hb) as [y Hy].
  { apply elem_of_seqZ. unfold size. lia. }
  rewrite getitem_out_of_range in Hy by lia. done.
Qed.

Lemma extended_equations_Raise (o : RWOSystem) (Ls : list Z) e :
  extended_equations o Ls = Raise e → e = IndexError.
Proof.
  unfold extended_equations.
  destruct (traverse _ (seqZ 0 (size o))) as [blocks|e'] eqn:Hb; simpl; [done|].
  intros [= ->]. apply traverse_Raise in Hb as (i & Hi & Hfi).
  destruct (getitem Ls i) as [Li|e'] eqn:HLi; simpl in Hfi.
  - apply traverse_Raise in Hfi as (k & Hk & Hfk).
    apply elem_of_seqZ in Hk. simpl in Hfk.
    destruct (getitem (_equations o) i) as [p|e'] eqn:Hp; simpl in Hfk.
    + rewrite operation_Ok in Hfk by lia. done.
    + injection Hfk as <-. by eapply getitem_Raise.
  - injection Hfi as <-. by eapply getitem_Raise.
Qed.

Lemma extended_equations_short (o : RWOSystem) (Ls : list Z) :
  (length Ls < length (_equations o))%nat →
  extended_equations o Ls = Raise IndexError.
Proof.
  intros Hlen. destruct (extended_equations o Ls) as [eqs|e] eqn:E.
  - apply extended_equations_Ok_length in E. lia.
  - by apply extended_equations_Raise in E as ->.
Qed.

Lemma sp1_block_parent `{!OperatorRingLaws R} (p : Poly) (Li : Z) :
  Forall (fun q => parent_of q = parent_of p) (sp1_block p Li).
Proof.
  unfold sp1_block. apply Forall_fmap, Forall_forall. intros k _. simpl.
  apply iter_operator_parent.
Qed.

Lemma sp1_equations_parent `{!OperatorRingLaws R}
    (r : PolyRing) (eqs : list Poly) (Ls : list Z) :
  Forall (fun p => parent_of p = r) eqs →
  Forall (fun p => parent_of p = r) (sp1_equations eqs Ls).
Proof.
  unfold sp1_equations. intros H. revert Ls.
  induction H as [|p eqs Hp _ IH]; intros [|Li Ls]; simpl; try constructor.
  apply Forall_app. split; [|apply IH].
  subst r. apply sp1_block_parent.
Qed.

Lemma sp1_equations_length (eqs : list Poly) (Ls : list Z) :
  length eqs = length Ls → Forall (fun Li => 0 ≤ Li) Ls →
  Z.of_nat (length (sp1_equations eqs Ls)) = sum_with (fun Li => Li + 1) Ls.
Proof.
  unfold sp1_equations. revert Ls.
  induction eqs as [|p eqs IH]; intros [|Li Ls] Hlen Hpos; simpl in *; try done.
  apply Forall_cons in Hpos as [HLi Hpos].
  rewrite length_app, Nat2Z.inj_add, IH by (done || lia).
  unfold sp1_block. rewrite length_fmap, length_seqZ. lia.
Qed.

(** ** Stores *)

Lemma same_system_refl (o : RWOSystem) : same_system o o.
Proof. by repeat split. Qed.

Lemma same_system_trans (a b c : RWOSystem) :
  same_system a b → same_system b c → same_system a c.
Proof.
  intros (?&?&?&?&?) (?&?&?&?&?). repeat split; congruence.
Qed.

Lemma wf_system_same (a b : RWOSystem) :
  same_system a b → wf_system a → wf_system b.
Proof.
  intros (Hc & Hp & He & Hv & Hpar) [H1 H2 H3 H4 H5].
  constructor; rewrite <- ?Hc, <- ?Hp, <- ?He, <- ?Hv, <- ?Hpar; done.
Qed.

Lemma extended_equations_same (a b : RWOSystem) (Ls : list Z) :
  same_system a b → extended_equations a Ls = extended_equations b Ls.
Proof.
  intros (_ & _ & He & _). unfold extended_equations, size, equation.
  by rewrite He.
Qed.

Lemma extension_of_same_l (a b o' : RWOSystem) (Ls : list Z) :
  same_system a b → extension_of a Ls o' → extension_of b Ls o'.
Proof.
  intros Hab (?&?&?&?&He).
  rewrite (extended_equations_same _ _ _ Hab) in He.
  destruct Hab as (?&?&?&?&?). repeat split; congruence.
Qed.

Lemma extension_of_same_r (o a b : RWOSystem) (Ls : list Z) :
  same_system a b → extension_of o Ls a → extension_of o Ls b.
Proof.
  intros (?&?&?&?&?) (?&?&?&?&?). repeat split; congruence.
Qed.

Lemma store_le_refl (h : store) : store_le h h.
Proof. intros l o Hl. eauto using same_system_refl. Qed.

Lemma store_le_trans (h1 h2 h3 : store) :
  store_le h1 h2 → store_le h2 h3 → store_le h1 h3.
Proof.
  intros H12 H23 l o Hl.
  destruct (H12 _ _ Hl) as (o2 & Hl2 & Hs2).
  destruct (H23 _ _ Hl2) as (o3 & Hl3 & Hs3).
  eauto using same_system_trans.
Qed.

Lemma store_le_alloc (h : store) (o' : RWOSystem) : store_le h (h ++ [o']).
Proof.
  intros l o Hl. exists o. split; [|apply same_system_refl].
  rewrite lookup_app_l; [done|]. by eapply lookup_lt_Some.
Qed.

Lemma store_le_insert (h : store) (s : loc) (o o1 : RWOSystem) :
  h !! s = Some o → same_system o o1 → store_le h (<[s := o1]> h).
Proof.
  intros Hs Hsame l o0 Hl. destruct (decide (s = l)) as [->|Hne].
  - exists o1. rewrite list_lookup_insert_eq by (by eapply lookup_lt_Some).
    split; [done|]. by assert (o0 = o) as -> by congruence.
  - exists o0. rewrite list_lookup_insert_ne by done.
    split; [done|apply same_system_refl].
Qed.

Lemma store_wf_le_entry (h h' : store) (o : RWOSystem) Ls l :
  store_le h h' →
  (∃ o', h !! l = Some o' ∧ extension_of o Ls o') →
  ∃ o', h' !! l = Some o' ∧ extension_of o Ls o'.
Proof.
  intros Hle (o' & Hl & Hext).
  destruct (Hle _ _ Hl) as (o'' & Hl' & Hsame).
  eauto using extension_of_same_r.
Qed.

Lemma store_wf_alloc (h : store) (o' : RWOSystem) :
  store_wf h → wf_system o' → CACHED_SP1 o' = ∅ → store_wf (h ++ [o']).
Proof.
  intros Hwf Ho' Hcache s o Hs.
  apply lookup_app_Some in Hs as [Hs|[_ Hs]].
  - destruct (Hwf _ _ Hs) as [Hwfo Hentries]. split; [done|].
    intros Ls l Hl. eapply store_wf_le_entry; [apply store_le_alloc|eauto].
  - apply list_lookup_singleton_Some in Hs as [_ <-]. split; [done|].
    intros Ls l. by rewrite Hcache, lookup_empty.
Qed.

Lemma store_wf_insert (h : store) (s : loc) (o o1 : RWOSystem) :
  store_wf h → h !! s = Some o → same_system o o1 →
  (∀ Ls l, CACHED_SP1 o1 !! Ls = Some l →
     ∃ o', h !! l = Some o' ∧ extension_of o Ls o') →
  store_wf (<[s := o1]> h).
Proof.
  intros Hwf Hs Hsame Hentries s0 o0 Hs0.
  pose proof (store_le_insert _ _ _ _ Hs Hsame) as Hle.
  destruct (decide (s = s0)) as [<-|Hne].
  - rewrite list_lookup_insert_eq in Hs0 by (by eapply lookup_lt_Some).
    injection Hs0 as <-. split.
    + eapply wf_system_same; [done|]. by apply (Hwf _ _ Hs).
    + intros Ls l Hl. eapply store_wf_le_entry; [done|].
      destruct (Hentries _ _ Hl) as (o' & ? & ?).
      eauto using extension_of_same_l.
  - rewrite list_lookup_insert_ne in Hs0 by done.
    destruct (Hwf _ _ Hs0) as [Hwfo Hent]. split; [done|].
    intros Ls l Hl. eapply store_wf_le_entry; eauto.
Qed.

(** ** Running [extend_by_operation] *)

Lemma traverse_ext {A B} (f g : A → result B) (l : list A) :
  (∀ x, f x = g x) → traverse f l = traverse g l.
Proof. intros Hfg. induction l as [|x l IH]; [done|]. simpl. by rewrite Hfg, IH. Qed.

Lemma getitem_fmap {A B} (f : A → B) (t : list A) (i : Z) :
  getitem (f <$> t) i = match getitem t i with
                        | Ok x => Ok (f x)
                        | Raise e => Raise e
                        end.
Proof.
  unfold getitem. rewrite length_fmap, list_lookup_fmap.
  destruct (_ || _); [done|]. by destruct (t !! _).
Qed.

(** On a tuple of integers the entries are their values. *)
Lemma extended_equations_entries_InZZ (o : RWOSystem) (Ls : list Z) :
  extended_equations_entries o (InZZ <$> Ls) = extended_equations o Ls.
Proof.
  unfold extended_equations_entries, extended_equations.
  rewrite (traverse_ext _ (fun i =>
             Li ← getitem Ls i;
             traverse (fun k => equation o (Pair i k)) (seqZ 0 (Li + 1))));
    [done|].
  intros i. rewrite getitem_fmap. by destruct (getitem Ls i).
Qed.

(** The equations built from entries are those of their values. *)
Lemma extended_equations_entries_Ok (o : RWOSystem) (els : list entry) eqs :
  extended_equations_entries o els = Ok eqs →
  extended_equations o (entry_value <$> els) = Ok eqs.
Proof.
  unfold extended_equations_entries, extended_equations.
  destruct (traverse _ (seqZ 0 (size o))) as [blocks|] eqn:Hblocks; [|done].
  intros [= <-].
  assert (traverse (fun i =>
            Li ← getitem (entry_value <$> els) i;
            traverse (fun k => equation o (Pair i k)) (seqZ 0 (Li + 1)))
            (seqZ 0 (size o)) = Ok blocks) as ->; [|done].
  apply traverse_Ok. apply traverse_Ok in Hblocks.
  eapply Forall2_impl; [exact Hblocks|]. intros i block.
  rewrite getitem_fmap. destruct (getitem els i) as [el|]; [|done].
  by destruct el.
Qed.

Lemma existsb_bad_entry_InZZ (Ls : list Z) :
  Forall (fun Li => 0 ≤ Li) Ls → existsb bad_entry (InZZ <$> Ls) = false.
Proof.
  induction 1 as [|Li Ls HLi _ IH]; [done|].
  rewrite fmap_cons. cbn [existsb bad_entry].
  rewrite IH. destruct (Li <? 0) eqn:E; [lia|done].
Qed.

Lemma entry_value_InZZ (Ls : list Z) : entry_value <$> (InZZ <$> Ls) = Ls.
Proof. rewrite <- list_fmap_compose. apply list_fmap_id. Qed.

(** A cached extension is returned as it is, and nothing is written. *)
Lemma extend_by_operation_cached (h : store) (s l : loc) (o : RWOSystem) Ls :
  h !! s = Some o → Forall (fun Li => 0 ≤ Li) Ls →
  CACHED_SP1 o !! Ls = Some l →
  extend_by_operation s (ListOrTuple (InZZ <$> Ls)) h = (Ok l, h).
Proof.
  intros Hs Hpos Hl. unfold extend_by_operation.
  rewrite existsb_bad_entry_InZZ, entry_value_InZZ by done.
  unfold mbind, M_bind, load. rewrite Hs, Hl. done.
Qed.

Lemma extend_by_operation_run `{!OperatorRingLaws R}
    (h : store) (s : loc) (o : RWOSystem) (Ls : list Z) :
  store_wf h → h !! s = Some o →
  Forall (fun Li => 0 ≤ Li) Ls →
  (length (_equations o) ≤ length Ls)%nat →
  ∃ l o' h',
    extend_by_operation s (ListOrTuple (InZZ <$> Ls)) h = (Ok l, h')
    ∧ h' !! l = Some o' ∧ extension_of o Ls o'
    ∧ store_wf h' ∧ store_le h h'
    ∧ (CACHED_SP1 o !! Ls = None → l = length h)
    ∧ ∃ o1, h' !! s = Some o1 ∧ same_system o o1
            ∧ CACHED_SP1 o1 !! Ls = Some l ∧ CACHED_RES o1 = CACHED_RES o.
Proof.
  intros Hwf Hs Hpos Hlen.
  destruct (Hwf _ _ Hs) as [Hwfo Hentries].
  destruct (CACHED_SP1 o !! Ls) as [l|] eqn:Hcache.
  - destruct (Hentries _ _ Hcache) as (o' & Hl & Hext).
    exists l, o', h. rewrite (extend_by_operation_cached h s l o) by done.
    split; [done|]. split; [done|]. split; [done|]. split; [done|].
    split; [apply store_le_refl|]. split; [done|].
    exists o. split; [done|]. split; [apply same_system_refl|done].
  - unfold extend_by_operation.
    rewrite existsb_bad_entry_InZZ, entry_value_InZZ by done.
    unfold new, lift, mbind, M_bind, load. rewrite Hs, Hcache.
    rewrite extended_equations_entries_InZZ, extended_equations_Ok by done.
    pose proof (init_derived (class_of o) (sp1_equations (_equations o) Ls)
                  (parent o) (variables o)
                  (wf_ring _ Hwfo) (wf_class _ Hwfo)
                  (sp1_equations_parent _ _ _ (wf_equations _ Hwfo))
                  (wf_variables _ Hwfo)) as Hinit.
    rewrite Hinit. unfold alloc, modify, mret, M_ret.
    pose proof (lookup_lt_Some _ _ _ Hs) as Hlt.
    cbv beta iota. rewrite lookup_app_l, Hs by done.
    set (o' := {| class_of := class_of o; parent := parent o;
                  _equations := sp1_equations (_equations o) Ls |}) in *.
    set (o1 := {| class_of := class_of o;
                  CACHED_SP1 := <[Ls := length h]> (CACHED_SP1 o) |}).
    assert (extension_of o Ls o') as Hext.
    { repeat split; try done.
      - simpl. symmetry. apply (wf_parameters _ Hwfo).
      - by apply extended_equations_Ok. }
    assert ((h ++ [o']) !! length h = Some o') as Hnew.
    { by rewrite list_lookup_middle. }
    exists (length h), o', (<[s := o1]> (h ++ [o'])).
    split; [done|]. split.
    { rewrite list_lookup_insert_ne by lia. done. }
    split; [done|]. split.
    { apply (store_wf_insert _ s o o1).
      - apply store_wf_alloc; [done| |done].
        by apply init_wf in Hinit as [? _].
      - by rewrite lookup_app_l.
      - by repeat split.
      - intros Ls0 l0. simpl. rewrite lookup_insert.
        case_decide as Heq.
        + intros [= <-]. subst Ls0. eauto.
        + intros Hl0. eapply store_wf_le_entry; [apply store_le_alloc|].
          eauto. }
    split.
    { eapply store_le_trans; [apply store_le_alloc|].
      apply (store_le_insert _ s o o1); [by rewrite lookup_app_l|].
      by repeat split. }
    split; [done|].
    exists o1. rewrite list_lookup_insert_eq by (rewrite length_app; lia).
    repeat split; try done. simpl. by rewrite lookup_insert_eq.
Qed.

(** ** The invariant of the store is kept *)

Lemma store_wf_nil : store_wf [].
Proof. intros s o Hs. by rewrite lookup_nil in Hs. Qed.

Lemma new_store_wf `{!OperatorRingLaws R} c eqs par vars
    (h h' : store) (r : result loc) :
  store_wf h → new c eqs par vars h = (r, h') → store_wf h'.
Proof.
  intros Hwf. unfold new, lift, mbind, M_bind, alloc.
  destruct (init c eqs par vars) as [o'|e] eqn:Hinit.
  - intros [= <- <-]. apply init_wf in Hinit as (? & _ & ? & _).
    by apply store_wf_alloc.
  - by intros [= <- <-].
Qed.

Lemma subsystem_store_wf `{!OperatorRingLaws R} (s : loc) ind vars
    (h h' : store) (r : result loc) :
  store_wf h → subsystem s ind vars h = (r, h') → store_wf h'.
Proof.
  intros Hwf. unfold subsystem, mbind at 1, M_bind at 1, load.
  destruct (h !! s) as [o|]; [|by intros [= <- <-]].
  unfold mbind, M_bind, lift.
  destruct (equations o ind) as [eqs|e]; [|by intros [= <- <-]].
  by apply new_store_wf.
Qed.

Lemma getitem_system_store_wf `{!OperatorRingLaws R} (s : loc) ind
    (h h' : store) (r : result loc) :
  store_wf h → getitem_system s ind h = (r, h') → store_wf h'.
Proof.
  intros Hwf. unfold getitem_system, mbind at 1, M_bind at 1, load.
  destruct (h !! s) as [o|]; [|by intros [= <- <-]].
  unfold mbind, M_bind, lift.
  destruct (equations o ind) as [eqs|e]; [|by intros [= <- <-]].
  by apply new_store_wf.
Qed.

Lemma checked_entries (els : list entry) :
  existsb bad_entry els = false →
  Forall (fun Li => 0 ≤ Li) (entry_value <$> els).
Proof.
  induction els as [|el els IH]; [constructor|].
  cbn [existsb]. intros [Hel Hels]%orb_false_elim.
  rewrite fmap_cons. constructor; [|by apply IH].
  destruct el as [z|z|]; [| |done]; cbn in *; lia.
Qed.

(** Entries that passed the check and from which the equations can be
    built, or whose extension is cached, act as their values. *)
Lemma extend_by_operation_values (h : store) (s : loc) (o : RWOSystem)
    (els : list entry) :
  h !! s = Some o → existsb bad_entry els = false →
  is_Some (CACHED_SP1 o !! (entry_value <$> els))
  ∨ extended_equations_entries o els
    = extended_equations o (entry_value <$> els) →
  extend_by_operation s (ListOrTuple els) h
  = extend_by_operation s (ListOrTuple (InZZ <$> (entry_value <$> els))) h.
Proof.
  intros Hs Hbad Hsame. unfold extend_by_operation.
  rewrite Hbad, existsb_bad_entry_InZZ, entry_value_InZZ
    by (by apply checked_entries).
  unfold mbind at 1 5, M_bind at 1 5, load. rewrite Hs.
  destruct (CACHED_SP1 o !! (entry_value <$> els)) as [l|] eqn:Hc; [done|].
  destruct Hsame as [[l Hl]|Hsame]; [done|].
  by rewrite extended_equations_entries_InZZ, Hsame.
Qed.

Lemma extend_by_operation_store_wf `{!OperatorRingLaws R} (s : loc) Ls
    (h h' : store) (r : result loc) :
  store_wf h → extend_by_operation s Ls h = (r, h') → store_wf h'.
Proof.
  intros Hwf. destruct Ls as [els|]; [|by intros [= <- <-]].
  destruct (existsb bad_entry els) eqn:Hbad.
  { unfold extend_by_operation. rewrite Hbad. by intros [= <- <-]. }
  pose proof (checked_entries _ Hbad) as Hpos.
  destruct (h !! s) as [o|] eqn:Hs.
  2:{ unfold extend_by_operation. rewrite Hbad.
      unfold mbind, M_bind, load. rewrite Hs. by intros [= <- <-]. }
  destruct (CACHED_SP1 o !! (entry_value <$> els)) as [l|] eqn:Hc.
  { unfold extend_by_operation. rewrite Hbad.
    unfold mbind, M_bind, load. rewrite Hs, Hc. by intros [= <- <-]. }
  destruct (extended_equations_entries o els) as [eqs|e] eqn:Heqs.
  - apply extended_equations_entries_Ok in Heqs as Hvals.
    rewrite (extend_by_operation_values h s o els Hs Hbad)
      by (right; congruence).
    destruct (extend_by_operation_run h s o _ Hwf Hs Hpos)
      as (l & o' & h1 & -> & _ & _ & Hwf1 & _);
      [by eapply extended_equations_Ok_length|]. by intros [= <- <-].
  - unfold extend_by_operation. rewrite Hbad.
    unfold mbind, M_bind, load, lift. rewrite Hs, Hc, Heqs.
    by intros [= <- <-].
Qed.

Lemma store_resultant_store_wf (s : loc) (o : RWOSystem) (output : AlgPoly)
    (h h' : store) (r : result Poly) :
  store_wf h → store_resultant s o output h = (r, h') → store_wf h'.
Proof.
  intros Hwf. unfold store_resultant.
  destruct (alg_is_zero output); [by intros [= <- <-]|].
  unfold mbind, M_bind, lift, modify, mret, M_ret.
  destruct (from_algebraic (parent o) output) as [r'|e];
    [|by intros [= <- <-]].
  destruct (h !! s) as [o0|] eqn:Hs; [|by intros [= <- <-]].
  intros [= <- <-]. apply (store_wf_insert h s o0); [done|done| |].
  - by repeat split.
  - intros Ls l Hl. destruct (Hwf _ _ Hs) as [_ Hentries]. by apply Hentries.
Qed.

(** ** The extension, equation by equation *)

Lemma traverse_app {A B} (f : A → result B) l1 l2 bs1 bs2 :
  traverse f l1 = Ok bs1 → traverse f l2 = Ok bs2 →
  traverse f (l1 ++ l2) = Ok (bs1 ++ bs2).
Proof.
  rewrite !traverse_Ok. apply Forall2_app.
Qed.

Lemma traverse_bind {A B I} (f : A → result B) (g : I → list A)
    (G : I → list B) (l : list I) :
  Forall (fun i => traverse f (g i) = Ok (G i)) l →
  traverse f (l ≫= g) = Ok (concat (G <$> l)).
Proof.
  induction 1 as [|i l Hi _ IH]; [done|].
  rewrite bind_cons, fmap_cons. simpl. by apply traverse_app.
Qed.

Lemma traverse_fmap {A B C} (f : B → result C) (g : A → B) (l : list A) :
  traverse f (g <$> l) = traverse (fun x => f (g x)) l.
Proof.
  induction l as [|x l IH]; [done|].
  rewrite fmap_cons. cbn [traverse]. by rewrite IH.
Qed.

Lemma traverse_sp1_indices (o : RWOSystem) (Ls : list Z) :
  (length (_equations o) ≤ length Ls)%nat →
  traverse (equation o) (sp1_indices (size o) Ls)
  = Ok (sp1_equations (_equations o) Ls).
Proof.
  intros Hlen. unfold sp1_indices, sp1_equations.
  rewrite (traverse_bind _ _ (block_at (_equations o) Ls)).
  - unfold size. by rewrite sp1_lookup_zip.
  - apply Forall_seqZ. intros i Hi. unfold size in Hi.
    destruct (lookup_lt_is_Some_2 (_equations o) (Z.to_nat i)) as [p Hp]; [lia|].
    destruct (lookup_lt_is_Some_2 Ls (Z.to_nat i)) as [Li HLi]; [lia|].
    unfold block_at. rewrite Hp, HLi.
    rewrite (list_lookup_total_correct _ _ _ HLi), traverse_fmap.
    apply equation_pair_block.
    apply getitem_lookup in Hp. by rewrite Z2Nat.id in Hp by lia.
Qed.

(** C1. For a list [Ls] of non-negative integers of length [size()],
    [extend_by_operation(Ls)] returns a system whose equations are, in
    order, [equation((i,0)), ..., equation((i,Ls[i]))] for each equation
    [i]; its size is the sum of the [Ls[i] + 1]; the system is a new object
    when [Ls] was not in the cache, and calling again with the same [Ls]
    returns the same object without writing anything. *)
Theorem extend_by_operation_sp1 `{!OperatorRingLaws R}
    (h : store) (s : loc) (o : RWOSystem) (Ls : list Z) :
  store_wf h → h !! s = Some o →
  Forall (fun Li => 0 ≤ Li) Ls →
  length Ls = length (_equations o) →
  ∃ l o' h',
    extend_by_operation s (ListOrTuple (InZZ <$> Ls)) h = (Ok l, h')
    ∧ h' !! l = Some o'
    ∧ traverse (equation o) (sp1_indices (size o) Ls) = Ok (_equations o')
    ∧ size o' = sum_with (fun Li => Li + 1) Ls
    ∧ (CACHED_SP1 o !! Ls = None → l = length h)
    ∧ extend_by_operation s (ListOrTuple (InZZ <$> Ls)) h' = (Ok l, h').
Proof.
  intros Hwf Hs Hpos Hlen.
  destruct (extend_by_operation_run h s o Ls)
    as (l & o' & h' & Hrun & Hl & Hext & Hwf' & Hle & Hnew & o1 & Hs1 & Hsame
        & Hcache & _); [done|done|done|lia|].
  exists l, o', h'. split; [done|]. split; [done|].
  destruct Hext as (_ & _ & _ & _ & Heqs).
  rewrite extended_equations_Ok in Heqs by lia. injection Heqs as Heqs.
  split; [|split; [|split; [done|]]].
  - rewrite <- Heqs. apply traverse_sp1_indices. lia.
  - unfold size. rewrite <- Heqs. by apply sp1_equations_length.
  - by apply (extend_by_operation_cached h' s l o1).
Qed.

(** ** The candidates of the extension search *)

Lemma sum_with_cons {A} (f : A → Z) (x : A) (l : list A) :
  sum_with f (x :: l) = f x + sum_with f l.
Proof. done. Qed.

Lemma sum_with_nonneg (c : list Z) :
  Forall (fun a => 0 ≤ a) c → 0 ≤ sum_with id c.
Proof.
  induction 1 as [|a c Ha _ IH]; [done|].
  rewrite sum_with_cons. unfold id at 1. lia.
Qed.

Lemma Compositions_elem (k : nat) (n b : Z) (c : list Z) :
  c ∈ Compositions k n b →
  length c = k ∧ Forall (fun a => 1 ≤ a ≤ b) c ∧ sum_with id c = n.
Proof.
  revert n c. induction k as [|k IH]; intros n c; cbn [Compositions].
  - destruct (n =? 0) eqn:E; [|by intros ?%elem_of_nil].
    intros ->%list_elem_of_singleton.
    split; [done|]. split; [constructor|]. cbn. lia.
  - intros (a & Hc & Ha)%list_elem_of_bind.
    apply elem_of_reverse, elem_of_seqZ in Ha.
    apply list_elem_of_fmap in Hc as (c' & -> & Hc').
    destruct (IH _ _ Hc') as (Hlen & Hall & Hsum).
    split; [by rewrite length_cons, Hlen|]. split.
    + constructor; [lia|done].
    + rewrite sum_with_cons, Hsum. change (id a) with a. lia.
Qed.

Lemma Compositions_complete (b : Z) (c : list Z) :
  Forall (fun a => 1 ≤ a ≤ b) c →
  c ∈ Compositions (length c) (sum_with id c) b.
Proof.
  induction 1 as [|a c Ha Hc IH]; [by apply list_elem_of_singleton|].
  rewrite length_cons, sum_with_cons. cbn [Compositions].
  assert (0 ≤ sum_with id c).
  { apply sum_with_nonneg. eapply Forall_impl; [done|]. simpl. lia. }
  apply list_elem_of_bind. exists a. split.
  - apply list_elem_of_fmap. exists c. split; [done|].
    by replace (id a + sum_with id c - a) with (sum_with id c)
      by (change (id a) with a; lia).
  - apply elem_of_reverse, elem_of_seqZ. change (id a) with a. lia.
Qed.

Lemma sum_with_pred (c : list Z) :
  sum_with id ((fun el => el - 1) <$> c) = sum_with id c - Z.of_nat (length c).
Proof.
  induction c as [|a c IH]; [done|].
  rewrite fmap_cons, !sum_with_cons, IH, length_cons.
  change (id a) with a. change (id (a - 1)) with (a - 1). lia.
Qed.

Lemma sum_with_succ (c : list Z) :
  sum_with id ((fun el => el + 1) <$> c) = sum_with id c + Z.of_nat (length c).
Proof.
  induction c as [|a c IH]; [done|].
  rewrite fmap_cons, !sum_with_cons, IH, length_cons.
  change (id a) with a. change (id (a + 1)) with (a + 1). lia.
Qed.

(** Every candidate has one bound per equation, each between [0] and
    [bound - 1], and the weight of the round that produced it. *)
Lemma gen_cartesian_elem (n bound : Z) (L : list Z) :
  L ∈ gen_cartesian n bound →
  length L = Z.to_nat n
  ∧ Forall (fun c => 0 ≤ c ≤ bound - 1) L
  ∧ 0 ≤ sum_with id L < bound * n.
Proof.
  unfold gen_cartesian.
  intros (i & HL & Hi)%list_elem_of_bind.
  apply elem_of_seqZ in Hi.
  apply list_elem_of_fmap in HL as (c & -> & Hc).
  apply Compositions_elem in Hc as (Hlen & Hall & Hsum).
  rewrite length_fmap, sum_with_pred, Hsum, Hlen.
  split; [done|]. split.
  - apply Forall_fmap. eapply Forall_impl; [done|]. simpl. lia.
  - destruct (decide (0 ≤ n)); [lia|].
    replace (Z.to_nat n) with O in * by lia.
    destruct c; [|done]. cbn in Hsum. lia.
Qed.

(** Every tuple of [n > 0] bounds between [0] and [bound - 1] is a
    candidate. *)
Lemma gen_cartesian_complete (n bound : Z) (L : list Z) :
  0 < n → length L = Z.to_nat n →
  Forall (fun c => 0 ≤ c ≤ bound - 1) L →
  L ∈ gen_cartesian n bound.
Proof.
  intros Hn Hlen Hall. unfold gen_cartesian.
  assert (sum_with id L ≤ (bound - 1) * Z.of_nat (length L)) as Hsum.
  { clear -Hall. induction Hall as [|c L Hc _ IH]; [cbn; lia|].
    rewrite sum_with_cons, length_cons. unfold id at 1. lia. }
  assert (0 ≤ sum_with id L) as Hsum0.
  { apply sum_with_nonneg. eapply Forall_impl; [done|]. simpl. lia. }
  apply list_elem_of_bind. exists (sum_with id L). split.
  - apply list_elem_of_fmap. exists ((fun el => el + 1) <$> L). split.
    + rewrite <- list_fmap_compose. symmetry.
      rewrite <- (list_fmap_id L) at 2. apply list_fmap_ext.
      intros _ c _. simpl. lia.
    + assert (sum_with id ((fun el => el + 1) <$> L) = sum_with id L + n) as <-.
      { rewrite sum_with_succ. lia. }
      rewrite <- Hlen, <- (length_fmap (fun el => el + 1) L).
      apply Compositions_complete.
      apply Forall_fmap. eapply Forall_impl; [done|]. simpl. lia.
  - apply elem_of_seqZ. nia.
Qed.

Lemma sorted_bind_weights {A} (wt : A → Z) (g : Z → list A) (l : list Z) :
  StronglySorted Z.le l →
  (∀ i x, x ∈ g i → wt x = i) →
  StronglySorted Z.le (wt <$> (l ≫= g)).
Proof.
  intros Hl Hg. induction Hl as [|i l Hl IH Hi]; [constructor|].
  rewrite bind_cons, fmap_app. apply StronglySorted_app_2; [| |done].
  - intros w1 w2 (x1 & -> & Hx1)%list_elem_of_fmap
                 (x2 & -> & Hx2)%list_elem_of_fmap.
    apply list_elem_of_bind in Hx2 as (j & Hx2 & Hj).
    rewrite (Hg _ _ Hx1), (Hg _ _ Hx2).
    rewrite Forall_forall in Hi. auto.
  - clear -Hg. generalize (Hg i). induction (g i) as [|x xs IH]; intros Hx.
    + constructor.
    + rewrite fmap_cons. constructor.
      * apply IH. intros y Hy. apply Hx. by apply elem_of_cons; right.
      * apply Forall_fmap, Forall_forall. intros y Hy. simpl.
        rewrite (Hx x), (Hx y); [lia| |]; apply elem_of_cons; auto.
Qed.

Lemma seqZ_sorted (m n : Z) : StronglySorted Z.le (seqZ m n).
Proof.
  destruct (decide (0 ≤ n)) as [Hn|Hn]; [|rewrite seqZ_nil by lia; constructor].
  rewrite <- (Z2Nat.id n) by done. generalize (Z.to_nat n) as k. clear.
  intros k. revert m. induction k as [|k IH]; intros m.
  - rewrite seqZ_nil by lia. constructor.
  - rewrite seqZ_cons by lia. constructor.
    + replace (Z.pred (Z.of_nat (S k))) with (Z.of_nat k) by lia. apply IH.
    + apply Forall_seqZ. lia.
Qed.

(** The candidates come by weight, lightest first. *)
Lemma gen_cartesian_sorted (n bound : Z) :
  0 ≤ n → StronglySorted Z.le (sum_with id <$> gen_cartesian n bound).
Proof.
  intros Hn.
  unfold gen_cartesian. apply sorted_bind_weights; [apply seqZ_sorted|].
  intros i L (c & -> & Hc)%list_elem_of_fmap.
  apply Compositions_elem in Hc as (Hlen & Hall & Hsum).
  rewrite sum_with_pred, Hsum, Hlen. lia.
Qed.

Lemma Compositions_ones (k : nat) (b : Z) :
  1 ≤ b → replicate k 1 ∈ Compositions k (Z.of_nat k) b.
Proof.
  intros Hb. induction k as [|k IH]; [by apply list_elem_of_singleton|].
  cbn [Compositions replicate]. apply list_elem_of_bind. exists 1. split.
  - apply list_elem_of_fmap. exists (replicate k 1). split; [done|].
    by replace (Z.of_nat (S k) - 1) with (Z.of_nat k) by lia.
  - apply elem_of_reverse, elem_of_seqZ. lia.
Qed.

(** The first candidate has weight [0]. *)
Lemma gen_cartesian_head (n bound : Z) (L : list Z) :
  0 ≤ n → head (gen_cartesian n bound) = Some L → sum_with id L = 0.
Proof.
  unfold gen_cartesian. intros Hn0 Hhead.
  destruct (decide (0 < bound * n)) as [Hpos|Hpos].
  2:{ rewrite seqZ_nil in Hhead by lia. done. }
  rewrite seqZ_cons, bind_cons in Hhead by lia.
  assert (0 < n) as Hn.
  { destruct (decide (n = 0)) as [->|]; lia. }
  assert (1 ≤ bound) as Hb.
  { destruct (decide (1 ≤ bound)); [done|]. nia. }
  apply head_app_Some in Hhead as [Hhead|[Hnone _]].
  - apply head_Some_elem_of in Hhead.
    apply list_elem_of_fmap in Hhead as (c & -> & Hc).
    apply Compositions_elem in Hc as (Hlen & _ & Hsum).
    rewrite sum_with_pred, Hsum, Hlen. lia.
  - exfalso. pose proof (Compositions_ones (Z.to_nat n) bound Hb) as Hin.
    rewrite Z2Nat.id in Hin by lia. rewrite Z.add_0_l in Hnone.
    destruct (Compositions (Z.to_nat n) n bound); [|done].
    by apply elem_of_nil in Hin.
Qed.

(** ** The extension search *)

Lemma is_sp2_same (a b : RWOSystem) : same_system a b → is_sp2 a = is_sp2 b.
Proof.
  destruct a, b. intros (? & ? & ? & ? & ?). simpl in *. subst.
  reflexivity.
Qed.

Lemma sp2_extended_same (a b : RWOSystem) (L : list Z) :
  same_system a b → sp2_extended a L = sp2_extended b L.
Proof.
  intros Hab. unfold sp2_extended, extended_system.
  rewrite (extended_equations_same _ _ _ Hab).
  destruct Hab as (-> & -> & _ & -> & ->). done.
Qed.

Lemma sp2_extended_extension (o o' : RWOSystem) (L : list Z) :
  extension_of o L o' → sp2_extended o L = is_sp2 o'.
Proof.
  intros (? & ? & ? & ? & Heqs). unfold sp2_extended, extended_system.
  rewrite Heqs. simpl. apply is_sp2_same. by repeat split.
Qed.

(** The value of [self.extend_by_operation(L).is_sp2()] does not depend on
    the store in which it is evaluated. *)
Lemma sp2_of_extension_run `{!OperatorRingLaws R}
    (h : store) (s : loc) (o : RWOSystem) (L : list Z) :
  store_wf h → h !! s = Some o →
  Forall (fun Li => 0 ≤ Li) L →
  (length (_equations o) ≤ length L)%nat →
  ∃ h', sp2_of_extension s L h = (sp2_extended o L, h')
        ∧ store_wf h' ∧ store_le h h'
        ∧ ∃ o1, h' !! s = Some o1 ∧ same_system o o1.
Proof.
  intros Hwf Hs Hpos Hlen.
  destruct (extend_by_operation_run h s o L)
    as (l & o' & h' & Hrun & Hl & Hext & Hwf' & Hle & _ & o1 & Hs1 & Hsame & _);
    [done..|].
  exists h'. unfold sp2_of_extension, mbind, M_bind.
  rewrite Hrun. unfold load. rewrite Hl. unfold lift.
  rewrite (sp2_extended_extension _ _ _ Hext).
  split; [by destruct (is_sp2 o')|]. eauto.
Qed.

Lemma search_extension_run `{!OperatorRingLaws R}
    (s : loc) (candidates : list (list Z)) (h : store) (o : RWOSystem) :
  store_wf h → h !! s = Some o →
  Forall (candidate_for o) candidates →
  ∃ r h', search_extension s candidates h = (r, h')
          ∧ store_wf h' ∧ store_le h h'
          ∧ (∃ o1, h' !! s = Some o1 ∧ same_system o o1)
          ∧ search_outcome o candidates r.
Proof.
  intros Hwf Hs Hall. revert h o Hwf Hs Hall.
  induction candidates as [|L rest IH]; intros h o Hwf Hs Hall.
  - exists (Raise TypeError), h. split; [done|]. split; [done|].
    split; [apply store_le_refl|]. split; [eauto using same_system_refl|].
    left. split; [constructor|done].
  - apply Forall_cons in Hall as [[Hpos Hlen] Hrest].
    destruct (sp2_of_extension_run h s o L Hwf Hs Hpos Hlen)
      as (h1 & Hrun & Hwf1 & Hle1 & o1 & Hs1 & Hsame1).
    cbn [search_extension]. unfold mbind, M_bind. rewrite Hrun.
    destruct (sp2_extended o L) as [[|]|e] eqn:Hsp2.
    + exists (Ok L), h1. split; [done|]. split; [done|]. split; [done|].
      split; [eauto|]. exists [], rest. split; [done|]. split; [constructor|done].
    + destruct (IH h1 o1) as (r & h' & Hsearch & Hwf' & Hle' & Hs' & Hout);
        [done|done| |].
      { eapply Forall_impl; [exact Hrest|]. intros L' [? ?]. split; [done|].
        destruct Hsame1 as (_ & _ & <- & _). done. }
      exists r, h'. split; [done|]. split; [done|].
      split; [by eapply store_le_trans|]. split.
      { destruct Hs' as (o2 & ? & ?). eauto using same_system_trans. }
      assert (∀ L', sp2_extended o1 L' = sp2_extended o L') as Hsame.
      { intros L'. symmetry. by apply sp2_extended_same. }
      destruct r as [Lr|e]; unfold search_outcome in *.
      * destruct Hout as (pre & post & -> & Hpre & Hfound).
        exists (L :: pre), post. split; [done|]. split.
        -- constructor; [done|]. eapply Forall_impl; [exact Hpre|].
           intros L'. cbv beta. by rewrite Hsame.
        -- by rewrite <- Hsame.
      * destruct Hout as [[Hfail ->]|(pre & Lr & post & -> & Hpre & Herr)].
        -- left. split; [|done]. constructor; [done|].
           eapply Forall_impl; [exact Hfail|]. intros L'. cbv beta. by rewrite Hsame.
        -- right. exists (L :: pre), Lr, post. split; [done|]. split.
           ++ constructor; [done|]. eapply Forall_impl; [exact Hpre|].
              intros L'. cbv beta. by rewrite Hsame.
           ++ by rewrite <- Hsame.
    + exists (Raise e), h1. split; [done|]. split; [done|]. split; [done|].
      split; [eauto|]. right. exists [], L, rest.
      split; [done|]. split; [constructor|done].
Qed.

(** The first element of a list whose value is not [False] is one element:
    two ways of cutting the list there are the same. *)
Lemma first_not_false_unique {A} (v : A → result bool)
    (pre pre' post post' : list A) (x x' : A) :
  pre ++ x :: post = pre' ++ x' :: post' →
  Forall (fun y => v y = Ok false) pre → v x ≠ Ok false →
  Forall (fun y => v y = Ok false) pre' → v x' ≠ Ok false →
  pre = pre' ∧ x = x' ∧ post = post'.
Proof.
  revert pre'. induction pre as [|y pre IH]; intros [|y' pre'] Heq Hpre Hx
    Hpre' Hx'; simplify_eq/=.
  - done.
  - by apply Forall_cons in Hpre' as [? _].
  - by apply Forall_cons in Hpre as [? _].
  - apply Forall_cons in Hpre as [_ Hpre].
    apply Forall_cons in Hpre' as [_ Hpre'].
    destruct (IH pre' H0 Hpre Hx Hpre' Hx') as (-> & -> & ->). done.
Qed.

Lemma gen_cartesian_candidates (o : RWOSystem) (bound : Z) :
  Forall (candidate_for o) (gen_cartesian (size o) bound).
Proof.
  apply Forall_forall. intros L HL.
  apply gen_cartesian_elem in HL as (Hlen & Hall & _).
  unfold size in Hlen. rewrite Nat2Z.id in Hlen. split; [|lia].
  eapply Forall_impl; [done|]. simpl. lia.
Qed.

(** C3. For a non-negative integer [bound], the candidates of the extension
    search are tuples of [size()] integers between [-1] and [bound - 1] (and
    never negative), they come by weight, starting from [0]. When
    [extend_by_operation(L).is_sp2()] holds for a candidate [L] and is false
    for the candidates before it, the search returns [L]; whatever it
    returns is such a first candidate, so the extension it returns satisfies
    [is_sp2()]; and it raises [TypeError] when
    [extend_by_operation(L).is_sp2()] is false for every candidate. *)
Theorem get_extension_first_sp2 `{!OperatorRingLaws R}
    (h : store) (s : loc) (o : RWOSystem) (bound : Z) :
  store_wf h → h !! s = Some o → 0 ≤ bound →
  let candidates := gen_cartesian (size o) bound in
  Forall (fun L => Z.of_nat (length L) = size o
                   ∧ Forall (fun c => -1 ≤ c ≤ bound - 1) L
                   ∧ Forall (fun c => 0 ≤ c) L) candidates
  ∧ StronglySorted Z.le (sum_with id <$> candidates)
  ∧ (∀ L, head candidates = Some L → sum_with id L = 0)
  ∧ (∀ L h', get_extension s (InZZ bound) h = (Ok L, h') →
       ∃ pre post, candidates = pre ++ L :: post
         ∧ Forall (fun L' => (sp2_of_extension s L' h).1 = Ok false) pre
         ∧ (sp2_of_extension s L h').1 = Ok true)
  ∧ (Forall (fun L => (sp2_of_extension s L h).1 = Ok false) candidates →
     (get_extension s (InZZ bound) h).1 = Raise TypeError)
  ∧ (∀ pre L post, candidates = pre ++ L :: post →
       Forall (fun L' => (sp2_of_extension s L' h).1 = Ok false) pre →
       (sp2_of_extension s L h).1 = Ok true →
       ∃ h', get_extension s (InZZ bound) h = (Ok L, h')
             ∧ (sp2_of_extension s L h').1 = Ok true).
Proof.
  intros Hwf Hs Hbound candidates.
  pose proof (gen_cartesian_candidates o bound) as Hcand.
  fold candidates in Hcand.
  assert (∀ L, L ∈ candidates →
            (sp2_of_extension s L h).1 = sp2_extended o L) as Hpure.
  { intros L HL. rewrite Forall_forall in Hcand.
    destruct (Hcand _ HL) as [Hpos Hlen].
    destruct (sp2_of_extension_run h s o L Hwf Hs Hpos Hlen) as (h1 & -> & _).
    done. }
  assert (get_extension s (InZZ bound) h = search_extension s candidates h)
    as Hget.
  { unfold get_extension. cbn [bad_entry entry_value].
    destruct (bound <? 0) eqn:E; [lia|].
    unfold mbind, M_bind, load. by rewrite Hs. }
  destruct (search_extension_run s candidates h o Hwf Hs Hcand)
    as (r & h1 & Hsearch & Hwf1 & Hle1 & (o1 & Hs1 & Hsame1) & Hout).
  assert (∀ L, L ∈ candidates →
            (sp2_of_extension s L h1).1 = sp2_extended o L) as Hlater.
  { intros L HL. rewrite Forall_forall in Hcand.
    destruct (Hcand _ HL) as [Hpos Hlen].
    destruct (sp2_of_extension_run h1 s o1 L Hwf1 Hs1 Hpos) as (h2 & -> & _).
    - by destruct Hsame1 as (_ & _ & <- & _).
    - cbn [fst]. symmetry. by apply sp2_extended_same. }
  split; [|split; [|split; [|split; [|split]]]].
  - apply Forall_forall. intros L HL.
    apply gen_cartesian_elem in HL as (Hlen & Hall & _).
    split; [unfold size in *; lia|].
    split; (eapply Forall_impl; [exact Hall|]); simpl; lia.
  - apply gen_cartesian_sorted. unfold size. lia.
  - intros L. apply gen_cartesian_head. unfold size. lia.
  - intros L h' Hrun. rewrite Hget, Hsearch in Hrun.
    injection Hrun as -> ->. cbn [search_outcome] in Hout.
    destruct Hout as (pre & post & Heq & Hpre & Hfound).
    exists pre, post. split; [done|]. split.
    + apply Forall_forall. intros L' HL'. rewrite Hpure.
      * rewrite Forall_forall in Hpre. auto.
      * rewrite Heq. apply elem_of_app. auto.
    + rewrite Hlater; [done|].
      rewrite Heq. apply elem_of_app. right. by apply elem_of_cons; left.
  - intros Hfail. rewrite Hget, Hsearch. cbn [fst].
    destruct r as [L|e]; cbn [search_outcome] in Hout.
    + destruct Hout as (pre & post & Heq & _ & Hfound).
      rewrite Forall_forall in Hfail.
      assert (L ∈ candidates) as HL.
      { rewrite Heq. apply elem_of_app. right. by apply elem_of_cons; left. }
      specialize (Hfail L HL). rewrite (Hpure L HL) in Hfail. congruence.
    + destruct Hout as [[_ ->]|(pre & L & post & Heq & _ & Herr)]; [done|].
      rewrite Forall_forall in Hfail.
      assert (L ∈ candidates) as HL.
      { rewrite Heq. apply elem_of_app. right. by apply elem_of_cons; left. }
      specialize (Hfail L HL). rewrite (Hpure L HL) in Hfail. congruence.
  - intros pre L post Heq Hpre Hfound.
    assert (L ∈ candidates) as HL.
    { rewrite Heq. apply elem_of_app. right. by apply elem_of_cons; left. }
    assert (Forall (fun L' => sp2_extended o L' = Ok false) pre) as Hpre'.
    { apply Forall_forall. intros L' HL'. rewrite <- Hpure.
      - rewrite Forall_forall in Hpre. auto.
      - rewrite Heq. apply elem_of_app. auto. }
    rewrite (Hpure L HL) in Hfound.
    exists h1. rewrite Hget, Hsearch, (Hlater L HL).
    split; [|done]. f_equal.
    destruct r as [L2|e]; cbn [search_outcome] in Hout.
    + destruct Hout as (pre2 & post2 & Heq2 & Hpre2 & Hfound2).
      rewrite Heq in Heq2.
      destruct (first_not_false_unique (sp2_extended o) _ _ _ _ _ _ Heq2)
        as (_ & -> & _); [done|congruence|done|congruence|done].
    + destruct Hout as [[Hfail _]|(pre2 & L2 & post2 & Heq2 & Hpre2 & Herr)].
      * rewrite Forall_forall in Hfail. specialize (Hfail L HL). congruence.
      * rewrite Heq in Heq2.
        destruct (first_not_false_unique (sp2_extended o) _ _ _ _ _ _ Heq2)
          as (_ & -> & _); [done|congruence|done|congruence|congruence].
Qed.

(** ** The structural classifier *)

Lemma is_sp2_balance (o : RWOSystem) (b : bool) :
  is_sp2 o = Ok b ↔
  ∃ hom, is_homogeneous o = Ok hom
         ∧ (b = true ↔
            if hom
            then Z.of_nat (length (algebraic_variables o)) = size o
            else Z.of_nat (length (algebraic_variables o)) = size o - 1).
Proof.
  unfold is_sp2. destruct (is_homogeneous o) as [hom|e]; simpl.
  - split.
    + intros [= <-]. exists hom. split; [done|].
      destruct hom; apply bool_decide_eq_true.
    + intros (hom' & [= <-] & Hb). f_equal.
      destruct hom; (destruct b;
        [apply bool_decide_eq_true_2; by apply Hb
        |apply bool_decide_eq_false_2; intros H%Hb; done]).
  - split; [done|]. by intros (hom & ? & _).
Qed.

(** ** Equations by index *)

(** C7. For a valid index [i] and a non-negative [n], [equation((i,0))] is
    [equation(i)] and [equation((i,n))] is the result of applying the
    operator [n] times to [equation(i)]; an integer index out of range
    raises [IndexError]. *)
Theorem equation_pair_roundtrip (o : RWOSystem) :
  (∀ i n, - size o ≤ i < size o → 0 ≤ n →
     equation o (Pair i 0) = equation o (Plain i)
     ∧ ∃ p, equation o (Plain i) = Ok p
            ∧ equation o (Pair i n)
              = Ok (Nat.iter (Z.to_nat n) apply_operator p))
  ∧ (∀ j, j < - size o ∨ size o ≤ j →
       equation o (Plain j) = Raise IndexError).
Proof.
  split.
  - intros i n Hi Hn. cbn [equation].
    destruct (getitem_in_range (_equations o) i Hi) as [p Hp].
    rewrite Hp. split; [done|]. exists p. split; [done|].
    cbn. by apply operation_Ok.
  - intros j Hj. cbn [equation]. by apply getitem_out_of_range.
Qed.

(** ** Derived systems *)

Lemma new_run `{!OperatorRingLaws R} c eqs par vars (h h' : store) (l : loc) :
  new c eqs (Some par) vars h = (Ok l, h') →
  Forall (fun p => parent_of p = par) eqs →
  ∃ o', init c eqs (Some par) vars = Ok o'
        ∧ l = length h ∧ h' = h ++ [o'] ∧ parent o' = par.
Proof.
  unfold new, lift, mbind, M_bind, alloc.
  destruct (init c eqs (Some par) vars) as [o'|e] eqn:Hinit; [|done].
  intros [= <- <-] Heqs. exists o'. repeat split; try done.
  unfold init in Hinit.
  rewrite reduce_pushout_same in Hinit by (by apply Forall_fmap).
  simpl in Hinit.
  destruct (is_RWOPolynomialRing par); simpl in Hinit; [|done].
  destruct (traverse (coerce par) eqs); simpl in Hinit; [|done].
  destruct (match vars with Some _ => _ | None => _ end); simpl in Hinit;
    [|done].
  destruct (class_check c par); simpl in Hinit; [|done].
  by injection Hinit as <-.
Qed.

Lemma subsystem_parent `{!OperatorRingLaws R}
    (h h' : store) (s l : loc) (o : RWOSystem) ind vars :
  wf_system o → h !! s = Some o →
  subsystem s ind vars h = (Ok l, h') →
  ∃ o', h' !! l = Some o' ∧ parent o' = parent o.
Proof.
  intros Hwf Hs. unfold subsystem, mbind at 1, M_bind at 1, load.
  rewrite Hs. unfold mbind, M_bind, lift.
  destruct (equations o ind) as [eqs|e] eqn:Heqs; [|done].
  intros (o' & _ & -> & -> & Hpar)%new_run; [|by eapply equations_parent].
  exists o'. split; [|done]. by rewrite list_lookup_middle.
Qed.

Lemma extended_equations_parent `{!OperatorRingLaws R}
    (o : RWOSystem) (Ls : list Z) eqs :
  wf_system o → extended_equations o Ls = Ok eqs →
  Forall (fun p => parent_of p = parent o) eqs.
Proof.
  intros Hwf Heqs.
  pose proof (extended_equations_Ok_length _ _ _ Heqs) as Hlen.
  rewrite extended_equations_Ok in Heqs by done. injection Heqs as <-.
  apply sp1_equations_parent. by apply wf_equations.
Qed.

(** C10. Whatever [subsystem], [change_variables], [__getitem__] or
    [extend_by_operation] returns on a system has the parent of that
    system. *)
Theorem derived_system_parent `{!OperatorRingLaws R}
    (h : store) (s : loc) (o : RWOSystem) :
  store_wf h → h !! s = Some o →
  (∀ ind vars l h', subsystem s ind vars h = (Ok l, h') →
     ∃ o', h' !! l = Some o' ∧ parent o' = parent o)
  ∧ (∀ vars l h', change_variables s vars h = (Ok l, h') →
       ∃ o', h' !! l = Some o' ∧ parent o' = parent o)
  ∧ (∀ ind l h', getitem_system s ind h = (Ok l, h') →
       ∃ o', h' !! l = Some o' ∧ parent o' = parent o)
  ∧ (∀ Ls l h', extend_by_operation s Ls h = (Ok l, h') →
       ∃ o', h' !! l = Some o' ∧ parent o' = parent o).
Proof.
  intros Hwf Hs. destruct (Hwf _ _ Hs) as [Hwfo Hentries].
  split; [|split; [|split]].
  - intros ind vars l h'. by apply subsystem_parent.
  - intros vars l h'. unfold change_variables. by apply subsystem_parent.
  - intros ind l h'. unfold getitem_system, mbind at 1, M_bind at 1, load.
    rewrite Hs. unfold mbind, M_bind, lift.
    destruct (equations o ind) as [eqs|e] eqn:Heqs; [|done].
    intros (o' & _ & -> & -> & Hpar)%new_run; [|by eapply equations_parent].
    exists o'. split; [|done]. by rewrite list_lookup_middle.
  - intros [els|] l h'; [|done]. unfold extend_by_operation.
    destruct (existsb bad_entry els); [done|].
    unfold mbind at 1, M_bind at 1, load. rewrite Hs.
    destruct (CACHED_SP1 o !! (entry_value <$> els)) as [cached|] eqn:Hc.
    + intros [= <- <-]. destruct (Hentries _ _ Hc) as (o' & Hl & Hext).
      exists o'. split; [done|]. by destruct Hext as (_ & ? & _).
    + unfold mbind at 1, M_bind at 1, lift.
      destruct (extended_equations_entries o _) as [eqs|e] eqn:Heqs; [|done].
      apply extended_equations_entries_Ok in Heqs.
      unfold mbind at 1, M_bind at 1.
      destruct (new _ _ _ _ h) as [[ext|e] h1] eqn:Hnew; [|done].
      apply new_run in Hnew as (o' & _ & -> & -> & Hpar);
        [|by eapply extended_equations_parent].
      pose proof (lookup_lt_Some _ _ _ Hs) as Hlt.
      unfold mbind, M_bind, modify, mret, M_ret.
      rewrite lookup_app_l, Hs by done. intros [= <- <-].
      exists o'. split; [|done].
      rewrite list_lookup_insert_ne by lia. by rewrite list_lookup_middle.
Qed.

(** C8. [change_variables(self.variables)] builds a system with the
    equations, the variables and the parameters of the receiver, and
    [change_variables(vs)] is [subsystem(None, vs)]. *)
Theorem change_variables_same_system `{!OperatorRingLaws R}
    (h : store) (s : loc) (o : RWOSystem) :
  wf_system o → h !! s = Some o →
  (∃ o', change_variables s (VarList (variables o)) h
         = (Ok (length h), h ++ [o'])
         ∧ _equations o' = _equations o
         ∧ variables o' = variables o
         ∧ parameters o' = parameters o
         ∧ parent o' = parent o)
  ∧ (∀ vs h0, change_variables s (VarList vs) h0
              = subsystem s NoIndices (Some vs) h0).
Proof.
  intros Hwf Hs. split; [|done].
  unfold change_variables, subsystem, new, lift, mbind, M_bind, load, alloc.
  rewrite Hs. cbn [equations].
  rewrite (init_derived (class_of o) (_equations o) (parent o) (variables o)
             (wf_ring _ Hwf) (wf_class _ Hwf) (wf_equations _ Hwf)
             (wf_variables _ Hwf)).
  eexists. split; [done|]. cbn.
  repeat split; try done. symmetry. by apply wf_parameters.
Qed.

(** ** Validation in [extend_by_operation] *)

Lemma existsb_bad_entry (els : list entry) :
  existsb bad_entry els = true ↔
  Exists (fun el => el = NotInZZ
                    ∨ ∃ z, (el = InZZ z ∨ el = FloatInZZ z) ∧ z < 0) els.
Proof.
  rewrite existsb_exists, Exists_exists. split.
  - intros (el & Hin%list_elem_of_In & Hbad). exists el. split; [done|].
    destruct el as [z|z|]; [| |by left]; right; exists z; cbn in Hbad;
      (split; [auto|lia]).
  - intros (el & Hin%list_elem_of_In & [->|(z & [->| ->] & Hz)]);
      eexists; (split; [done|]); cbn; try done; lia.
Qed.

(** A value that is no integer for [range], among entries that are as many
    as the equations, stops the construction with [TypeError]. *)
Lemma extended_equations_entries_float (o : RWOSystem) (els : list entry) :
  length els = length (_equations o) →
  Exists (fun el => ∃ z, el = FloatInZZ z) els →
  extended_equations_entries o els = Raise TypeError.
Proof.
  intros Hlen (el & (i & Hi)%list_elem_of_lookup & z & ->)%Exists_exists.
  pose proof (lookup_lt_Some _ _ _ Hi) as Hlt.
  unfold extended_equations_entries.
  destruct (traverse _ (seqZ 0 (size o))) as [blocks|e] eqn:Hblocks.
  - eapply (traverse_Ok_elem _ _ _ (Z.of_nat i)) in Hblocks as [block Hblock].
    + by rewrite (getitem_lookup _ _ _ Hi) in Hblock.
    + apply elem_of_seqZ. unfold size. lia.
  - apply traverse_Raise in Hblocks as (j & Hj%elem_of_seqZ & Hraise).
    unfold size in Hj.
    destruct (getitem_in_range els j) as [el Hel]; [lia|].
    destruct (getitem_in_range (_equations o) j) as [p Hp]; [lia|].
    rewrite Hel in Hraise.
    destruct el as [Li|Li|]; [|by injection Hraise as <-..].
    change (traverse (fun k => equation o (Pair j k)) (seqZ 0 (Li + 1))
            = Raise e) in Hraise.
    rewrite (equation_pair_block o j p Li Hp) in Hraise. done.
Qed.

(** What [extend_by_operation] checks of its argument. An argument that is
    not a list or tuple raises [TypeError]; an entry that is not in [ZZ] or
    is negative raises [ValueError]; with as many entries as equations, a
    value such as [1.0], which is in [ZZ] and no integer, raises
    [TypeError] unless the extension for the equal integers is cached,
    which is then returned. Nothing is built or cached when the call
    fails. *)
Lemma extend_by_operation_checks (h : store) (s : loc) (o : RWOSystem) :
  h !! s = Some o →
  extend_by_operation s NotASequence h = (Raise TypeError, h)
  ∧ (∀ els,
       Exists (fun el => el = NotInZZ
                         ∨ ∃ z, (el = InZZ z ∨ el = FloatInZZ z) ∧ z < 0)
              els →
       extend_by_operation s (ListOrTuple els) h = (Raise ValueError, h))
  ∧ (∀ els, existsb bad_entry els = false →
       length els = length (_equations o) →
       Exists (fun el => ∃ z, el = FloatInZZ z) els →
       extend_by_operation s (ListOrTuple els) h
       = match CACHED_SP1 o !! (entry_value <$> els) with
         | Some cached => (Ok cached, h)
         | None => (Raise TypeError, h)
         end).
Proof.
  intros Hs. split; [done|]. split.
  - intros els Hbad%existsb_bad_entry. unfold extend_by_operation.
    by rewrite Hbad.
  - intros els Hbad Hlen Hfloat. unfold extend_by_operation. rewrite Hbad.
    unfold mbind, M_bind, load, lift. rewrite Hs.
    destruct (CACHED_SP1 o !! _); [done|].
    by rewrite extended_equations_entries_float.
Qed.

(** ** The resultant and its cache *)

(** The properties below hold whatever the iterative eliminator does. *)
Variable iterative : loc → entry → string → M AlgPoly.

Lemma diff_resultant_cached_run (h : store) (s : loc) (o : RWOSystem)
    (r : Poly) (bound_L : entry) (alg_res : string) :
  h !! s = Some o → CACHED_RES o = Some r →
  diff_resultant iterative s bound_L alg_res h = (Ok r, h).
Proof.
  intros Hs Hc. unfold diff_resultant, mbind, M_bind, load.
  by rewrite Hs, Hc.
Qed.

Lemma store_resultant_Ok (h h' : store) (s : loc) (o : RWOSystem)
    (output : AlgPoly) (r : Poly) :
  store_resultant s o output h = (Ok r, h') →
  ∃ o1, h' !! s = Some o1 ∧ CACHED_RES o1 = Some r.
Proof.
  unfold store_resultant. destruct (alg_is_zero output); [done|].
  unfold mbind, M_bind, lift, modify, mret, M_ret.
  destruct (from_algebraic (parent o) output) as [r'|e]; [|done].
  destruct (h !! s) as [o0|] eqn:Hs; [|done].
  intros [= <- <-]. exists (set_CACHED_RES r' o0). split; [|done].
  apply list_lookup_insert_eq. by eapply lookup_lt_Some.
Qed.

Lemma diff_resultant_Ok_cached (h h' : store) (s : loc)
    (bound_L : entry) (alg_res : string) (r : Poly) :
  diff_resultant iterative s bound_L alg_res h = (Ok r, h') →
  ∃ o1, h' !! s = Some o1 ∧ CACHED_RES o1 = Some r.
Proof.
  unfold diff_resultant, mbind at 1, M_bind at 1, load.
  destruct (h !! s) as [o|] eqn:Hs; [|done].
  destruct (CACHED_RES o) as [cached|] eqn:Hc.
  - intros [= <- <-]. eauto.
  - destruct (negb _); [done|]. unfold mbind, M_bind.
    destruct (run_algorithm _ _ _ _ _ h) as [[output|e] h1]; [|done].
    apply store_resultant_Ok.
Qed.

(** C4, as the code has it. On a system without a cached resultant,
    [diff_resultant(alg_res="dixon")] raises [NotImplementedError]; nothing
    is computed and nothing is cached. *)
Theorem diff_resultant_dixon (h : store) (s : loc) (o : RWOSystem)
    (bound_L : entry) :
  h !! s = Some o → CACHED_RES o = None →
  diff_resultant iterative s bound_L "dixon" h = (Raise NotImplementedError, h).
Proof.
  intros Hs Hc. unfold diff_resultant, mbind, M_bind, load.
  by rewrite Hs, Hc.
Qed.

(** C6. With [alg_res="auto"], [diff_resultant] runs the Macaulay resultant
    when the system is linear in its variables and the iterative elimination
    otherwise (unless a resultant is cached, in which case it runs nothing);
    the automatic choice is one of these two. *)
Theorem diff_resultant_auto (h : store) (s : loc) (o : RWOSystem)
    (bound_L : entry) :
  h !! s = Some o →
  decide_resultant_algorithm o
  = (if forallb (poly_is_linear (variables o)) (_equations o)
     then "macaulay" else "iterative")%string
  ∧ diff_resultant iterative s bound_L "auto" h
    = match CACHED_RES o with
      | Some cached => (Ok cached, h)
      | None =>
          (output ← (if forallb (poly_is_linear (variables o)) (_equations o)
                     then macaulay s bound_L
                     else iterative s bound_L "auto");
           store_resultant s o output) h
      end.
Proof.
  intros Hs. split; [done|].
  unfold diff_resultant, mbind at 1, M_bind at 1, load. rewrite Hs.
  destruct (CACHED_RES o) as [cached|]; [done|].
  change (bool_decide ("auto"%string ∈ valid_algorithms)) with true.
  change (String.eqb "auto" "auto") with true. cbn [negb]. cbv iota.
  unfold decide_resultant_algorithm, is_linear.
  by destruct (forallb _ _).
Qed.

(** C9. A cached resultant is returned whatever the arguments are; after a
    call that returned, every later call returns the same value and writes
    nothing; an invalid [alg_res], and an invalid bound passed with
    ["macaulay"], raise [ValueError] exactly when no resultant is cached. *)
Theorem diff_resultant_cache (h : store) (s : loc) :
  (∀ o r bound_L alg_res,
     h !! s = Some o → CACHED_RES o = Some r →
     diff_resultant iterative s bound_L alg_res h = (Ok r, h))
  ∧ (∀ bound_L alg_res r h',
       diff_resultant iterative s bound_L alg_res h = (Ok r, h') →
       ∀ bound_L' alg_res',
         diff_resultant iterative s bound_L' alg_res' h' = (Ok r, h'))
  ∧ (∀ o bound_L alg_res,
       h !! s = Some o → alg_res ∉ valid_algorithms →
       (diff_resultant iterative s bound_L alg_res h).1 = Raise ValueError
       ↔ CACHED_RES o = None)
  ∧ (∀ o bound_L,
       h !! s = Some o → bad_entry bound_L = true →
       (diff_resultant iterative s bound_L "macaulay" h).1 = Raise ValueError
       ↔ CACHED_RES o = None).
Proof.
  split; [|split; [|split]].
  - intros o r bound_L alg_res. apply diff_resultant_cached_run.
  - intros bound_L alg_res r h' Hrun bound_L' alg_res'.
    destruct (diff_resultant_Ok_cached _ _ _ _ _ _ Hrun) as (o1 & Hs1 & Hc1).
    by eapply diff_resultant_cached_run.
  - intros o bound_L alg_res Hs Hbad.
    unfold diff_resultant, mbind, M_bind, load. rewrite Hs.
    destruct (CACHED_RES o) as [r|]; [done|].
    rewrite bool_decide_eq_false_2 by done. done.
  - intros o bound_L Hs Hbad.
    unfold diff_resultant, mbind at 1, M_bind at 1, load. rewrite Hs.
    destruct (CACHED_RES o) as [r|]; [done|].
    change (bool_decide ("macaulay"%string ∈ valid_algorithms)) with true.
    change (String.eqb "macaulay" "auto") with false.
    cbv iota. cbn [negb]. unfold mbind, M_bind.
    change (run_algorithm iterative s "macaulay" bound_L "macaulay")
      with (macaulay s bound_L).
    unfold macaulay, get_extension, mbind, M_bind. rewrite Hbad. done.
Qed.

End Properties.

(** * The docstring systems *)

#[global] Instance Zx_laws : OperatorRingLaws Zx.ring.
Proof.
  constructor.
  - intros r. cbn. unfold Zx.pushout_ring. by rewrite bool_decide_eq_true_2.
  - intros p. cbn. unfold Zx.coerce_poly. by rewrite bool_decide_eq_true_2.
  - intros r p q. cbn. unfold Zx.coerce_poly.
    case_bool_decide as Hr; [by intros [= <-]|].
    destruct (forallb _ _); [|done]. by intros [= <-].
  - done.
Qed.

(** The constructor builds the three systems. *)
Lemma init_docstring_systems :
  init DifferentialSystem_class [Zx.eq_u] None None = Ok Zx.sys_u
  ∧ init DifferentialSystem_class [Zx.eq1; Zx.eq2] None (Some ["u"%string])
    = Ok Zx.sys_uv
  ∧ init DifferentialSystem_class [Zx.eq_a; Zx.eq_b] None None = Ok Zx.sys_ab.
Proof. repeat split; vm_compute; reflexivity. Qed.

Lemma store_wf_singleton `{R : OperatorRing} (o : RWOSystem) :
  wf_system o → CACHED_SP1 o = ∅ → store_wf [o].
Proof.
  intros Hwf Hc. apply (store_wf_alloc [] o); [|done|done].
  intros s o' Hs. by rewrite lookup_nil in Hs.
Qed.

Lemma sys_u_wf : wf_system Zx.sys_u.
Proof.
  destruct init_docstring_systems as (H & _). by apply init_wf in H as [? _].
Qed.

Lemma sys_uv_wf : wf_system Zx.sys_uv.
Proof.
  destruct init_docstring_systems as (_ & H & _).
  by apply init_wf in H as [? _].
Qed.

Lemma sys_ab_wf : wf_system Zx.sys_ab.
Proof.
  destruct init_docstring_systems as (_ & _ & H).
  by apply init_wf in H as [? _].
Qed.

Lemma store_u_wf : store_wf [Zx.sys_u].
Proof. apply store_wf_singleton; [apply sys_u_wf|done]. Qed.

Lemma store_uv_wf : store_wf [Zx.sys_uv].
Proof. apply store_wf_singleton; [apply sys_uv_wf|done]. Qed.

(** The examples of the docstring of [extend_by_operation]:
    [extend_by_operation([0])], [([1])] and [([5])] on [{u_1 - u_0}]. *)
Example extend_by_operation_docstring :
  equations_after (extend_by_operation 0%nat (ListOrTuple [InZZ 0])) [Zx.sys_u]
  = Ok [Zx.eq_u]
  ∧ equations_after (extend_by_operation 0%nat (ListOrTuple [InZZ 1])) [Zx.sys_u]
    = Ok [Zx.eq_u; Zx.eq_u_shifted 1]
  ∧ equations_after (extend_by_operation 0%nat (ListOrTuple [InZZ 5])) [Zx.sys_u]
    = Ok (Zx.eq_u_shifted <$> [0; 1; 2; 3; 4; 5]%nat).
Proof. repeat split; vm_compute; reflexivity. Qed.

(** The examples of the docstring of [algebraic_variables]. *)
Example algebraic_variables_docstring :
  algebraic_variables Zx.sys_u = [("u", 0); ("u", 1)]%string%nat
  ∧ algebraic_variables Zx.sys_uv = [("u", 0); ("u", 1); ("u", 2)]%string%nat.
Proof. split; vm_compute; reflexivity. Qed.

Lemma extend_by_operation_sp1_witness :
  store_wf [Zx.sys_u]
  ∧ Forall (fun Li => 0 ≤ Li) [1]
  ∧ length [1] = length (_equations Zx.sys_u)
  ∧ ∃ l o' h',
      extend_by_operation 0%nat (ListOrTuple (InZZ <$> [1])) [Zx.sys_u]
      = (Ok l, h')
      ∧ h' !! l = Some o'
      ∧ traverse (equation Zx.sys_u) (sp1_indices (size Zx.sys_u) [1])
        = Ok (_equations o')
      ∧ size o' = sum_with (fun Li => Li + 1) [1]
      ∧ (CACHED_SP1 Zx.sys_u !! [1] = None → l = length [Zx.sys_u])
      ∧ extend_by_operation 0%nat (ListOrTuple (InZZ <$> [1])) h' = (Ok l, h').
Proof.
  split; [apply store_u_wf|].
  split; [repeat constructor; lia|].
  split; [reflexivity|].
  apply (extend_by_operation_sp1 [Zx.sys_u] 0%nat Zx.sys_u [1]).
  - apply store_u_wf.
  - reflexivity.
  - repeat constructor; lia.
  - reflexivity.
Defined.

(** C2. [is_sp2()] is true exactly when the number [n] of algebraic
    variables and the number [m] of equations satisfy [n = m] for a
    homogeneous system and [n = m - 1] otherwise; on the system
    [{x*u_0 + x^2*u_2 - (1-x)*v_0, v_1 - v_2 + u_1}] with variables [u] it is
    false, and true after [extend_by_operation([1,2])]. *)
Theorem is_sp2_balance_condition :
  (∀ (R : OperatorRing) (o : RWOSystem) (b : bool),
     is_sp2 o = Ok b ↔
     ∃ hom, is_homogeneous o = Ok hom
            ∧ (b = true ↔
               if hom
               then Z.of_nat (length (algebraic_variables o)) = size o
               else Z.of_nat (length (algebraic_variables o)) = size o - 1))
  ∧ is_sp2 Zx.sys_uv = Ok false
  ∧ (sp2_of_extension 0%nat [1; 2] [Zx.sys_uv]).1 = Ok true.
Proof.
  split; [intros R o b; apply is_sp2_balance|].
  split; vm_compute; reflexivity.
Qed.

Lemma get_extension_first_sp2_witness :
  store_wf [Zx.sys_uv] ∧ 0 ≤ 3
  ∧ ∃ pre post,
      gen_cartesian (size Zx.sys_uv) 3 = pre ++ [1; 2] :: post
      ∧ Forall (fun L' => (sp2_of_extension 0%nat L' [Zx.sys_uv]).1 = Ok false)
               pre
      ∧ (sp2_of_extension 0%nat [1; 2] [Zx.sys_uv]).1 = Ok true
      ∧ ∃ h', get_extension 0%nat (InZZ 3) [Zx.sys_uv] = (Ok [1; 2], h')
              ∧ (sp2_of_extension 0%nat [1; 2] h').1 = Ok true.
Proof.
  split; [apply store_uv_wf|]. split; [lia|].
  exists [[0; 0]; [1; 0]; [0; 1]; [2; 0]; [1; 1]; [0; 2]; [2; 1]],
         [[2; 2]].
  assert (gen_cartesian (size Zx.sys_uv) 3
          = [[0; 0]; [1; 0]; [0; 1]; [2; 0]; [1; 1]; [0; 2]; [2; 1]]
            ++ [1; 2] :: [[2; 2]]) as Hcut.
  { vm_compute. reflexivity. }
  assert (Forall (fun L' => (sp2_of_extension 0%nat L' [Zx.sys_uv]).1
                            = Ok false)
            [[0; 0]; [1; 0]; [0; 1]; [2; 0]; [1; 1]; [0; 2]; [2; 1]])
    as Hbefore.
  { repeat constructor; vm_compute; reflexivity. }
  assert ((sp2_of_extension 0%nat [1; 2] [Zx.sys_uv]).1 = Ok true) as Hhere.
  { vm_compute. reflexivity. }
  split; [exact Hcut|]. split; [exact Hbefore|]. split; [exact Hhere|].
  destruct (get_extension_first_sp2 [Zx.sys_uv] 0%nat Zx.sys_uv 3)
    as (_ & _ & _ & _ & _ & Hreturns).
  - apply store_uv_wf.
  - reflexivity.
  - lia.
  - exact (Hreturns _ _ _ Hcut Hbefore Hhere).
Defined.

(** C4 fails once a resultant is cached: after [diff_resultant] has
    returned [x - 1] for [{u_0 - x, u_0 - 1}], the call with
    [alg_res="dixon"] returns [x - 1] too. *)
Lemma diff_resultant_dixon_returns :
  let first := diff_resultant Zx.no_iterative 0%nat (InZZ 10) "macaulay"
                 [Zx.sys_ab] in
  first.1 = Ok Zx.res_ab
  ∧ (diff_resultant Zx.no_iterative 0%nat (InZZ 10) "dixon" first.2).1
    = Ok Zx.res_ab.
Proof. split; vm_compute; reflexivity. Qed.

Lemma diff_resultant_dixon_witness :
  [Zx.sys_ab] !! 0%nat = Some Zx.sys_ab
  ∧ CACHED_RES Zx.sys_ab = None
  ∧ diff_resultant Zx.no_iterative 0%nat (InZZ 10) "dixon" [Zx.sys_ab]
    = (Raise NotImplementedError, [Zx.sys_ab]).
Proof.
  split; [reflexivity|]. split; [reflexivity|].
  apply (diff_resultant_dixon Zx.no_iterative [Zx.sys_ab] 0%nat Zx.sys_ab);
    reflexivity.
Defined.

(** C5. The length of [Ls] is not checked, although the docstring asks for
    a list or tuple of length [self.size()]: on the system [{u_1 - u_0}],
    of size 1, [extend_by_operation([0, 0])] returns a new system, with the
    equation [u_1 - u_0], and [extend_by_operation([])] raises
    [IndexError]. *)
Lemma extend_by_operation_wrong_length :
  size Zx.sys_u = 1
  ∧ (extend_by_operation 0%nat (ListOrTuple [InZZ 0; InZZ 0]) [Zx.sys_u]).1
    = Ok 1%nat
  ∧ equations_after (extend_by_operation 0%nat (ListOrTuple [InZZ 0; InZZ 0]))
      [Zx.sys_u] = Ok [Zx.eq_u]
  ∧ (extend_by_operation 0%nat (ListOrTuple []) [Zx.sys_u]).1
    = Raise IndexError.
Proof.
  split; [reflexivity|].
  split; [vm_compute; reflexivity|].
  split; vm_compute; reflexivity.
Qed.

Lemma diff_resultant_auto_witness :
  [Zx.sys_ab] !! 0%nat = Some Zx.sys_ab
  ∧ decide_resultant_algorithm Zx.sys_ab = "macaulay"%string
  ∧ diff_resultant Zx.no_iterative 0%nat (InZZ 10) "auto" [Zx.sys_ab]
    = (output ← macaulay 0%nat (InZZ 10);
       store_resultant 0%nat Zx.sys_ab output) [Zx.sys_ab].
Proof.
  split; [reflexivity|].
  destruct (diff_resultant_auto Zx.no_iterative [Zx.sys_ab] 0%nat Zx.sys_ab
              (InZZ 10)) as [Hchoice Hrun].
  - reflexivity.
  - split; [exact Hchoice|exact Hrun].
Defined.

Lemma equation_pair_roundtrip_witness :
  - size Zx.sys_uv ≤ 1 < size Zx.sys_uv ∧ 0 ≤ 3
  ∧ equation Zx.sys_uv (Pair 1 0) = equation Zx.sys_uv (Plain 1)
  ∧ (∃ p, equation Zx.sys_uv (Plain 1) = Ok p
          ∧ equation Zx.sys_uv (Pair 1 3)
            = Ok (Nat.iter (Z.to_nat 3) apply_operator p))
  ∧ equation Zx.sys_uv (Plain 2) = Raise IndexError.
Proof.
  assert (- size Zx.sys_uv ≤ 1 < size Zx.sys_uv) as Hi by (vm_compute; split; congruence).
  assert (0 ≤ 3) as Hn by lia.
  split; [exact Hi|]. split; [exact Hn|].
  destruct (equation_pair_roundtrip Zx.sys_uv) as [Hpair Hout].
  destruct (Hpair 1 3 Hi Hn) as [Hzero Hiter].
  split; [exact Hzero|]. split; [exact Hiter|].
  apply Hout. right. vm_compute. congruence.
Defined.

Lemma change_variables_same_system_witness :
  wf_system Zx.sys_uv
  ∧ ∃ o', change_variables 0%nat (VarList (variables Zx.sys_uv)) [Zx.sys_uv]
          = (Ok (length [Zx.sys_uv]), [Zx.sys_uv] ++ [o'])
          ∧ _equations o' = _equations Zx.sys_uv
          ∧ variables o' = variables Zx.sys_uv
          ∧ parameters o' = parameters Zx.sys_uv
          ∧ parent o' = parent Zx.sys_uv.
Proof.
  split; [apply sys_uv_wf|].
  destruct (change_variables_same_system [Zx.sys_uv] 0%nat Zx.sys_uv)
    as [Hsame _].
  - apply sys_uv_wf.
  - reflexivity.
  - exact Hsame.
Defined.

Lemma diff_resultant_cache_witness :
  let first := diff_resultant Zx.no_iterative 0%nat (InZZ 10) "macaulay"
                 [Zx.sys_ab] in
  first = (Ok Zx.res_ab, first.2)
  ∧ ∀ bound_L' alg_res',
      diff_resultant Zx.no_iterative 0%nat bound_L' alg_res' first.2
      = (Ok Zx.res_ab, first.2).
Proof.
  intros first.
  assert (first = (Ok Zx.res_ab, first.2)) as Hrun.
  { rewrite (surjective_pairing first) at 1.
    apply (f_equal (fun r => (r, first.2))). vm_compute; reflexivity. }
  split; [exact Hrun|].
  destruct (diff_resultant_cache Zx.no_iterative [Zx.sys_ab] 0%nat)
    as (_ & Hlater & _).
  exact (Hlater (InZZ 10) "macaulay"%string Zx.res_ab first.2 Hrun).
Defined.

Lemma derived_system_parent_witness :
  store_wf [Zx.sys_uv]
  ∧ ∃ o', (getitem_system 0%nat (Slice None None (Some (-1))) [Zx.sys_uv]).2
          !! 1%nat = Some o'
          ∧ parent o' = parent Zx.sys_uv.
Proof.
  split; [apply store_uv_wf|].
  destruct (derived_system_parent [Zx.sys_uv] 0%nat Zx.sys_uv)
    as (_ & _ & Hgetitem & _).
  - apply store_uv_wf.
  - reflexivity.
  - apply (Hgetitem (Slice None None (Some (-1)))).
    rewrite (surjective_pairing (getitem_system 0%nat _ [Zx.sys_uv])) at 1.
    apply (f_equal (fun r => (r, (getitem_system 0%nat
                                    (Slice None None (Some (-1)))
                                    [Zx.sys_uv]).2))).
    vm_compute; reflexivity.
Defined.

(** * Further properties of the system code *)

Lemma index_of_Some (x : string) (l : list string) (i : nat) :
  index_of x l = Some i → l !! i = Some x.
Proof.
  revert i. induction l as [|y l IH]; intros i; [done|]. simpl.
  destruct (String.eqb x y) eqn:E.
  - apply String.eqb_eq in E as ->. by intros [= <-].
  - destruct (index_of x l) as [j|]; [|done]. intros [= <-]. by apply IH.
Qed.

Lemma index_of_None (x : string) (l : list string) :
  index_of x l = None → x ∉ l.
Proof.
  intros Hnone Hin. destruct (index_of_lookup x l Hin) as (i & Hi & _).
  congruence.
Qed.

Lemma filter_not_elem_of_nil (l l' : list string) :
  (∀ g, g ∈ l' → g ∈ l) → filter (fun el => el ∉ l) l' = [].
Proof.
  induction l' as [|g l' IH]; intros Hsub; [done|].
  rewrite filter_cons. destruct (decide (g ∉ l)) as [Hn|_].
  - exfalso. apply Hn, Hsub. by apply elem_of_cons; left.
  - apply IH. intros g' Hg'. apply Hsub. by apply elem_of_cons; right.
Qed.

Section Constructor.
Context `{R : OperatorRing}.

(** The lookup of the requested names among the generators. *)
Lemma lookup_variables_Ok (gs vs dvars : list string) :
  traverse (fun var =>
              match index_of var gs with
              | None => Raise ValueError
              | Some i => getitem gs (Z.of_nat i)
              end) vs = Ok dvars →
  dvars = vs ∧ Forall (fun g => g ∈ gs) vs.
Proof.
  intros H%traverse_Ok.
  induction H as [|v d vs dvars Hv _ [-> IH]]; [by split|].
  destruct (index_of v gs) as [i|] eqn:Hi; [|done].
  apply index_of_Some in Hi as Hl.
  rewrite (getitem_lookup _ _ _ Hl) in Hv. injection Hv as <-.
  split; [done|]. constructor; [|done]. by eapply list_elem_of_lookup_2.
Qed.


(** X1. A constructed system splits the generators of its parent into its
    variables and its parameters: a generator is a variable or a parameter
    and never both, the variables are the requested ones in the requested
    order, and without a request every generator is a variable. *)
Theorem init_partition c eqs par vars (o : RWOSystem) :
  init c eqs par vars = Ok o →
  (∀ g, g ∈ gens (parent o) ↔ g ∈ variables o ∨ g ∈ parameters o)
  ∧ (∀ g, g ∈ variables o → g ∉ parameters o)
  ∧ (vars = None → variables o = gens (parent o) ∧ parameters o = [])
  ∧ (∀ vs, vars = Some vs → variables o = vs).
Proof.
  unfold init.
  destruct (reduce pushout _) as [pushed|]; simpl; [|done].
  destruct (is_RWOPolynomialRing pushed); simpl; [|done].
  destruct (traverse (coerce pushed) eqs) as [eqs'|]; simpl; [|done].
  destruct (match vars with Some _ => _ | None => _ end)
    as [dvars|] eqn:Hvars; simpl; [|done].
  destruct (class_check c pushed); simpl; [|done].
  intros [= <-]. simpl.
  assert (Forall (fun g => g ∈ gens pushed) dvars) as Hsub.
  { destruct vars as [vs|].
    - by apply lookup_variables_Ok in Hvars as [-> ?].
    - injection Hvars as <-. by apply Forall_forall. }
  rewrite Forall_forall in Hsub.
  split; [|split; [|split]].
  - intros g. rewrite list_elem_of_filter. split.
    + intros Hg. destruct (decide (g ∈ dvars)); [by left|by right].
    + intros [Hg|[_ Hg]]; [by apply Hsub|done].
  - intros g Hg. rewrite list_elem_of_filter. by intros [? _].
  - intros ->. injection Hvars as <-. split; [done|].
    by apply filter_not_elem_of_nil.
  - intros vs ->. by apply lookup_variables_Ok in Hvars as [-> _].
Qed.


End Constructor.

(** ** Slices and indices *)

Lemma py_range_elem (s e st j : Z) :
  st ≠ 0 → j ∈ py_range s e st →
  (0 < st → s ≤ j < e) ∧ (st < 0 → e < j ≤ s).
Proof.
  intros Hst. unfold py_range.
  intros (k & -> & Hk)%list_elem_of_fmap. apply elem_of_seqZ in Hk.
  split; intros Hsign.
  - destruct (0 <? st) eqn:E; [|lia].
    pose proof (Z.mul_div_le (e - s + st - 1) st Hsign). nia.
  - destruct (0 <? st) eqn:E; [lia|].
    assert (0 < - st) as Hneg by lia.
    pose proof (Z.mul_div_le (s - e - st - 1) (- st) Hneg). nia.
Qed.

Lemma slice_indices_Ok (a b c : option Z) (len s e st : Z) :
  0 ≤ len → slice_indices a b c len = Ok (s, e, st) →
  st ≠ 0
  ∧ (0 < st → 0 ≤ s ≤ len ∧ 0 ≤ e ≤ len)
  ∧ (st < 0 → -1 ≤ s ≤ len - 1 ∧ -1 ≤ e ≤ len - 1).
Proof.
  intros Hlen. unfold slice_indices.
  destruct (default 1 c =? 0) eqn:E0; [done|].
  intros [= <- <- <-]. split; [lia|].
  destruct (default 1 c <? 0) eqn:Eneg;
    (split; intros Hsign; [try lia|try lia]);
    destruct a as [v|], b as [w|];
    repeat match goal with
           | |- context [if ?x <? 0 then _ else _] => destruct (x <? 0) eqn:?
           end; lia.
Qed.

Lemma slice_indices_Raise (a b c : option Z) (len : Z) e :
  slice_indices a b c len = Raise e → c = Some 0 ∧ e = ValueError.
Proof.
  unfold slice_indices. destruct (default 1 c =? 0) eqn:E0; [|done].
  intros [= <-]. split; [|done].
  destruct c as [st|]; simpl in E0; [|done]. f_equal. lia.
Qed.

Lemma py_range_full (n : Z) : py_range 0 n 1 = seqZ 0 n.
Proof.
  unfold py_range. cbn [Z.ltb Z.compare].
  replace (n - 0 + 1 - 1) with n by lia. rewrite Z.div_1_r.
  rewrite <- (list_fmap_id (seqZ 0 n)) at 2. apply list_fmap_ext.
  intros _ k _. simpl. lia.
Qed.

Lemma py_range_reversed (n : Z) :
  py_range (n - 1) (-1) (-1) = reverse (seqZ 0 n).
Proof.
  unfold py_range. cbn [Z.ltb Z.compare].
  replace (n - 1 - -1 - -1 - 1) with n by lia.
  change (- -1) with 1. rewrite Z.div_1_r.
  apply list_eq. intros i. rewrite list_lookup_fmap.
  destruct (decide (Z.of_nat i < n)) as [Hi|Hi].
  - rewrite lookup_seqZ_lt by done. simpl.
    rewrite reverse_lookup by (rewrite length_seqZ; lia).
    rewrite length_seqZ. rewrite lookup_seqZ_lt by lia. f_equal. lia.
  - rewrite lookup_seqZ_ge by lia. simpl. symmetry.
    apply lookup_ge_None_2. rewrite length_reverse, length_seqZ. lia.
Qed.

Lemma traverse_getitem_all {A} (t : list A) :
  traverse (getitem t) (seqZ 0 (Z.of_nat (length t))) = Ok t.
Proof.
  apply traverse_Ok, Forall2_same_length_lookup_2.
  - rewrite length_seqZ. lia.
  - intros i j x Hj Hx. apply lookup_seqZ in Hj as [-> _].
    rewrite Z.add_0_l. by apply getitem_lookup.
Qed.

Lemma traverse_reverse {A B} (f : A → result B) l l' :
  traverse f l = Ok l' → traverse f (reverse l) = Ok (reverse l').
Proof. rewrite !traverse_Ok. apply Forall2_reverse. Qed.

Section Slices.
Context `{R : OperatorRing}.

Lemma traverse_equation_plain (o : RWOSystem) (js : list Z) :
  traverse (equation o) (Plain <$> js) = traverse (getitem (_equations o)) js.
Proof. by rewrite traverse_fmap. Qed.

Lemma traverse_getitem_in_range {A} (t : list A) (js : list Z) :
  Forall (fun j => - Z.of_nat (length t) ≤ j < Z.of_nat (length t)) js →
  ∃ l, traverse (getitem t) js = Ok l ∧ Forall (fun x => x ∈ t) l.
Proof.
  induction 1 as [|j js Hj _ (l & Hl & Hall)]; [by exists []|].
  destruct (getitem_in_range t j Hj) as [x Hx].
  exists (x :: l). simpl. rewrite Hx, Hl. split; [done|].
  constructor; [by eapply getitem_elem_of|done].
Qed.

(** X3. A slice never raises an index error: with a step other than [0],
    [equations(slice)] returns equations of the system, whatever the start
    and the stop are; with the step [0] it raises [ValueError]. *)
Theorem equations_slice_total (o : RWOSystem) (start stop step : option Z) :
  (step ≠ Some 0 →
   ∃ l, equations o (Slice start stop step) = Ok l
        ∧ Forall (fun p => p ∈ _equations o) l)
  ∧ equations o (Slice start stop (Some 0)) = Raise ValueError.
Proof.
  split; [|done]. intros Hstep. cbn [equations].
  destruct (slice_indices start stop step (size o)) as [[[s e] st]|err] eqn:Hs.
  - simpl. rewrite traverse_equation_plain.
    apply traverse_getitem_in_range, Forall_forall. intros j Hj.
    apply slice_indices_Ok in Hs as (Hst & Hpos & Hneg); [|unfold size; lia].
    apply py_range_elem in Hj as [Hjpos Hjneg]; [|done].
    unfold size in *. destruct (decide (0 < st)); lia.
  - by apply slice_indices_Raise in Hs as [-> _].
Qed.

(** The slice [[:]] selects all the equations in their order and the
    slice [[::-1]] selects them in the reverse order. *)
Lemma equations_slice_all_reversed (o : RWOSystem) :
  equations o (Slice None None None) = Ok (_equations o)
  ∧ equations o (Slice None None (Some (-1))) = Ok (reverse (_equations o)).
Proof.
  split; cbn [equations]; unfold slice_indices; simpl;
    rewrite traverse_equation_plain.
  - rewrite py_range_full. apply traverse_getitem_all.
  - rewrite py_range_reversed. apply traverse_reverse, traverse_getitem_all.
Qed.

(** X4. Indices count from the end when they are negative: for
    [0 <= i < size()], [equation(i - size())] is [equation(i)], also in a
    pair [(i - size(), k)]. *)
Theorem equation_negative_index (o : RWOSystem) (i k : Z) :
  0 ≤ i < size o →
  equation o (Plain (i - size o)) = equation o (Plain i)
  ∧ equation o (Pair (i - size o) k) = equation o (Pair i k).
Proof.
  intros Hi. unfold size in *.
  assert (getitem (_equations o) (i - Z.of_nat (length (_equations o)))
          = getitem (_equations o) i) as Heq.
  { unfold getitem.
    destruct (i - _ <? 0) eqn:E1; [|lia].
    destruct (i <? 0) eqn:E2; [lia|].
    by replace (i - Z.of_nat (length (_equations o))
                + Z.of_nat (length (_equations o))) with i by lia. }
  split; cbn [equation]; by rewrite Heq.
Qed.

End Slices.

Lemma init_partition_witness :
  init DifferentialSystem_class [Zx.eq1; Zx.eq2] None (Some ["u"%string])
  = Ok Zx.sys_uv
  ∧ (∀ g, g ∈ gens (parent Zx.sys_uv)
          ↔ g ∈ variables Zx.sys_uv ∨ g ∈ parameters Zx.sys_uv)
  ∧ (∀ g, g ∈ variables Zx.sys_uv → g ∉ parameters Zx.sys_uv).
Proof.
  split; [apply init_docstring_systems|].
  destruct (init_partition (R := Zx.ring) DifferentialSystem_class [Zx.eq1; Zx.eq2] None
              (Some ["u"%string]) Zx.sys_uv) as (H1 & H2 & _).
  - apply init_docstring_systems.
  - by split.
Defined.


Lemma equations_slice_total_witness :
  Some 2 ≠ Some 0
  ∧ ∃ l, equations Zx.sys_uv (Slice (Some (-7)) (Some 9) (Some 2)) = Ok l
         ∧ Forall (fun p => p ∈ _equations Zx.sys_uv) l.
Proof.
  split; [done|].
  by apply (equations_slice_total Zx.sys_uv (Some (-7)) (Some 9) (Some 2)).
Defined.

Lemma equation_negative_index_witness :
  0 ≤ 1 < size Zx.sys_uv
  ∧ equation Zx.sys_uv (Plain (1 - size Zx.sys_uv)) = equation Zx.sys_uv (Plain 1)
  ∧ equation Zx.sys_uv (Pair (1 - size Zx.sys_uv) 2)
    = equation Zx.sys_uv (Pair 1 2).
Proof.
  assert (0 ≤ 1 < size Zx.sys_uv) as H by (unfold size; simpl; lia).
  split; [exact H|]. exact (equation_negative_index Zx.sys_uv 1 2 H).
Defined.

(** ** Derived systems *)

Section Derived.
Context `{R : OperatorRing} `{!OperatorRingLaws R}.

(** A derived system whose equations and variables are those of a
    well-formed receiver's ring is allocated with exactly these attributes. *)
Lemma subsystem_run (h : store) (s : loc) (o : RWOSystem) ind vs eqs :
  wf_system o → h !! s = Some o →
  equations o ind = Ok eqs → Forall (fun g => g ∈ gens (parent o)) vs →
  subsystem s ind (Some vs) h
  = (Ok (length h),
     h ++ [{| class_of := class_of o; parent := parent o; _equations := eqs;
              variables := vs;
              parameters := filter (fun el => el ∉ vs) (gens (parent o));
              CACHED_SP1 := ∅; CACHED_RES := None |}]).
Proof.
  intros Hwf Hs Heqs Hvs.
  unfold subsystem, new, lift, mbind, M_bind, load, alloc.
  rewrite Hs, Heqs.
  by rewrite (init_derived (class_of o) eqs (parent o) vs
                (wf_ring _ Hwf) (wf_class _ Hwf)
                (equations_parent _ _ _ Hwf Heqs) Hvs).
Qed.

Lemma getitem_system_subsystem (s : loc) ind (h : store) :
  getitem_system s ind h = subsystem s ind None h.
Proof. done. Qed.

Lemma subsystem_default_variables (h : store) (s : loc) (o : RWOSystem) ind :
  h !! s = Some o →
  subsystem s ind None h = subsystem s ind (Some (variables o)) h.
Proof.
  intros Hs. unfold subsystem, mbind at 1 3, M_bind at 1 3, load.
  by rewrite Hs.
Qed.

(** X5. Reversing a system twice with [system[::-1][::-1]] gives a system
    with the class, the parent, the equations, the variables and the
    parameters of the first one; both are new objects. *)
Theorem getitem_system_reversed_twice (h : store) (s : loc) (o : RWOSystem) :
  wf_system o → h !! s = Some o →
  let rev := Slice None None (Some (-1)) in
  ∃ o1 o2,
    getitem_system s rev h = (Ok (length h), h ++ [o1])
    ∧ _equations o1 = reverse (_equations o)
    ∧ getitem_system (length h) rev (h ++ [o1])
      = (Ok (S (length h)), h ++ [o1; o2])
    ∧ same_system o o2.
Proof.
  intros Hwf Hs rev.
  destruct (equations_slice_all_reversed o) as [_ Hrev].
  pose proof (subsystem_run h s o rev (variables o) _ Hwf Hs Hrev
                (wf_variables _ Hwf)) as Hrun1.
  rewrite <- subsystem_default_variables, <- getitem_system_subsystem
    in Hrun1 by done.
  set (o1 := {| class_of := class_of o; parent := parent o;
                _equations := reverse (_equations o) |}) in Hrun1.
  assert (wf_system o1) as Hwf1.
  { constructor; try apply Hwf; simpl; [|done].
    apply Forall_reverse, Hwf. }
  assert ((h ++ [o1]) !! length h = Some o1) as Hs1
    by by rewrite list_lookup_middle.
  destruct (equations_slice_all_reversed o1) as [_ Hrev1].
  pose proof (subsystem_run _ _ o1 rev (variables o1) _ Hwf1 Hs1 Hrev1
                (wf_variables _ Hwf1)) as Hrun2.
  rewrite <- subsystem_default_variables, <- getitem_system_subsystem
    in Hrun2 by done.
  eexists o1, _. split; [exact Hrun1|]. split; [done|]. split.
  - rewrite Hrun2. rewrite length_app, <- app_assoc. simpl.
    by rewrite Nat.add_1_r.
  - repeat split; simpl; try done.
    + by rewrite reverse_involutive.
    + apply (wf_parameters _ Hwf).
Qed.

(** X6. [change_variables(vs)] with generators [vs] of the parent builds a
    system with the same equations whose variables are [vs] and whose
    parameters are the other generators; changing back to the variables of
    the receiver gives a system with all the attributes of the receiver. A
    single variable is taken as the list of that variable. *)
Theorem change_variables_roundtrip (h : store) (s : loc) (o : RWOSystem) vs :
  wf_system o → h !! s = Some o →
  Forall (fun g => g ∈ gens (parent o)) vs →
  (∃ o1 o2,
     change_variables s (VarList vs) h = (Ok (length h), h ++ [o1])
     ∧ _equations o1 = _equations o
     ∧ variables o1 = vs
     ∧ (∀ g, g ∈ parameters o1 ↔ g ∈ gens (parent o) ∧ g ∉ vs)
     ∧ change_variables (length h) (VarList (variables o)) (h ++ [o1])
       = (Ok (S (length h)), h ++ [o1; o2])
     ∧ same_system o o2)
  ∧ (∀ v h0, change_variables s (OneVar v) h0
             = change_variables s (VarList [v]) h0).
Proof.
  intros Hwf Hs Hvs. split; [|done].
  pose proof (subsystem_run h s o NoIndices vs _ Hwf Hs eq_refl Hvs) as Hrun1.
  set (o1 := {| class_of := class_of o; parent := parent o;
                _equations := _equations o; variables := vs |}) in Hrun1.
  assert (wf_system o1) as Hwf1.
  { constructor; try apply Hwf; simpl; done. }
  assert ((h ++ [o1]) !! length h = Some o1) as Hs1
    by by rewrite list_lookup_middle.
  pose proof (subsystem_run _ _ o1 NoIndices (variables o) _ Hwf1 Hs1 eq_refl
                (wf_variables _ Hwf)) as Hrun2.
  eexists o1, _. split; [exact Hrun1|]. split; [done|]. split; [done|]. split.
  { intros g. simpl. rewrite list_elem_of_filter. tauto. }
  split.
  - unfold change_variables. rewrite Hrun2.
    rewrite length_app, <- app_assoc. simpl. by rewrite Nat.add_1_r.
  - repeat split; simpl; try done. apply (wf_parameters _ Hwf).
Qed.

(** X7. A derived system that cannot be built leaves no trace: when
    [subsystem], [change_variables], [__getitem__] or
    [extend_by_operation] raises, no object has been created and no cache
    has been written. *)
Theorem derived_failure_no_write (h h' : store) (s : loc) (e : exn) :
  (∀ ind vars, subsystem s ind vars h = (Raise e, h') → h' = h)
  ∧ (∀ vars, change_variables s vars h = (Raise e, h') → h' = h)
  ∧ (∀ ind, getitem_system s ind h = (Raise e, h') → h' = h)
  ∧ (∀ Ls, extend_by_operation s Ls h = (Raise e, h') → h' = h).
Proof.
  assert (∀ ind vars, subsystem s ind vars h = (Raise e, h') → h' = h)
    as Hsub.
  { intros ind vars.
    unfold subsystem, new, lift, mbind, M_bind, load, alloc.
    destruct (h !! s) as [o|]; [|by intros [= _ <-]].
    destruct (equations o ind) as [eqs|]; [|by intros [= _ <-]].
    destruct (init _ _ _ _); [done|by intros [= _ <-]]. }
  split; [exact Hsub|]. split; [|split].
  - intros vars. apply Hsub.
  - intros ind. rewrite getitem_system_subsystem. apply Hsub.
  - intros [els|]; [|by intros [= _ <-]]. unfold extend_by_operation.
    destruct (existsb bad_entry els); [by intros [= _ <-]|].
    unfold new, lift, mbind, M_bind, load, alloc, modify, mret, M_ret.
    destruct (h !! s) as [o|] eqn:Hs; [|by intros [= _ <-]].
    destruct (CACHED_SP1 o !! _); [done|].
    destruct (extended_equations_entries o _); [|by intros [= _ <-]].
    destruct (init _ _ _ _); [|by intros [= _ <-]].
    cbv beta iota.
    rewrite lookup_app_l, Hs by (by eapply lookup_lt_Some). done.
Qed.

End Derived.

Lemma getitem_system_reversed_twice_witness :
  wf_system Zx.sys_uv
  ∧ ∃ o1 o2,
      getitem_system 0%nat (Slice None None (Some (-1))) [Zx.sys_uv]
      = (Ok 1%nat, [Zx.sys_uv] ++ [o1])
      ∧ _equations o1 = reverse (_equations Zx.sys_uv)
      ∧ getitem_system 1%nat (Slice None None (Some (-1))) ([Zx.sys_uv] ++ [o1])
        = (Ok 2%nat, [Zx.sys_uv] ++ [o1; o2])
      ∧ same_system Zx.sys_uv o2.
Proof.
  split; [apply sys_uv_wf|].
  apply (getitem_system_reversed_twice [Zx.sys_uv] 0%nat Zx.sys_uv).
  - apply sys_uv_wf.
  - reflexivity.
Defined.

Lemma change_variables_roundtrip_witness :
  wf_system Zx.sys_uv
  ∧ Forall (fun g => g ∈ gens (parent Zx.sys_uv)) ["v"%string]
  ∧ ∃ o1 o2,
      change_variables 0%nat (VarList ["v"%string]) [Zx.sys_uv]
      = (Ok 1%nat, [Zx.sys_uv] ++ [o1])
      ∧ _equations o1 = _equations Zx.sys_uv
      ∧ variables o1 = ["v"%string]
      ∧ (∀ g, g ∈ parameters o1
              ↔ g ∈ gens (parent Zx.sys_uv) ∧ g ∉ ["v"%string])
      ∧ change_variables 1%nat (VarList (variables Zx.sys_uv))
          ([Zx.sys_uv] ++ [o1])
        = (Ok 2%nat, [Zx.sys_uv] ++ [o1; o2])
      ∧ same_system Zx.sys_uv o2.
Proof.
  assert (Forall (fun g => g ∈ gens (parent Zx.sys_uv)) ["v"%string]) as Hv.
  { constructor; [|constructor].
    apply list_elem_of_lookup_2 with 1%nat. reflexivity. }
  split; [apply sys_uv_wf|]. split; [exact Hv|].
  apply (change_variables_roundtrip [Zx.sys_uv] 0%nat Zx.sys_uv ["v"%string]).
  - apply sys_uv_wf.
  - reflexivity.
  - exact Hv.
Defined.

Lemma derived_failure_no_write_witness :
  (subsystem 0%nat (Scalar 5) None [Zx.sys_u]).1 = Raise IndexError
  ∧ (subsystem 0%nat (Scalar 5) None [Zx.sys_u]).2 = [Zx.sys_u].
Proof.
  assert ((subsystem 0%nat (Scalar 5) None [Zx.sys_u]).1 = Raise IndexError)
    as Hfail by (vm_compute; reflexivity).
  split; [exact Hfail|].
  destruct (derived_failure_no_write [Zx.sys_u]
              (subsystem 0%nat (Scalar 5) None [Zx.sys_u]).2 0%nat IndexError)
    as (Hsub & _).
  apply (Hsub (Scalar 5) None).
  rewrite (surjective_pairing (subsystem 0%nat (Scalar 5) None [Zx.sys_u]))
    at 1.
  by rewrite Hfail.
Defined.

(** ** What the operations leave as it is *)

Section Frame.
Context `{R : OperatorRing}.

Lemma store_ext_refl (h : store) : store_ext h h.
Proof.
  intros l o Hl. exists o. split; [done|]. split; [apply same_system_refl|].
  done.
Qed.

Lemma store_ext_trans (h1 h2 h3 : store) :
  store_ext h1 h2 → store_ext h2 h3 → store_ext h1 h3.
Proof.
  intros H12 H23 l o Hl.
  destruct (H12 _ _ Hl) as (o2 & Hl2 & Hsame2 & Hres2 & Hsp2).
  destruct (H23 _ _ Hl2) as (o3 & Hl3 & Hsame3 & Hres3 & Hsp3).
  exists o3. split; [done|]. split; [by eapply same_system_trans|].
  split; [congruence|]. by etrans.
Qed.

Lemma store_ext_alloc (h : store) (o' : RWOSystem) : store_ext h (h ++ [o']).
Proof.
  intros l o Hl. exists o. rewrite lookup_app_l by (by eapply lookup_lt_Some).
  split; [done|]. split; [apply same_system_refl|done].
Qed.

Lemma store_ext_insert (h : store) (s : loc) (o o1 : RWOSystem) :
  h !! s = Some o → same_system o o1 → CACHED_RES o1 = CACHED_RES o →
  CACHED_SP1 o ⊆ CACHED_SP1 o1 → store_ext h (<[s := o1]> h).
Proof.
  intros Hs Hsame Hres Hsp l o0 Hl. destruct (decide (l = s)) as [->|Hne].
  - exists o1. rewrite list_lookup_insert_eq by (by eapply lookup_lt_Some).
    assert (o0 = o) as -> by congruence. done.
  - exists o0. rewrite list_lookup_insert_ne by done.
    split; [done|]. split; [apply same_system_refl|done].
Qed.

Lemma store_ext_le (h h' : store) : store_ext h h' → store_le h h'.
Proof.
  intros Hext l o Hl. destruct (Hext _ _ Hl) as (o' & ? & ? & _). eauto.
Qed.

(** The two ways [extend_by_operation] returns. *)
Lemma extend_by_operation_Ok (h h' : store) (s l : loc) (els : list entry) :
  extend_by_operation s (ListOrTuple els) h = (Ok l, h') →
  existsb bad_entry els = false
  ∧ ∃ o, h !! s = Some o
    ∧ ((CACHED_SP1 o !! (entry_value <$> els) = Some l ∧ h' = h)
       ∨ (CACHED_SP1 o !! (entry_value <$> els) = None
          ∧ l = length h
          ∧ ∃ eqs o',
              extended_equations o (entry_value <$> els) = Ok eqs
              ∧ init (class_of o) eqs (Some (parent o)) (Some (variables o))
                = Ok o'
              ∧ h' = <[s := {| class_of := class_of o;
                               parent := parent o;
                               _equations := _equations o;
                               variables := variables o;
                               parameters := parameters o;
                               CACHED_SP1 :=
                                 <[entry_value <$> els := length h]>
                                   (CACHED_SP1 o);
                               CACHED_RES := CACHED_RES o |}]> (h ++ [o']))).
Proof.
  unfold extend_by_operation.
  destruct (existsb bad_entry els); [done|].
  unfold new, lift, mbind, M_bind, load, alloc, modify, mret, M_ret.
  destruct (h !! s) as [o|] eqn:Hs; [|done].
  intros Hrun. split; [done|]. exists o. split; [done|].
  destruct (CACHED_SP1 o !! _) as [cached|] eqn:Hc.
  - injection Hrun as <- <-. by left.
  - right. split; [done|].
    destruct (extended_equations_entries o _) as [eqs|] eqn:Heqs; [|done].
    apply extended_equations_entries_Ok in Heqs.
    destruct (init _ _ _ _) as [o'|] eqn:Hinit; [|done].
    cbv beta iota in Hrun.
    rewrite lookup_app_l, Hs in Hrun by (by eapply lookup_lt_Some).
    injection Hrun as <- <-. split; [done|]. by exists eqs, o'.
Qed.

(** A cached extension is found again in every later store. *)
Lemma extend_by_operation_hit (h : store) (s l : loc) (o : RWOSystem) els :
  existsb bad_entry els = false → h !! s = Some o →
  CACHED_SP1 o !! (entry_value <$> els) = Some l →
  extend_by_operation s (ListOrTuple els) h = (Ok l, h).
Proof.
  intros Hok Hs Hc. unfold extend_by_operation. rewrite Hok.
  unfold mbind, M_bind, load. by rewrite Hs, Hc.
Qed.

Lemma extend_by_operation_ext (h h' : store) (s l : loc) Ls :
  extend_by_operation s Ls h = (Ok l, h') → store_ext h h'.
Proof.
  destruct Ls as [els|]; [|done].
  intros (_ & o & Hs & [[_ ->]|(Hc & -> & eqs & o' & _ & _ & ->)])
    %extend_by_operation_Ok; [apply store_ext_refl|].
  eapply store_ext_trans; [apply store_ext_alloc|].
  apply (store_ext_insert _ s o).
  - rewrite lookup_app_l by (by eapply lookup_lt_Some). done.
  - by repeat split.
  - done.
  - simpl. by apply insert_subseteq.
Qed.

Lemma extend_by_operation_entry (h h' : store) (s l : loc) els :
  extend_by_operation s (ListOrTuple els) h = (Ok l, h') →
  ∃ o1, h' !! s = Some o1
        ∧ CACHED_SP1 o1 !! (entry_value <$> els) = Some l.
Proof.
  intros (_ & o & Hs & [[Hc ->]|(Hc & -> & eqs & o' & _ & _ & ->)])
    %extend_by_operation_Ok; [by exists o|].
  eexists. rewrite list_lookup_insert_eq
    by (rewrite length_app; apply lookup_lt_Some in Hs; lia).
  split; [done|]. simpl. by rewrite lookup_insert_eq.
Qed.

(** X8. [extend_by_operation] changes nothing but the extension cache of
    its receiver: every object keeps its attributes and its cached
    resultant, no cached extension is dropped or replaced, at most one
    object is created and the objects other than the receiver are left as
    they are. *)
Theorem extend_by_operation_frame (h h' : store) (s l : loc) Ls :
  extend_by_operation s Ls h = (Ok l, h') →
  store_ext h h'
  ∧ (length h ≤ length h' ≤ S (length h))%nat
  ∧ (∀ k o, k ≠ s → h !! k = Some o → h' !! k = Some o).
Proof.
  intros Hrun. split; [by eapply extend_by_operation_ext|].
  destruct Ls as [els|]; [|done].
  apply extend_by_operation_Ok in Hrun
    as (_ & o & Hs & [[_ ->]|(Hc & -> & eqs & o' & _ & _ & ->)]).
  - split; [lia|]. done.
  - rewrite length_insert, length_app. simpl. split; [lia|].
    intros k o0 Hk Hl. rewrite list_lookup_insert_ne by done.
    rewrite lookup_app_l by (by eapply lookup_lt_Some). done.
Qed.

(** X9. A system built by [subsystem], [change_variables] or
    [__getitem__] is always a new object, also when it selects everything,
    and it starts with empty caches: it inherits neither the extensions nor
    the resultant computed for its receiver, and the older objects are left
    as they are. *)
Theorem derived_system_fresh (h h' : store) (s l : loc) :
  (∀ ind vars, subsystem s ind vars h = (Ok l, h') →
     l = length h
     ∧ ∃ o', h' = h ++ [o'] ∧ CACHED_SP1 o' = ∅ ∧ CACHED_RES o' = None)
  ∧ (∀ vars, change_variables s vars h = (Ok l, h') →
       l = length h
       ∧ ∃ o', h' = h ++ [o'] ∧ CACHED_SP1 o' = ∅ ∧ CACHED_RES o' = None)
  ∧ (∀ ind, getitem_system s ind h = (Ok l, h') →
       l = length h
       ∧ ∃ o', h' = h ++ [o'] ∧ CACHED_SP1 o' = ∅ ∧ CACHED_RES o' = None).
Proof.
  assert (∀ ind vars, subsystem s ind vars h = (Ok l, h') →
     l = length h
     ∧ ∃ o', h' = h ++ [o'] ∧ CACHED_SP1 o' = ∅ ∧ CACHED_RES o' = None)
    as Hsub.
  { intros ind vars.
    unfold subsystem, new, lift, mbind, M_bind, load, alloc.
    destruct (h !! s) as [o|]; [|done].
    destruct (equations o ind) as [eqs|]; [|done].
    destruct (init _ _ _ _) as [o'|] eqn:Hinit; [|done].
    intros [= <- <-]. split; [done|]. exists o'. split; [done|].
    unfold init in Hinit.
    destruct (reduce pushout _) as [pushed|]; simpl in Hinit; [|done].
    destruct (is_RWOPolynomialRing pushed); simpl in Hinit; [|done].
    destruct (traverse (coerce pushed) eqs); simpl in Hinit; [|done].
    destruct (traverse _ _); simpl in Hinit; [|done].
    destruct (class_check _ pushed); simpl in Hinit; [|done].
    by injection Hinit as <-. }
  split; [exact Hsub|]. split.
  - intros vars. apply Hsub.
  - intros ind. apply (Hsub ind None).
Qed.

(** X10. The extension cache is kept per tuple and survives later
    extensions: after [extend_by_operation(Ls1)] and then
    [extend_by_operation(Ls2)], a new call with [Ls1] returns the object of
    the first call and writes nothing. *)
Theorem extend_by_operation_memo (h h1 h2 : store) (s l1 l2 : loc) els1 Ls2 :
  extend_by_operation s (ListOrTuple els1) h = (Ok l1, h1) →
  extend_by_operation s Ls2 h1 = (Ok l2, h2) →
  extend_by_operation s (ListOrTuple els1) h2 = (Ok l1, h2).
Proof.
  intros Hrun1 Hrun2.
  pose proof (extend_by_operation_Ok _ _ _ _ _ Hrun1) as [Hok _].
  destruct (extend_by_operation_entry _ _ _ _ _ Hrun1) as (o1 & Hs1 & Hc1).
  destruct (extend_by_operation_ext _ _ _ _ _ Hrun2 _ _ Hs1)
    as (o2 & Hs2 & _ & _ & Hsub).
  apply (extend_by_operation_hit _ _ _ o2); [done|done|].
  by eapply lookup_weaken.
Qed.

End Frame.

Lemma extend_by_operation_frame_witness :
  let run := extend_by_operation 0%nat (ListOrTuple [InZZ 1]) [Zx.sys_u] in
  run.1 = Ok 1%nat
  ∧ store_ext [Zx.sys_u] run.2
  ∧ (length [Zx.sys_u] ≤ length run.2 ≤ S (length [Zx.sys_u]))%nat.
Proof.
  intros run.
  assert (run.1 = Ok 1%nat) as Hrun by (vm_compute; reflexivity).
  split; [exact Hrun|].
  destruct (extend_by_operation_frame [Zx.sys_u] run.2 0%nat 1%nat
              (ListOrTuple [InZZ 1])) as (Hext & Hlen & _).
  - rewrite <- Hrun. apply surjective_pairing.
  - by split.
Defined.

Lemma derived_system_fresh_witness :
  let run := getitem_system 0%nat (Slice None None None) [Zx.sys_uv] in
  run.1 = Ok 1%nat
  ∧ ∃ o', run.2 = [Zx.sys_uv] ++ [o']
          ∧ CACHED_SP1 o' = ∅ ∧ CACHED_RES o' = None.
Proof.
  intros run.
  assert (run.1 = Ok 1%nat) as Hrun by (vm_compute; reflexivity).
  split; [exact Hrun|].
  destruct (derived_system_fresh [Zx.sys_uv] run.2 0%nat 1%nat)
    as (_ & _ & Hget).
  apply (Hget (Slice None None None)).
  rewrite <- Hrun. apply surjective_pairing.
Defined.

Lemma extend_by_operation_memo_witness :
  let run1 := extend_by_operation 0%nat (ListOrTuple [InZZ 1]) [Zx.sys_u] in
  let run2 := extend_by_operation 0%nat (ListOrTuple [InZZ 2]) run1.2 in
  run1.1 = Ok 1%nat ∧ run2.1 = Ok 2%nat
  ∧ extend_by_operation 0%nat (ListOrTuple [InZZ 1]) run2.2
    = (Ok 1%nat, run2.2).
Proof.
  intros run1 run2.
  assert (run1.1 = Ok 1%nat) as Hrun1 by (vm_compute; reflexivity).
  assert (run2.1 = Ok 2%nat) as Hrun2 by (vm_compute; reflexivity).
  split; [exact Hrun1|]. split; [exact Hrun2|].
  apply (extend_by_operation_memo [Zx.sys_u] run1.2 run2.2 0%nat 1%nat 2%nat
           [InZZ 1] (ListOrTuple [InZZ 2])).
  - rewrite <- Hrun1. apply surjective_pairing.
  - rewrite <- Hrun2. apply surjective_pairing.
Defined.

(** ** Extensions compared *)

Section Extensions.
Context `{R : OperatorRing} `{!OperatorRingLaws R}.

Lemma sp1_block_cons (p : Poly) (Li : Z) :
  0 ≤ Li → ∃ rest, sp1_block p Li = p :: rest.
Proof.
  intros HLi. unfold sp1_block.
  replace (Li + 1) with (Z.succ Li) by lia.
  rewrite seqZ_cons by lia. rewrite fmap_cons. eauto.
Qed.

Lemma sp1_block_zero (p : Poly) : sp1_block p 0 = [p].
Proof. done. Qed.

Lemma sp1_equations_zeros (eqs : list Poly) :
  sp1_equations eqs (replicate (length eqs) 0) = eqs.
Proof.
  unfold sp1_equations. induction eqs as [|p eqs IH]; [done|].
  simpl. by rewrite IH.
Qed.

Lemma sp1_block_prefix (p : Poly) (a b : Z) :
  0 ≤ a ≤ b → sp1_block p a `prefix_of` sp1_block p b.
Proof.
  intros Hab. unfold sp1_block.
  replace (b + 1) with ((a + 1) + (b - a)) by lia.
  rewrite (seqZ_app 0 (a + 1) (b - a)) by lia. rewrite fmap_app. by eexists.
Qed.

Lemma sp1_equations_sublist (eqs : list Poly) (Ls Ls' : list Z) :
  Forall2 (fun a b => 0 ≤ a ≤ b) Ls Ls' →
  sp1_equations eqs Ls `sublist_of` sp1_equations eqs Ls'.
Proof.
  unfold sp1_equations. intros Hle. revert eqs.
  induction Hle as [|a b Ls Ls' Hab _ IH]; intros [|p eqs]; try done.
  simpl. apply sublist_app; [|apply IH].
  destruct (sp1_block_prefix p a b Hab) as [k ->].
  by apply sublist_inserts_r.
Qed.

Lemma sp1_equations_original (eqs : list Poly) (Ls : list Z) :
  Forall (fun a => 0 ≤ a) Ls → (length eqs ≤ length Ls)%nat →
  eqs `sublist_of` sp1_equations eqs Ls.
Proof.
  unfold sp1_equations. intros Hpos. revert eqs.
  induction Hpos as [|a Ls Ha _ IH]; intros [|p eqs] Hlen; simpl in *;
    try done; try lia.
  destruct (sp1_block_cons p a Ha) as [rest ->]. simpl.
  apply sublist_skip. etrans; [apply IH; lia|]. apply sublist_inserts_l.
  done.
Qed.

(** X11. The extension by the zero tuple is a copy of the system: a new
    object, not the receiver, with the class, the parent, the equations, the
    variables and the parameters of the receiver. *)
Theorem extend_by_operation_zeros (h : store) (s : loc) (o : RWOSystem) :
  store_wf h → h !! s = Some o →
  let zeros := replicate (length (_equations o)) 0 in
  CACHED_SP1 o !! zeros = None →
  ∃ o' h',
    extend_by_operation s (ListOrTuple (InZZ <$> zeros)) h
    = (Ok (length h), h')
    ∧ length h ≠ s
    ∧ h' !! length h = Some o' ∧ same_system o o'.
Proof.
  intros Hwf Hs zeros Hmiss.
  destruct (extend_by_operation_run h s o zeros Hwf Hs)
    as (l & o' & h' & Hrun & Hl & Hext & _ & _ & Hfresh & _).
  { apply Forall_forall. by intros z [-> _]%elem_of_replicate. }
  { unfold zeros. by rewrite length_replicate. }
  rewrite (Hfresh Hmiss) in *. exists o', h'. split; [done|].
  split; [apply lookup_lt_Some in Hs; lia|]. split; [done|].
  destruct Hext as (Hc & Hp & Hv & Hpar & Heqs).
  rewrite extended_equations_Ok in Heqs
    by (unfold zeros; by rewrite length_replicate).
  unfold zeros in Heqs. rewrite sp1_equations_zeros in Heqs.
  injection Heqs as Heqs. by repeat split.
Qed.

(** X12. Extensions grow with their bounds: the equations of the receiver
    are among those of every extension, in their order, and when [Ls] is
    below [Ls'] entry by entry the equations of the extension by [Ls] are
    among those of the extension by [Ls'], in their order. *)
Theorem extend_by_operation_monotone
    (h : store) (s : loc) (o : RWOSystem) (Ls Ls' : list Z) :
  store_wf h → h !! s = Some o →
  Forall2 (fun a b => 0 ≤ a ≤ b) Ls Ls' →
  (length (_equations o) ≤ length Ls)%nat →
  ∃ l1 h1 l2 h2 o1 o2,
    extend_by_operation s (ListOrTuple (InZZ <$> Ls)) h = (Ok l1, h1)
    ∧ extend_by_operation s (ListOrTuple (InZZ <$> Ls')) h1 = (Ok l2, h2)
    ∧ h2 !! l1 = Some o1 ∧ h2 !! l2 = Some o2
    ∧ _equations o `sublist_of` _equations o1
    ∧ _equations o1 `sublist_of` _equations o2.
Proof.
  intros Hwf Hs Hle Hlen.
  assert (Forall (fun a => 0 ≤ a) Ls) as Hpos.
  { eapply Forall2_Forall_l; [exact Hle|]. apply Forall_forall.
    intros b _ a. simpl. lia. }
  assert (Forall (fun b => 0 ≤ b) Ls') as Hpos'.
  { eapply Forall2_Forall_r; [exact Hle|]. apply Forall_forall.
    intros a _ b. simpl. lia. }
  pose proof (Forall2_length _ _ _ Hle) as Hlen'.
  destruct (extend_by_operation_run h s o Ls Hwf Hs Hpos Hlen)
    as (l1 & o1 & h1 & Hrun1 & Hl1 & Hext1 & Hwf1 & _ & _
        & os & Hs1 & Hsame1 & _).
  destruct (extend_by_operation_run h1 s os Ls' Hwf1 Hs1 Hpos')
    as (l2 & o2 & h2 & Hrun2 & Hl2 & Hext2 & _ & Hle2 & _).
  { destruct Hsame1 as (_ & _ & <- & _). lia. }
  destruct (Hle2 _ _ Hl1) as (o1' & Hl1' & Hsame).
  exists l1, h1, l2, h2, o1', o2.
  split; [done|]. split; [done|]. split; [done|]. split; [done|].
  destruct Hsame as (_ & _ & <- & _).
  destruct Hext1 as (_ & _ & _ & _ & Heqs1).
  destruct Hext2 as (_ & _ & _ & _ & Heqs2).
  rewrite <- (extended_equations_same o os) in Heqs2 by done.
  rewrite extended_equations_Ok in Heqs1, Heqs2 by lia.
  injection Heqs1 as <-. injection Heqs2 as <-.
  split; [by apply sp1_equations_original|by apply sp1_equations_sublist].
Qed.

End Extensions.

Lemma extend_by_operation_zeros_witness :
  store_wf [Zx.sys_uv]
  ∧ ∃ o' h',
      extend_by_operation 0%nat (ListOrTuple (InZZ <$> [0; 0])) [Zx.sys_uv]
      = (Ok 1%nat, h')
      ∧ 1%nat ≠ 0%nat
      ∧ h' !! 1%nat = Some o' ∧ same_system Zx.sys_uv o'.
Proof.
  split; [apply store_uv_wf|].
  apply (extend_by_operation_zeros [Zx.sys_uv] 0%nat Zx.sys_uv).
  - apply store_uv_wf.
  - reflexivity.
  - reflexivity.
Defined.

Lemma extend_by_operation_monotone_witness :
  store_wf [Zx.sys_u]
  ∧ Forall2 (fun a b => 0 ≤ a ≤ b) [1] [3]
  ∧ ∃ l1 h1 l2 h2 o1 o2,
      extend_by_operation 0%nat (ListOrTuple (InZZ <$> [1])) [Zx.sys_u]
      = (Ok l1, h1)
      ∧ extend_by_operation 0%nat (ListOrTuple (InZZ <$> [3])) h1 = (Ok l2, h2)
      ∧ h2 !! l1 = Some o1 ∧ h2 !! l2 = Some o2
      ∧ _equations Zx.sys_u `sublist_of` _equations o1
      ∧ _equations o1 `sublist_of` _equations o2.
Proof.
  assert (Forall2 (fun a b => 0 ≤ a ≤ b) [1] [3]) as Hle.
  { constructor; [lia|constructor]. }
  split; [apply store_u_wf|]. split; [exact Hle|].
  apply (extend_by_operation_monotone [Zx.sys_u] 0%nat Zx.sys_u [1] [3]).
  - apply store_u_wf.
  - reflexivity.
  - exact Hle.
  - simpl. lia.
Defined.

(** ** The search for an extension *)

Lemma Compositions_NoDup (k : nat) (n b : Z) : NoDup (Compositions k n b).
Proof.
  revert n. induction k as [|k IH]; intros n; cbn [Compositions].
  - destruct (n =? 0); [apply NoDup_singleton|apply NoDup_nil_2].
  - apply NoDup_bind.
    + intros a1 a2 c _ _ (c1 & -> & _)%list_elem_of_fmap
        (c2 & Heq & _)%list_elem_of_fmap. congruence.
    + intros a _. apply NoDup_fmap_2; [|apply IH].
      intros c1 c2. congruence.
    + rewrite reverse_Permutation. apply NoDup_seqZ.
Qed.

Lemma fmap_pred_inj : Inj (=) (=) (fmap (M := list) (fun el : Z => el - 1)).
Proof.
  intros c1. induction c1 as [|a c1 IH]; intros [|b c2]; try done.
  rewrite !fmap_cons. intros [= Hab Hc]. f_equal; [lia|by apply IH].
Qed.

Lemma gen_cartesian_NoDup (n bound : Z) : NoDup (gen_cartesian n bound).
Proof.
  unfold gen_cartesian. apply NoDup_bind.
  - intros i1 i2 L _ _ (c1 & -> & Hc1)%list_elem_of_fmap
      (c2 & Heq%fmap_pred_inj & Hc2)%list_elem_of_fmap. subst c2.
    apply Compositions_elem in Hc1 as (_ & _ & Hs1).
    apply Compositions_elem in Hc2 as (_ & _ & Hs2). lia.
  - intros i _. apply NoDup_fmap_2; [apply fmap_pred_inj|].
    apply Compositions_NoDup.
  - apply NoDup_seqZ.
Qed.

Lemma gen_cartesian_nothing (n bound : Z) :
  n = 0 ∨ bound = 0 → gen_cartesian n bound = [].
Proof.
  unfold gen_cartesian. intros [-> | ->].
  - by rewrite Z.mul_0_r.
  - by rewrite Z.mul_0_l.
Qed.

Section Search.
Context `{R : OperatorRing}.

Lemma extend_by_operation_Raise (h h' : store) (s : loc) Ls (e : exn) :
  extend_by_operation s Ls h = (Raise e, h') → h' = h.
Proof.
  destruct Ls as [els|]; [|by intros [= _ <-]]. unfold extend_by_operation.
  destruct (existsb bad_entry els); [by intros [= _ <-]|].
  unfold new, lift, mbind, M_bind, load, alloc, modify, mret, M_ret.
  destruct (h !! s) as [o|] eqn:Hs; [|by intros [= _ <-]].
  destruct (CACHED_SP1 o !! _); [done|].
  destruct (extended_equations_entries o _); [|by intros [= _ <-]].
  destruct (init _ _ _ _); [|by intros [= _ <-]].
  cbv beta iota.
  rewrite lookup_app_l, Hs by (by eapply lookup_lt_Some). done.
Qed.

(** One round of the search: the store is only extended, and a round that
    answers [True] leaves the extension in the cache of the receiver. *)
Lemma sp2_of_extension_ext (h h' : store) (s : loc) (L : list Z) r :
  sp2_of_extension s L h = (r, h') →
  store_ext h h'
  ∧ (r = Ok true →
     ∃ l e, extend_by_operation s (ListOrTuple (InZZ <$> L)) h' = (Ok l, h')
            ∧ h' !! l = Some e ∧ is_sp2 e = Ok true).
Proof.
  unfold sp2_of_extension, mbind at 1, M_bind at 1.
  destruct (extend_by_operation s _ h) as [[ext|e] h1] eqn:Hrun.
  - unfold mbind, M_bind, load, lift.
    destruct (h1 !! ext) as [o'|] eqn:Hext.
    + intros [= <- <-]. split; [by eapply extend_by_operation_ext|].
      intros Hsp2. exists ext, o'. split; [|done].
      pose proof (extend_by_operation_Ok _ _ _ _ _ Hrun) as [Hok _].
      destruct (extend_by_operation_entry _ _ _ _ _ Hrun) as (o1 & Hs1 & Hc1).
      by apply (extend_by_operation_hit _ _ _ o1).
    + intros [= <- <-]. split; [by eapply extend_by_operation_ext|done].
  - intros [= <- <-]. apply extend_by_operation_Raise in Hrun as ->.
    split; [apply store_ext_refl|done].
Qed.

Lemma search_extension_ext (s : loc) (candidates : list (list Z))
    (h h' : store) r :
  search_extension s candidates h = (r, h') →
  store_ext h h'
  ∧ (∀ L, r = Ok L →
       L ∈ candidates
       ∧ ∃ l e, extend_by_operation s (ListOrTuple (InZZ <$> L)) h' = (Ok l, h')
                ∧ h' !! l = Some e ∧ is_sp2 e = Ok true).
Proof.
  revert h. induction candidates as [|L0 rest IH]; intros h.
  - intros [= <- <-]. split; [apply store_ext_refl|done].
  - cbn [search_extension]. unfold mbind, M_bind.
    destruct (sp2_of_extension s L0 h) as [[found|e] h1] eqn:Hround.
    + apply sp2_of_extension_ext in Hround as [Hext Hfound].
      destruct found.
      * intros [= <- <-]. split; [done|]. intros L [= <-].
        split; [by apply elem_of_cons; left|]. by apply Hfound.
      * intros [Hext' Hrest]%IH. split; [by eapply store_ext_trans|].
        intros L HL. destruct (Hrest L HL) as [Hin Hrun].
        split; [by apply elem_of_cons; right|done].
    + apply sp2_of_extension_ext in Hround as [Hext _].
      by intros [= <- <-].
Qed.

Lemma as_index_Ok (el : entry) (z : Z) :
  as_index el = Ok z → el = InZZ z ∧ entry_value el = z.
Proof. destruct el; by intros [= <-]. Qed.

(** The steps of [__get_extension] before its loop. *)
Lemma get_extension_cases (h : store) (s : loc) (bound : entry) :
  get_extension s bound h
  = if bad_entry bound then (Raise ValueError, h)
    else match h !! s with
         | None => (Raise InvalidReference, h)
         | Some o =>
             match as_index bound with
             | Ok b => search_extension s (gen_cartesian (size o) b) h
             | Raise e => (Raise e, h)
             end
         end.
Proof.
  unfold get_extension. destruct (bad_entry bound); [done|].
  unfold mbind, M_bind, load, lift. destruct (h !! s); [|done].
  by destruct (as_index bound).
Qed.

Lemma get_extension_nothing (h : store) (s : loc) (o : RWOSystem) (z : Z) :
  h !! s = Some o → 0 ≤ z → size o = 0 ∨ z = 0 →
  get_extension s (InZZ z) h = (Raise TypeError, h).
Proof.
  intros Hs Hz Hnothing. unfold get_extension. cbn [bad_entry].
  destruct (z <? 0) eqn:E; [lia|].
  unfold mbind, M_bind, load, lift. rewrite Hs. cbn [as_index].
  by rewrite gen_cartesian_nothing.
Qed.

(** X13. [__get_extension] raises [ValueError] for a bound that is not in
    [ZZ] or is negative. A bound such as [3.0], which is in [ZZ] and no
    integer, raises [TypeError] when [range] is asked for the candidates;
    the integer [0] and a system without equations give no candidate,
    which raises [TypeError] too. The store is left as it is in all these
    cases. *)
Theorem get_extension_edges (h : store) (s : loc) (o : RWOSystem) :
  h !! s = Some o →
  get_extension s NotInZZ h = (Raise ValueError, h)
  ∧ (∀ z, z < 0 →
       get_extension s (InZZ z) h = (Raise ValueError, h)
       ∧ get_extension s (FloatInZZ z) h = (Raise ValueError, h))
  ∧ (∀ z, 0 ≤ z → get_extension s (FloatInZZ z) h = (Raise TypeError, h))
  ∧ get_extension s (InZZ 0) h = (Raise TypeError, h)
  ∧ (∀ z, 0 ≤ z → size o = 0 →
       get_extension s (InZZ z) h = (Raise TypeError, h)).
Proof.
  intros Hs. split; [done|]. split; [|split; [|split]].
  - intros z Hz. unfold get_extension. cbn [bad_entry].
    by destruct (z <? 0) eqn:E; [|lia].
  - intros z Hz. unfold get_extension. cbn [bad_entry].
    destruct (z <? 0) eqn:E; [lia|].
    unfold mbind, M_bind, load, lift. by rewrite Hs.
  - apply (get_extension_nothing h s o 0 Hs); [lia|by right].
  - intros z Hz Hsize. apply (get_extension_nothing h s o z Hs Hz). by left.
Qed.

(** X14. The search of [__get_extension] on a system with [n > 0]
    equations goes through the tuples of [n] integers between [0] and
    [bound - 1], each of them exactly once. *)
Theorem get_extension_search_space (o : RWOSystem) (bound : Z) :
  0 < size o →
  let candidates := gen_cartesian (size o) bound in
  NoDup candidates
  ∧ ∀ L, L ∈ candidates
         ↔ Z.of_nat (length L) = size o ∧ Forall (fun c => 0 ≤ c ≤ bound - 1) L.
Proof.
  intros Hsize candidates. split; [apply gen_cartesian_NoDup|].
  intros L. split.
  - intros (Hlen & Hall & _)%gen_cartesian_elem. split; [lia|done].
  - intros [Hlen Hall]. apply gen_cartesian_complete; [done|lia|done].
Qed.

(** X15. [__get_extension] only adds extensions: whatever it returns or
    raises, every object keeps its attributes and its cached resultant and
    no cached extension is lost. When it returns a tuple, this tuple is one
    of the candidates and its extension, which satisfies SP2, is in the
    cache: [extend_by_operation] gives it back at once. *)
Theorem get_extension_cached (h h' : store) (s : loc) (o : RWOSystem)
    (bound : entry) r :
  h !! s = Some o →
  get_extension s bound h = (r, h') →
  store_ext h h'
  ∧ (∀ L, r = Ok L →
       L ∈ gen_cartesian (size o) (entry_value bound)
       ∧ ∃ l e, extend_by_operation s (ListOrTuple (InZZ <$> L)) h' = (Ok l, h')
                ∧ h' !! l = Some e ∧ is_sp2 e = Ok true).
Proof.
  intros Hs. rewrite get_extension_cases, Hs.
  destruct (bad_entry bound).
  { intros [= <- <-]. split; [apply store_ext_refl|done]. }
  destruct (as_index bound) as [b|e] eqn:Hb.
  - apply as_index_Ok in Hb as [_ ->]. apply search_extension_ext.
  - intros [= <- <-]. split; [apply store_ext_refl|done].
Qed.

End Search.

Lemma get_extension_edges_witness :
  get_extension 0%nat NotInZZ [Zx.sys_u] = (Raise ValueError, [Zx.sys_u])
  ∧ get_extension 0%nat (InZZ (-2)) [Zx.sys_u] = (Raise ValueError, [Zx.sys_u])
  ∧ get_extension 0%nat (FloatInZZ 3) [Zx.sys_u] = (Raise TypeError, [Zx.sys_u])
  ∧ get_extension 0%nat (InZZ 0) [Zx.sys_u] = (Raise TypeError, [Zx.sys_u]).
Proof.
  destruct (get_extension_edges [Zx.sys_u] 0%nat Zx.sys_u eq_refl)
    as (Hnot & Hneg & Hfloat & Hzero & _).
  split; [exact Hnot|]. split; [apply Hneg; lia|].
  split; [apply Hfloat; lia|exact Hzero].
Defined.

Lemma get_extension_search_space_witness :
  0 < size Zx.sys_uv
  ∧ NoDup (gen_cartesian (size Zx.sys_uv) 3)
  ∧ ∀ L, L ∈ gen_cartesian (size Zx.sys_uv) 3
         ↔ Z.of_nat (length L) = size Zx.sys_uv
           ∧ Forall (fun c => 0 ≤ c ≤ 3 - 1) L.
Proof.
  assert (0 < size Zx.sys_uv) as Hsize by (unfold size; simpl; lia).
  split; [exact Hsize|].
  exact (get_extension_search_space Zx.sys_uv 3 Hsize).
Defined.

Lemma get_extension_cached_witness :
  let run := get_extension 0%nat (InZZ 3) [Zx.sys_uv] in
  run.1 = Ok [1; 2]
  ∧ store_ext [Zx.sys_uv] run.2
  ∧ ∃ l e, extend_by_operation 0%nat (ListOrTuple (InZZ <$> [1; 2])) run.2
           = (Ok l, run.2)
           ∧ run.2 !! l = Some e ∧ is_sp2 e = Ok true.
Proof.
  intros run.
  assert (run.1 = Ok [1; 2]) as Hrun by (vm_compute; reflexivity).
  split; [exact Hrun|].
  destruct (get_extension_cached [Zx.sys_uv] run.2 0%nat Zx.sys_uv (InZZ 3)
              run.1 eq_refl) as [Hext Hfound].
  - apply surjective_pairing.
  - split; [exact Hext|]. by apply Hfound.
Defined.

(** ** The resultant *)

Section Resultant.
Context `{R : OperatorRing}.
Variable iterative : loc → entry → string → M AlgPoly.

Lemma get_extension_ext (h h' : store) (s : loc) (bound : entry) r :
  get_extension s bound h = (r, h') → store_ext h h'.
Proof.
  rewrite get_extension_cases. destruct (bad_entry bound).
  { intros [= <- <-]. apply store_ext_refl. }
  destruct (h !! s); [|intros [= <- <-]; apply store_ext_refl].
  destruct (as_index bound).
  - by intros [? _]%search_extension_ext.
  - intros [= <- <-]. apply store_ext_refl.
Qed.

Lemma macaulay_ext (h h' : store) (s : loc) (bound : entry) r :
  macaulay s bound h = (r, h') → store_ext h h'.
Proof.
  unfold macaulay, mbind at 1, M_bind at 1.
  destruct (get_extension s bound h) as [[L|e] h1] eqn:Hsearch.
  - apply get_extension_ext in Hsearch.
    unfold mbind at 1, M_bind at 1.
    destruct (extend_by_operation s _ h1) as [[ext|e] h2] eqn:Hrun.
    + apply extend_by_operation_ext in Hrun.
      assert (store_ext h h2) as Hext by by eapply store_ext_trans.
      unfold mbind, M_bind, load, lift, raise.
      destruct (h2 !! ext) as [e|]; [|by intros [= <- <-]].
      destruct (algebraic_equations e) as [aeqs|]; [|by intros [= <- <-]].
      destruct (homogenize <$> aeqs); by intros [= <- <-].
    + apply extend_by_operation_Raise in Hrun as ->. by intros [= <- <-].
  - apply get_extension_ext in Hsearch. by intros [= <- <-].
Qed.

(** X16. A call of [diff_resultant] that fails with the algorithm
    ["macaulay"] or ["dixon"], with an unknown algorithm, or with ["auto"]
    on a linear system, caches no resultant: the system had none before and
    has none after, and the objects of the store keep their attributes and
    their extensions. *)
Theorem diff_resultant_failure (h h' : store) (s : loc) (o : RWOSystem)
    (bound_L : entry) (alg_res : string) (e : exn) :
  h !! s = Some o →
  alg_res ≠ "iterative"%string →
  (alg_res = "auto"%string → is_linear o None = true) →
  diff_resultant iterative s bound_L alg_res h = (Raise e, h') →
  CACHED_RES o = None
  ∧ store_ext h h'
  ∧ ∃ o', h' !! s = Some o' ∧ same_system o o' ∧ CACHED_RES o' = None.
Proof.
  intros Hs Hiter Hauto Hrun.
  assert (CACHED_RES o = None ∧ store_ext h h') as [Hnone Hext].
  { revert Hrun. unfold diff_resultant, mbind at 1, M_bind at 1, load.
    rewrite Hs. destruct (CACHED_RES o) as [cached|]; [done|].
    split; [done|]. revert Hrun.
    destruct (bool_decide (alg_res ∈ valid_algorithms)) eqn:Hvalid;
      [|intros [= _ <-]; apply store_ext_refl].
    cbn [negb]. unfold mbind, M_bind.
    assert (∀ out h1, macaulay s bound_L h = (Ok out, h1) →
              store_resultant s o out h1 = (Raise e, h') → store_ext h h')
      as Hstore.
    { intros out h1 Hmac%macaulay_ext. unfold store_resultant.
      destruct (alg_is_zero out); [by intros [= _ <-]|].
      unfold mbind, M_bind, lift, modify.
      destruct (from_algebraic (parent o) out); [|by intros [= _ <-]].
      destruct (h1 !! s); [done|by intros [= _ <-]]. }
    assert (∀ r0 h1, macaulay s bound_L h = (Raise r0, h1) →
              (Raise r0 : result Poly, h1) = (Raise e, h') → store_ext h h')
      as Hfail.
    { intros r0 h1 Hmac%macaulay_ext [= _ <-]. done. }
    unfold run_algorithm, decide_resultant_algorithm.
    destruct (String.eqb alg_res "auto") eqn:Ea.
    - apply String.eqb_eq in Ea. rewrite (Hauto Ea).
      change (String.eqb "macaulay" "dixon") with false.
      change (String.eqb "macaulay" "macaulay") with true. cbv iota.
      destruct (macaulay s bound_L h) as [[out|r0] h1] eqn:Hmac; eauto.
    - destruct (String.eqb alg_res "dixon") eqn:Ed.
      { intros [= _ <-]. apply store_ext_refl. }
      destruct (String.eqb alg_res "macaulay") eqn:Em.
      { destruct (macaulay s bound_L h) as [[out|r0] h1] eqn:Hmac; eauto. }
      destruct (String.eqb alg_res "iterative") eqn:Ei.
      { by apply String.eqb_eq in Ei. }
      intros [= _ <-]. apply store_ext_refl. }
  split; [done|]. split; [done|].
  destruct (Hext _ _ Hs) as (o' & Hs' & Hsame & Hres & _).
  exists o'. split; [done|]. split; [done|]. congruence.
Qed.

(** X17. A degenerate case is an error and is not cached: when the Macaulay
    resultant of the extension found is zero, [diff_resultant] raises
    [ValueError] and the system still has no cached resultant. *)
Theorem diff_resultant_zero (h h1 : store) (s : loc) (o : RWOSystem)
    (bound_L : entry) (out : AlgPoly) :
  h !! s = Some o → CACHED_RES o = None →
  macaulay s bound_L h = (Ok out, h1) → alg_is_zero out = true →
  diff_resultant iterative s bound_L "macaulay" h = (Raise ValueError, h1)
  ∧ ∃ o', h1 !! s = Some o' ∧ CACHED_RES o' = None.
Proof.
  intros Hs Hnone Hmac Hzero. split.
  - unfold diff_resultant, mbind at 1, M_bind at 1, load.
    rewrite Hs, Hnone.
    change (bool_decide ("macaulay"%string ∈ valid_algorithms)) with true.
    cbn [negb]. change (String.eqb "macaulay" "auto") with false. cbv iota.
    unfold run_algorithm.
    change (String.eqb "macaulay" "dixon") with false.
    change (String.eqb "macaulay" "macaulay") with true. cbv iota.
    unfold mbind, M_bind. rewrite Hmac. unfold store_resultant.
    by rewrite Hzero.
  - apply macaulay_ext in Hmac.
    destruct (Hmac _ _ Hs) as (o' & Hs' & _ & Hres & _).
    exists o'. split; [done|]. congruence.
Qed.

End Resultant.

Lemma diff_resultant_failure_witness :
  let run := diff_resultant Zx.no_iterative 0%nat (InZZ 2) "macaulay"
               [Zx.sys_u] in
  run.1 = Raise TypeError
  ∧ store_ext [Zx.sys_u] run.2
  ∧ ∃ o', run.2 !! 0%nat = Some o' ∧ same_system Zx.sys_u o'
          ∧ CACHED_RES o' = None.
Proof.
  intros run.
  assert (run.1 = Raise TypeError) as Hrun by (vm_compute; reflexivity).
  split; [exact Hrun|].
  destruct (diff_resultant_failure Zx.no_iterative [Zx.sys_u] run.2 0%nat
              Zx.sys_u (InZZ 2) "macaulay" TypeError) as (_ & Hext & Hs).
  - reflexivity.
  - discriminate.
  - discriminate.
  - rewrite <- Hrun. apply surjective_pairing.
  - by split.
Defined.

Lemma diff_resultant_zero_witness :
  let sys_aa : RWOSystem :=
    {| class_of := DifferentialSystem_class; parent := Zx.ring_u;
       _equations := [Zx.eq_a; Zx.eq_a];
       variables := ["u"%string]; parameters := [];
       CACHED_SP1 := ∅; CACHED_RES := None |} in
  let found := macaulay 0%nat (InZZ 3) [sys_aa] in
  (∃ out, found.1 = Ok out ∧ alg_is_zero out = true)
  ∧ diff_resultant Zx.no_iterative 0%nat (InZZ 3) "macaulay" [sys_aa]
    = (Raise ValueError, found.2).
Proof.
  intros sys_aa found.
  set (out := {| Zx.alg_variables := []; Zx.alg_parameters := [];
                 Zx.alg_terms := [] |} : Zx.alg_poly).
  assert (found.1 = Ok (out : AlgPoly (OperatorRing := Zx.ring))) as Hfound
    by (vm_compute; reflexivity).
  split; [by exists out|].
  apply (diff_resultant_zero Zx.no_iterative [sys_aa] found.2 0%nat sys_aa
           (InZZ 3) out).
  - reflexivity.
  - reflexivity.
  - rewrite <- Hfound. apply surjective_pairing.
  - reflexivity.
Defined.

(** ** The coherence of the caches *)

Section Coherence.
Context `{R : OperatorRing} `{!OperatorRingLaws R}.
Variable iterative : loc → entry → string → M AlgPoly.
Hypothesis iterative_store_wf : ∀ s bound alg_res h r h',
  store_wf h → iterative s bound alg_res h = (r, h') → store_wf h'.

Lemma get_extension_store_wf (s : loc) (bound : entry)
    (h h' : store) (r : result (list Z)) :
  store_wf h → get_extension s bound h = (r, h') → store_wf h'.
Proof.
  intros Hwf. rewrite get_extension_cases. destruct (bad_entry bound).
  { by intros [= _ <-]. }
  destruct (h !! s) as [o|] eqn:Hs; [|by intros [= _ <-]].
  destruct (as_index bound) as [b|e]; [|by intros [= _ <-]].
  destruct (search_extension_run s (gen_cartesian (size o) b)
              h o Hwf Hs (gen_cartesian_candidates o _))
    as (r0 & h0 & Hrun & Hwf0 & _).
  rewrite Hrun. by intros [= _ <-].
Qed.

Lemma macaulay_store_wf (s : loc) (bound : entry)
    (h h' : store) (r : result AlgPoly) :
  store_wf h → macaulay s bound h = (r, h') → store_wf h'.
Proof.
  intros Hwf. unfold macaulay, mbind at 1, M_bind at 1.
  destruct (get_extension s bound h) as [[L|e] h1] eqn:Hsearch.
  - apply get_extension_store_wf in Hsearch; [|done].
    unfold mbind at 1, M_bind at 1.
    destruct (extend_by_operation s _ h1) as [[ext|e] h2] eqn:Hrun.
    + apply extend_by_operation_store_wf in Hrun; [|done].
      unfold mbind, M_bind, load, lift, raise.
      destruct (h2 !! ext) as [e|]; [|by intros [= _ <-]].
      destruct (algebraic_equations e) as [aeqs|]; [|by intros [= _ <-]].
      destruct (homogenize <$> aeqs); by intros [= _ <-].
    + apply extend_by_operation_store_wf in Hrun; [|done].
      by intros [= _ <-].
  - apply get_extension_store_wf in Hsearch; [|done]. by intros [= _ <-].
Qed.

Lemma run_algorithm_store_wf (s : loc) (to_use_alg : string) (bound : entry)
    (alg_res : string) (h h' : store) (r : result AlgPoly) :
  store_wf h →
  run_algorithm iterative s to_use_alg bound alg_res h = (r, h') →
  store_wf h'.
Proof.
  intros Hwf. unfold run_algorithm.
  destruct (String.eqb to_use_alg "dixon"); [by intros [= _ <-]|].
  destruct (String.eqb to_use_alg "macaulay"); [by apply macaulay_store_wf|].
  destruct (String.eqb to_use_alg "iterative");
    [by apply iterative_store_wf|by intros [= _ <-]].
Qed.

(** X18. The caches stay coherent. In a store where every object is what
    the constructor builds and every entry of an extension cache is the
    extension of its owner for its key, every operation of the systems
    leaves such a store: [extend_by_operation], [subsystem],
    [change_variables], [__getitem__], [__get_extension] and
    [diff_resultant], the latter for an iterative eliminator that does. *)
Theorem store_wf_preserved (h : store) (s : loc) :
  store_wf h →
  (∀ Ls r h', extend_by_operation s Ls h = (r, h') → store_wf h')
  ∧ (∀ ind vars r h', subsystem s ind vars h = (r, h') → store_wf h')
  ∧ (∀ vars r h', change_variables s vars h = (r, h') → store_wf h')
  ∧ (∀ ind r h', getitem_system s ind h = (r, h') → store_wf h')
  ∧ (∀ bound r h', get_extension s bound h = (r, h') → store_wf h')
  ∧ (∀ bound alg_res r h',
       diff_resultant iterative s bound alg_res h = (r, h') → store_wf h').
Proof.
  intros Hwf. split; [|split; [|split; [|split; [|split]]]].
  - intros Ls r h'. by apply extend_by_operation_store_wf.
  - intros ind vars r h'. by apply subsystem_store_wf.
  - intros vars r h'. unfold change_variables. by apply subsystem_store_wf.
  - intros ind r h'. by apply getitem_system_store_wf.
  - intros bound r h'. by apply get_extension_store_wf.
  - intros bound alg_res r h'.
    unfold diff_resultant, mbind at 1, M_bind at 1, load.
    destruct (h !! s) as [o|] eqn:Hs; [|by intros [= _ <-]].
    destruct (CACHED_RES o); [by intros [= _ <-]|].
    destruct (negb _); [by intros [= _ <-]|].
    unfold mbind, M_bind.
    destruct (run_algorithm _ _ _ _ _ h) as [[out|e] h1] eqn:Hrun.
    + apply run_algorithm_store_wf in Hrun; [|done].
      intros Hstore. by eapply store_resultant_store_wf.
    + apply run_algorithm_store_wf in Hrun; [|done]. by intros [= _ <-].
Qed.

End Coherence.

Lemma store_wf_preserved_witness :
  store_wf [Zx.sys_uv]
  ∧ store_wf (get_extension 0%nat (InZZ 3) [Zx.sys_uv]).2.
Proof.
  split; [apply store_uv_wf|].
  destruct (store_wf_preserved Zx.no_iterative
              (fun s bound alg_res h r h' Hwf Hrun =>
                 eq_ind h store_wf Hwf h' (f_equal snd Hrun))
              [Zx.sys_uv] 0%nat store_uv_wf) as (_ & _ & _ & _ & Hsearch & _).
  apply (Hsearch (InZZ 3) (get_extension 0%nat (InZZ 3) [Zx.sys_uv]).1).
  apply surjective_pairing.
Defined.

(** ** Systems without equations, orders and variables *)

Lemma foldl_max_spec (x : Z) (l : list Z) :
  (foldl Z.max x l = x ∨ foldl Z.max x l ∈ l)
  ∧ x ≤ foldl Z.max x l
  ∧ Forall (fun y => y ≤ foldl Z.max x l) l.
Proof.
  revert x. induction l as [|y l IH]; intros x; simpl.
  - split; [by left|]. split; [lia|constructor].
  - destruct (IH (Z.max x y)) as (Hin & Hle & Hall).
    split; [|split; [lia|constructor; [lia|done]]].
    destruct Hin as [Heq|Hin].
    + rewrite Heq. destruct (Z.max_spec x y) as [[_ ->]|[_ ->]].
      * right. by apply elem_of_cons; left.
      * by left.
    + right. by apply elem_of_cons; right.
Qed.

Lemma traverse_getitem_elem {A} (t : list A) (js : list Z) (l : list A) :
  traverse (getitem t) js = Ok l → Forall (fun x => x ∈ t) l.
Proof.
  intros H%traverse_Ok. induction H as [|j x js l Hj _ IH]; constructor;
    [by eapply getitem_elem_of|done].
Qed.

Section Pure.
Context `{R : OperatorRing}.
Variable iterative : loc → entry → string → M AlgPoly.
Variable poly_order : option string → Poly → Z.

(** X19. A system without equations can be built from a parent alone. It
    is linear, it has no algebraic variables, and everything that needs an
    equation fails: the algebraic equations, [is_homogeneous] and [is_sp2]
    raise [TypeError], [order] raises [ValueError], every index is out of
    range, and [diff_resultant] with the automatic choice finds no
    extension. *)
Theorem empty_system (h : store) (s : loc) (o : RWOSystem) :
  h !! s = Some o → _equations o = [] →
  (∀ vars, is_linear o vars = true)
  ∧ algebraic_variables o = []
  ∧ algebraic_equations o = Raise TypeError
  ∧ is_homogeneous o = Raise TypeError
  ∧ is_sp2 o = Raise TypeError
  ∧ (∀ gen, order poly_order o gen = Raise ValueError)
  ∧ (∀ i, equation o (Plain i) = Raise IndexError)
  ∧ (∀ z, 0 ≤ z → CACHED_RES o = None →
       diff_resultant iterative s (InZZ z) "auto" h = (Raise TypeError, h)).
Proof.
  intros Hs Hempty.
  assert (algebraic_equations o = Raise TypeError) as Halg.
  { unfold algebraic_equations. by rewrite Hempty. }
  split; [|split; [|split; [|split; [|split; [|split; [|split]]]]]].
  - intros vars. unfold is_linear. by rewrite Hempty.
  - unfold algebraic_variables. by rewrite Hempty.
  - done.
  - unfold is_homogeneous. by rewrite Halg.
  - unfold is_sp2, is_homogeneous. by rewrite Halg.
  - intros gen. unfold order. by rewrite Hempty.
  - intros i. cbn [equation]. apply getitem_out_of_range.
    rewrite Hempty. simpl. lia.
  - intros z Hz Hnone.
    unfold diff_resultant, mbind at 1, M_bind at 1, load.
    rewrite Hs, Hnone.
    change (bool_decide ("auto"%string ∈ valid_algorithms)) with true.
    cbn [negb]. change (String.eqb "auto" "auto") with true. cbv iota.
    unfold decide_resultant_algorithm, is_linear. rewrite Hempty.
    cbn [forallb]. unfold run_algorithm.
    change (String.eqb "macaulay" "dixon") with false.
    change (String.eqb "macaulay" "macaulay") with true. cbv iota.
    unfold mbind at 1, M_bind at 1, macaulay, mbind at 1, M_bind at 1.
    rewrite (get_extension_nothing h s o z Hs Hz); [done|].
    left. unfold size. by rewrite Hempty.
Qed.

(** X20. [order] of a system with an equation is the largest of the orders
    of its equations: one of them, and no equation has a larger one. *)
Theorem order_max (o : RWOSystem) (gen : option string) :
  _equations o ≠ [] →
  ∃ m, order poly_order o gen = Ok m
       ∧ (∃ p, p ∈ _equations o ∧ poly_order gen p = m)
       ∧ ∀ p, p ∈ _equations o → poly_order gen p ≤ m.
Proof.
  unfold order. destruct (_equations o) as [|p0 eqs]; [done|]. intros _.
  rewrite fmap_cons. cbn [py_max]. eexists. split; [done|].
  destruct (foldl_max_spec (poly_order gen p0) (poly_order gen <$> eqs))
    as (Hin & Hle & Hall).
  split.
  - destruct Hin as [Heq|Hin].
    + exists p0. split; [by apply elem_of_cons; left|done].
    + apply list_elem_of_fmap in Hin as (p & Hp & Hin).
      exists p. split; [by apply elem_of_cons; right|done].
  - intros p [->|Hp]%elem_of_cons; [done|].
    rewrite Forall_forall in Hall. apply Hall.
    apply list_elem_of_fmap. by exists p.
Qed.

(** X21. The algebraic variables of a system are the variables that occur
    in one of its equations and belong to one of its variable families,
    each of them once; they are sorted when the order of the ring compares
    any two variables. *)
Theorem algebraic_variables_spec (o : RWOSystem) :
  NoDup (algebraic_variables o)
  ∧ (∀ v, v ∈ algebraic_variables o
          ↔ v.1 ∈ variables o
            ∧ ∃ p, p ∈ _equations o ∧ v ∈ poly_variables p)
  ∧ (Total avar_rel → Sorted avar_rel (algebraic_variables o)).
Proof.
  unfold algebraic_variables, avar_sort. split; [|split].
  - rewrite merge_sort_Permutation.
    apply NoDup_filter, NoDup_remove_dups.
  - intros v. rewrite merge_sort_Permutation.
    rewrite list_elem_of_filter, elem_of_remove_dups.
    rewrite (list_elem_of_In (concat _) v), in_concat.
    split.
    + intros [Hfam (vs & Hvs & Hv)]. split; [done|].
      apply list_elem_of_In, list_elem_of_fmap in Hvs as (p & -> & Hp).
      exists p. split; [done|by apply list_elem_of_In].
    + intros [Hfam (p & Hp & Hv)]. split; [done|].
      exists (poly_variables p). split; [|by apply list_elem_of_In].
      apply list_elem_of_In, list_elem_of_fmap. by exists p.
  - intros Htotal. by apply Sorted_merge_sort.
Qed.

(** X22. Selecting equations keeps a linear system linear: a system built
    by [system[slice]] or [system[i]] from a system that is linear in its
    variables is linear in its variables, and [diff_resultant] chooses
    Macaulay's resultant for it too. *)
Theorem is_linear_getitem `{!OperatorRingLaws R}
    (h h' : store) (s l : loc) (o : RWOSystem) ind :
  wf_system o → h !! s = Some o → is_linear o None = true →
  (∃ start stop step, ind = Slice start stop step) ∨ (∃ i, ind = Scalar i) →
  getitem_system s ind h = (Ok l, h') →
  ∃ o', h' !! l = Some o'
        ∧ is_linear o' None = true
        ∧ decide_resultant_algorithm o' = "macaulay"%string.
Proof.
  intros Hwf Hs Hlin Hind.
  rewrite getitem_system_subsystem, (subsystem_default_variables h s o)
    by done.
  destruct (equations o ind) as [eqs|e] eqn:Heqs.
  - rewrite (subsystem_run h s o ind (variables o) eqs Hwf Hs Heqs
               (wf_variables _ Hwf)).
    intros [= <- <-]. eexists. rewrite list_lookup_middle by done.
    split; [done|].
    assert (Forall (fun p => p ∈ _equations o) eqs) as Hsub.
    { destruct Hind as [(start & stop & step & ->)|(i & ->)].
      - cbn [equations] in Heqs.
        destruct (slice_indices _ _ _ _) as [[[s0 e0] st]|]; [|done].
        simpl in Heqs. rewrite traverse_equation_plain in Heqs.
        by eapply traverse_getitem_elem.
      - cbn [equations] in Heqs.
        change [Plain i] with (Plain <$> [i]) in Heqs.
        rewrite traverse_equation_plain in Heqs.
        by eapply traverse_getitem_elem. }
    assert (forallb (poly_is_linear (variables o)) eqs = true) as Hall.
    { unfold is_linear in Hlin. rewrite forallb_forall in Hlin.
      apply forallb_forall. intros p Hp%list_elem_of_In.
      rewrite Forall_forall in Hsub. apply Hlin, list_elem_of_In, Hsub, Hp. }
    unfold decide_resultant_algorithm, is_linear. simpl. by rewrite Hall.
  - unfold subsystem, mbind, M_bind, load, lift. by rewrite Hs, Heqs.
Qed.

End Pure.

Lemma empty_system_witness :
  let o : RWOSystem :=
    {| class_of := DifferentialSystem_class; parent := Zx.ring_u;
       _equations := [];
       variables := ["u"%string]; parameters := [];
       CACHED_SP1 := ∅; CACHED_RES := None |} in
  init DifferentialSystem_class [] (Some Zx.ring_u) None = Ok o
  ∧ is_linear o None = true
  ∧ is_sp2 o = Raise TypeError
  ∧ diff_resultant Zx.no_iterative 0%nat (InZZ 10) "auto" [o]
    = (Raise TypeError, [o]).
Proof.
  intros o. split; [reflexivity|].
  destruct (empty_system Zx.no_iterative (fun _ _ => 0) [o] 0%nat o
              eq_refl eq_refl) as (Hlin & _ & _ & _ & Hsp2 & _ & _ & Hres).
  split; [apply Hlin|]. split; [exact Hsp2|]. apply Hres; [lia|reflexivity].
Defined.

Lemma order_max_witness :
  let order_u := fun (gen : option string) (p : Zx.poly) =>
                   Zx.order_in (default "u"%string gen) (Zx.terms_of p) in
  _equations Zx.sys_uv ≠ []
  ∧ ∃ m, order (R := Zx.ring) order_u Zx.sys_uv None = Ok m
         ∧ (∃ p, p ∈ _equations Zx.sys_uv ∧ order_u None p = m)
         ∧ ∀ p, p ∈ _equations Zx.sys_uv → order_u None p ≤ m.
Proof.
  intros order_u.
  assert (_equations Zx.sys_uv ≠ []) as Hne by discriminate.
  split; [exact Hne|].
  exact (order_max (R := Zx.ring) order_u Zx.sys_uv None Hne).
Defined.

Lemma is_linear_getitem_witness :
  let run := getitem_system 0%nat (Slice None (Some 1) None) [Zx.sys_ab] in
  is_linear Zx.sys_ab None = true
  ∧ run.1 = Ok 1%nat
  ∧ ∃ o', run.2 !! 1%nat = Some o'
          ∧ is_linear o' None = true
          ∧ decide_resultant_algorithm o' = "macaulay"%string.
Proof.
  intros run.
  assert (is_linear Zx.sys_ab None = true) as Hlin by reflexivity.
  assert (run.1 = Ok 1%nat) as Hrun by (vm_compute; reflexivity).
  split; [exact Hlin|]. split; [exact Hrun|].
  apply (is_linear_getitem (R := Zx.ring) [Zx.sys_ab] run.2 0%nat 1%nat
           Zx.sys_ab (Slice None (Some 1) None)).
  - apply sys_ab_wf.
  - reflexivity.
  - exact Hlin.
  - left. by exists None, (Some 1), None.
  - rewrite <- Hrun. apply surjective_pairing.
Defined.

(** ** The maximal sets of linear variables *)

Lemma StronglySorted_lookup {A} (Rel : relation A) (l : list A)
    (i j : nat) (a b : A) :
  StronglySorted Rel l → (i < j)%nat →
  l !! i = Some a → l !! j = Some b → Rel a b.
Proof.
  intros Hsorted Hij Ha Hb.
  rewrite <- (take_drop j l) in Hsorted.
  eapply StronglySorted_app_1_elem_of; [exact Hsorted| |].
  - apply list_elem_of_lookup. exists i. by rewrite lookup_take_lt.
  - apply list_elem_of_lookup. exists 0%nat.
    rewrite lookup_drop. by rewrite Nat.add_0_r.
Qed.

Lemma StronglySorted_reverse {A} (Rel : relation A) (l : list A) :
  StronglySorted Rel l → StronglySorted (flip Rel) (reverse l).
Proof.
  induction 1 as [|a l _ IH Hall]; [constructor|].
  rewrite reverse_cons. apply StronglySorted_app_2.
  - intros x1 x2 Hx1 ->%list_elem_of_singleton.
    rewrite elem_of_reverse in Hx1.
    rewrite Forall_forall in Hall. unfold flip. by apply Hall.
  - done.
  - repeat constructor.
Qed.

Section Linear.
Context `{R : OperatorRing}.
Variable Subsets : list string → list (gset string).

Lemma insert_by_len_Permutation (s : gset string) (l : list (gset string)) :
  insert_by_len s l ≡ₚ s :: l.
Proof.
  induction l as [|t l IH]; [done|]. simpl.
  destruct (base.size s <? base.size t)%nat; [done|].
  rewrite IH. apply Permutation_swap.
Qed.

Lemma insert_by_len_sorted (s : gset string) (l : list (gset string)) :
  StronglySorted by_len l → StronglySorted by_len (insert_by_len s l).
Proof.
  induction 1 as [|t l Hsorted IH Hall]; [repeat constructor|]. simpl.
  destruct (base.size s <? base.size t)%nat eqn:E.
  - apply Nat.ltb_lt in E. constructor; [by constructor|].
    constructor; [unfold by_len; lia|].
    eapply Forall_impl; [exact Hall|]. unfold by_len. intros; simpl in *. lia.
  - apply Nat.ltb_ge in E. constructor; [done|].
    rewrite insert_by_len_Permutation. by constructor.
Qed.

Lemma sorted_by_len_spec (l : list (gset string)) :
  sorted_by_len l ≡ₚ l ∧ StronglySorted by_len (sorted_by_len l).
Proof.
  unfold sorted_by_len.
  induction l as [|s l [IHperm IHsorted]] using rev_ind.
  - split; [done|constructor].
  - rewrite foldl_snoc. split.
    + rewrite insert_by_len_Permutation, IHperm.
      by rewrite Permutation_app_comm.
    + by apply insert_by_len_sorted.
Qed.

(** What the first loop has collected after the subsets [l]. *)
Lemma classify_subsets_spec (o : RWOSystem) (l : list (gset string)) :
  let '(rejected, allowed) := classify_subsets o l in
  (∀ s, s ∈ allowed →
     s ≠ ∅ ∧ s ∈ l ∧ is_linear o (Some (elements s)) = true)
  ∧ (∀ r, r ∈ rejected →
       r ≠ ∅ ∧ r ∈ l ∧ is_linear o (Some (elements r)) = false)
  ∧ (∀ s, s ∈ l → s ≠ ∅ → is_linear o (Some (elements s)) = true →
       s ∈ allowed ∨ ∃ r, r ∈ rejected ∧ r ⊆ s).
Proof.
  unfold classify_subsets. induction l as [|s l IH] using rev_ind.
  - simpl. split; [by intros s ?%elem_of_nil|].
    split; [by intros s ?%elem_of_nil|by intros s ?%elem_of_nil].
  - rewrite foldl_snoc.
    destruct (foldl _ _ l) as [rejected allowed].
    destruct IH as (Hall & Hrej & Hcov).
    assert (∀ x, x ∈ l → x ∈ l ++ [s]) as Hin.
    { intros x Hx. apply elem_of_app. by left. }
    assert (s ∈ l ++ [s]) as Hs.
    { apply elem_of_app. right. by apply list_elem_of_singleton. }
    assert ((∀ a, a ∈ allowed →
               a ≠ ∅ ∧ a ∈ l ++ [s] ∧ is_linear o (Some (elements a)) = true)
            ∧ (∀ r, r ∈ rejected →
                 r ≠ ∅ ∧ r ∈ l ++ [s]
                 ∧ is_linear o (Some (elements r)) = false)) as [Hall' Hrej'].
    { split; intros x Hx; [destruct (Hall x Hx) as (? & ? & ?)
                          |destruct (Hrej x Hx) as (? & ? & ?)]; auto. }
    case_bool_decide as Hempty.
    { split; [done|]. split; [done|].
      intros x [Hx| ->%list_elem_of_singleton]%elem_of_app; [auto|done]. }
    destruct (existsb _ rejected) eqn:Hsub.
    { split; [done|]. split; [done|].
      intros x [Hx| ->%list_elem_of_singleton]%elem_of_app; [auto|].
      intros _ _. right. apply existsb_exists in Hsub as (r & Hr & Hrs).
      exists r. split; [by apply list_elem_of_In|].
      by apply bool_decide_eq_true in Hrs. }
    destruct (is_linear o (Some (elements s))) eqn:Hlin.
    + split; [|split; [done|]].
      * intros a [Ha| ->%list_elem_of_singleton]%elem_of_app; auto.
      * intros x [Hx| ->%list_elem_of_singleton]%elem_of_app.
        -- intros Hne Hl. destruct (Hcov x Hx Hne Hl) as [?|?]; [|by right].
           left. apply elem_of_app. by left.
        -- intros _ _. left. apply elem_of_app. right.
           by apply list_elem_of_singleton.
    + split; [done|]. split.
      * intros r [Hr| ->%list_elem_of_singleton]%elem_of_app; auto.
      * intros x [Hx| ->%list_elem_of_singleton]%elem_of_app.
        -- intros Hne Hl. destruct (Hcov x Hx Hne Hl) as [?|(r & Hr & Hrx)];
             [by left|].
           right. exists r. split; [|done]. apply elem_of_app. by left.
        -- intros _ Hl. congruence.
Qed.

Lemma keep_maximal_foldl (allowed : list (gset string)) :
  keep_maximal allowed = foldl keep_step [] (reverse allowed).
Proof. done. Qed.

Lemma keep_step_spec (l : list (gset string)) :
  let result := foldl keep_step [] l in
  (∀ r, r ∈ result → r ∈ l)
  ∧ (∀ c, c ∈ l → ∃ r, r ∈ result ∧ c ⊆ r)
  ∧ (∀ i j ri rj, (i < j)%nat → result !! i = Some ri →
       result !! j = Some rj → ¬ rj ⊆ ri)
  ∧ (StronglySorted (flip by_len) l → StronglySorted (flip by_len) result).
Proof.
  induction l as [|c l IH] using rev_ind.
  - simpl. split; [done|]. split; [by intros c ?%elem_of_nil|].
    split; [done|done].
  - rewrite foldl_snoc. cbv zeta in IH.
    destruct IH as (Hsub & Hcov & Hanti & Hsorted).
    set (result := foldl keep_step [] l) in *. unfold keep_step.
    destruct (forallb _ result) eqn:Hcheck.
    + split; [|split; [|split]].
      * intros r [Hr| ->%list_elem_of_singleton]%elem_of_app;
          apply elem_of_app; [left; auto|right].
        by apply list_elem_of_singleton.
      * intros x [Hx| ->%list_elem_of_singleton]%elem_of_app.
        -- destruct (Hcov x Hx) as (r & Hr & Hxr). exists r.
           split; [|done]. apply elem_of_app. by left.
        -- exists c. split; [|done]. apply elem_of_app. right.
           by apply list_elem_of_singleton.
      * intros i j ri rj Hij Hi Hj.
        destruct (decide (j < length result)%nat) as [Hlt|Hge].
        -- rewrite lookup_app_l in Hi, Hj by lia. eauto.
        -- rewrite lookup_app_r in Hj by lia.
           apply list_lookup_singleton_Some in Hj as [Hj0 <-].
           rewrite lookup_app_l in Hi by lia.
           rewrite forallb_forall in Hcheck.
           assert (In ri result) as Hri.
           { apply list_elem_of_In. by eapply list_elem_of_lookup_2. }
           apply Hcheck, negb_true_iff in Hri.
           by apply bool_decide_eq_false in Hri.
      * intros (Hrel & Hl & _)%StronglySorted_app.
        apply StronglySorted_app_2; [|by apply Hsorted|repeat constructor].
        intros x1 x2 Hx1 Hx2. apply Hrel; [by apply Hsub|done].
    + split; [|split; [|split]].
      * intros r Hr. apply elem_of_app. left. auto.
      * intros x [Hx| ->%list_elem_of_singleton]%elem_of_app; [auto|].
        apply not_true_iff_false in Hcheck.
        rewrite forallb_forall in Hcheck.
        destruct (decide (Exists (fun r => c ⊆ r) result)) as [Hex|Hnot].
        -- apply Exists_exists in Hex as (r & Hr & Hcr). eauto.
        -- exfalso. apply Hcheck. intros r Hr%list_elem_of_In.
           apply negb_true_iff, bool_decide_eq_false. intros Hcr.
           apply Hnot, Exists_exists. eauto.
      * done.
      * intros (_ & Hl & _)%StronglySorted_app. by apply Hsorted.
Qed.

(** X23. Every set [maximal_linear_variables] returns is a non-empty
    subset of the variables, one of those [Subsets] went through, and the
    system is linear in its elements. *)
Theorem maximal_linear_variables_sound (o : RWOSystem) (r : gset string) :
  r ∈ maximal_linear_variables Subsets o →
  r ≠ ∅ ∧ r ∈ Subsets (variables o)
  ∧ is_linear o (Some (elements r)) = true.
Proof.
  unfold maximal_linear_variables. rewrite keep_maximal_foldl.
  intros Hr.
  destruct (keep_step_spec
              (reverse (sorted_by_len
                          (classify_subsets o (Subsets (variables o))).2)))
    as (Hsub & _).
  apply Hsub in Hr. rewrite elem_of_reverse in Hr.
  destruct (sorted_by_len_spec (classify_subsets o (Subsets (variables o))).2)
    as [Hperm _].
  rewrite Hperm in Hr.
  pose proof (classify_subsets_spec o (Subsets (variables o))) as Hspec.
  destruct (classify_subsets o (Subsets (variables o))) as [rejected allowed].
  destruct Hspec as (Hall & _). by apply Hall.
Qed.

(** X24. The sets [maximal_linear_variables] returns come by decreasing
    size and none of them is contained in another one; in particular none
    comes twice. *)
Theorem maximal_linear_variables_antichain (o : RWOSystem)
    (i j : nat) (ri rj : gset string) :
  maximal_linear_variables Subsets o !! i = Some ri →
  maximal_linear_variables Subsets o !! j = Some rj →
  ((i < j)%nat → (base.size rj ≤ base.size ri)%nat)
  ∧ (i ≠ j → ¬ ri ⊆ rj).
Proof.
  unfold maximal_linear_variables. rewrite keep_maximal_foldl.
  set (allowed := (classify_subsets o (Subsets (variables o))).2).
  destruct (keep_step_spec (reverse (sorted_by_len allowed)))
    as (_ & _ & Hanti & Hsorted).
  destruct (sorted_by_len_spec allowed) as [_ Hasc].
  specialize (Hsorted (StronglySorted_reverse _ _ Hasc)).
  set (result := foldl keep_step [] (reverse (sorted_by_len allowed))) in *.
  intros Hi Hj.
  assert (∀ a b x y, (a < b)%nat → result !! a = Some x →
            result !! b = Some y → (base.size y ≤ base.size x)%nat) as Hsize.
  { intros a b x y Hab Ha Hb.
    exact (StronglySorted_lookup _ _ _ _ _ _ Hsorted Hab Ha Hb). }
  split; [intros Hij; eauto|].
  intros Hne Hsub.
  destruct (decide (i < j)%nat) as [Hlt|Hge].
  - assert (ri = rj) as ->.
    { apply set_subseteq_size_eq; [done|]. eauto. }
    by eapply (Hanti i j).
  - apply (Hanti j i rj ri); [lia|done|done|done].
Qed.

(** X25. When linearity passes from a set of variables to its non-empty
    subsets, as the first loop assumes, every non-empty set of variables
    that [Subsets] goes through and in which the system is linear is
    contained in one of the sets returned. *)
Theorem maximal_linear_variables_covering (o : RWOSystem) (s : gset string) :
  (∀ a b, a ∈ Subsets (variables o) → b ∈ Subsets (variables o) →
     b ≠ ∅ → b ⊆ a →
     is_linear o (Some (elements a)) = true →
     is_linear o (Some (elements b)) = true) →
  s ∈ Subsets (variables o) → s ≠ ∅ →
  is_linear o (Some (elements s)) = true →
  ∃ r, r ∈ maximal_linear_variables Subsets o ∧ s ⊆ r.
Proof.
  intros Hdown Hs Hne Hlin.
  unfold maximal_linear_variables. rewrite keep_maximal_foldl.
  pose proof (classify_subsets_spec o (Subsets (variables o))) as Hspec.
  destruct (classify_subsets o (Subsets (variables o)))
    as [rejected allowed] eqn:Hclass.
  destruct Hspec as (_ & Hrej & Hcov). cbn [snd].
  destruct (keep_step_spec (reverse (sorted_by_len allowed)))
    as (_ & Hkeep & _).
  apply Hkeep. rewrite elem_of_reverse.
  destruct (sorted_by_len_spec allowed) as [Hperm _]. rewrite Hperm.
  destruct (Hcov s Hs Hne Hlin) as [Hin|(r & Hr & Hrs)]; [done|].
  destruct (Hrej r Hr) as (Hrne & Hrin & Hrlin).
  rewrite (Hdown s r Hs Hrin Hrne Hrs Hlin) in Hrlin. done.
Qed.

End Linear.

(** ** The variable of the iterative elimination *)

Section BestVariable.
Context `{R : OperatorRing}.
Variable poly_degree : Poly → avar → Z.

Lemma best_variable_fold (o : RWOSystem) (v : string) (rest : list string)
    (b : string) (m : Z) :
  foldl (fun '(v, m) nv =>
           let nm := measure poly_degree o nv in
           if nm <? m then (nv, nm) else (v, m))
        (v, measure poly_degree o v) rest = (b, m) →
  m = measure poly_degree o b
  ∧ ∃ i, (v :: rest) !! i = Some b
      ∧ (∀ j w, (v :: rest) !! j = Some w → m ≤ measure poly_degree o w)
      ∧ (∀ j w, (j < i)%nat → (v :: rest) !! j = Some w →
           m < measure poly_degree o w).
Proof.
  revert b m. induction rest as [|nv rest IH] using rev_ind; intros b m.
  - simpl. intros [= <- <-]. split; [done|]. exists 0%nat.
    split; [done|]. split.
    + intros [|j] w; [by intros [= ->]|done].
    + intros j w Hj. lia.
  - rewrite foldl_snoc.
    destruct (foldl _ _ rest) as [b0 m0].
    destruct (IH b0 m0 eq_refl) as (Hm & i & Hi & Hmin & Hfirst).
    pose proof (lookup_lt_Some _ _ _ Hi) as Hlt. cbv zeta.
    destruct (measure poly_degree o nv <? m0) eqn:E.
    + apply Z.ltb_lt in E. intros [= <- <-]. split; [done|].
      exists (length (v :: rest)). split; [|split].
      * rewrite app_comm_cons. by rewrite list_lookup_middle.
      * intros j w. rewrite app_comm_cons.
        intros [Hw|[Hj Hw]]%lookup_app_Some.
        -- specialize (Hmin j w Hw). lia.
        -- apply list_lookup_singleton_Some in Hw as [_ <-]. lia.
      * intros j w Hj. rewrite app_comm_cons, lookup_app_l by done.
        intros Hw. specialize (Hmin j w Hw). lia.
    + apply Z.ltb_ge in E. intros [= <- <-]. split; [done|].
      exists i. split; [|split].
      * rewrite app_comm_cons, lookup_app_l by done. done.
      * intros j w. rewrite app_comm_cons.
        intros [Hw|[Hj Hw]]%lookup_app_Some; [by eapply Hmin|].
        apply list_lookup_singleton_Some in Hw as [_ <-]. lia.
      * intros j w Hj. rewrite app_comm_cons, lookup_app_l by lia.
        by apply Hfirst.
Qed.

(** X26. The variable chosen for the univariate elimination is a variable
    of the system with the least measure, the first one among those; a
    system without variables makes the choice fail with [IndexError]. *)
Theorem iterative_best_variable_spec (o : RWOSystem) :
  (variables o = [] → iterative_best_variable poly_degree o = Raise IndexError)
  ∧ (variables o ≠ [] →
     ∃ v i, iterative_best_variable poly_degree o = Ok v
       ∧ variables o !! i = Some v
       ∧ (∀ w, w ∈ variables o →
            measure poly_degree o v ≤ measure poly_degree o w)
       ∧ (∀ j w, (j < i)%nat → variables o !! j = Some w →
            measure poly_degree o v < measure poly_degree o w)).
Proof.
  unfold iterative_best_variable. split; [by intros ->|].
  destruct (variables o) as [|v rest]; [done|]. intros _.
  destruct (foldl _ _ rest) as [b m] eqn:Hfold.
  destruct (best_variable_fold o v rest b m Hfold)
    as (Hm & i & Hi & Hmin & Hfirst).
  exists b, i. split; [done|]. rewrite <- Hm. split; [done|]. split.
  - intros w (j & Hj)%list_elem_of_lookup. by eapply Hmin.
  - done.
Qed.

End BestVariable.

(** ** Names of variables and derivatives *)

Lemma split_on_nonempty (sep : Ascii.ascii) (s : string) :
  split_on sep s ≠ [].
Proof.
  destruct s as [|c s]; [done|]. simpl.
  destruct (Ascii.eqb c sep); [done|]. by destruct (split_on sep s).
Qed.

Lemma append_nil_l (s : string) : String.append EmptyString s = s.
Proof. reflexivity. Qed.

Lemma append_cons (c : Ascii.ascii) (s t : string) :
  String.append (String c s) t = String c (String.append s t).
Proof. reflexivity. Qed.

Lemma append_assoc (a b c : string) :
  String.append a (String.append b c) = String.append (String.append a b) c.
Proof.
  induction a as [|d a IH]; [by rewrite !append_nil_l|].
  by rewrite !append_cons, IH.
Qed.

(** The pieces of a name joined again are the name. *)
Lemma join_split_on (sep : Ascii.ascii) (s : string) :
  join_with (String sep EmptyString) (split_on sep s) = s.
Proof.
  induction s as [|c s IH]; [done|]. cbn [split_on].
  pose proof (split_on_nonempty sep s) as Hne.
  destruct (Ascii.eqb c sep) eqn:E.
  - apply Ascii.eqb_eq in E as ->.
    destruct (split_on sep s) as [|w ws]; [done|].
    change (join_with (String sep "") ("" :: w :: ws))
      with (String.append ""
              (String.append (String sep "")
                 (join_with (String sep "") (w :: ws)))).
    by rewrite IH, append_nil_l, append_cons, append_nil_l.
  - destruct (split_on sep s) as [|w ws]; [done|].
    rewrite <- IH. destruct ws as [|w' ws]; [done|].
    change (join_with (String sep "") (String c w :: w' :: ws))
      with (String.append (String c w)
              (String.append (String sep "")
                 (join_with (String sep "") (w' :: ws)))).
    by rewrite append_cons.
Qed.

Lemma split_on_plain (sep : Ascii.ascii) (k : string) :
  occurs sep k = false → split_on sep k = [k].
Proof.
  induction k as [|c k IH]; [done|]. cbn [occurs split_on].
  intros [Hc Hk]%orb_false_iff. rewrite Hc, (IH Hk). done.
Qed.

Lemma split_on_append (sep : Ascii.ascii) (s k : string) :
  split_on sep (String.append s (String sep k))
  = split_on sep s ++ split_on sep k.
Proof.
  induction s as [|c s IH].
  - rewrite append_nil_l. cbn [split_on app]. by rewrite Ascii.eqb_refl.
  - rewrite append_cons. cbn [split_on]. rewrite IH.
    destruct (Ascii.eqb c sep); [done|].
    pose proof (split_on_nonempty sep s) as Hne.
    by destruct (split_on sep s).
Qed.

Lemma split_on_last (sep : Ascii.ascii) (s : string) :
  ∃ ws k, split_on sep s = ws ++ [k] ∧ occurs sep k = false.
Proof.
  induction s as [|c s (ws & k & Hsplit & Hk)].
  - by exists [], EmptyString.
  - cbn [split_on]. rewrite Hsplit. destruct (Ascii.eqb c sep) eqn:E.
    + by exists (EmptyString :: ws), k.
    + destruct ws as [|w ws]; simpl.
      * exists [], (String c k). split; [done|]. simpl. by rewrite E.
      * by exists (String c w :: ws), k.
Qed.

Lemma join_with_snoc (sep : string) (ws : list string) (k : string) :
  ws ≠ [] →
  join_with sep (ws ++ [k])
  = String.append (join_with sep ws) (String.append sep k).
Proof.
  induction ws as [|w ws IH]; [done|]. intros _.
  destruct ws as [|w' ws]; [done|].
  change ((w :: w' :: ws) ++ [k]) with (w :: ((w' :: ws) ++ [k])).
  change (join_with sep (w :: (w' :: ws) ++ [k]))
    with (String.append w
            (String.append sep (join_with sep ((w' :: ws) ++ [k])))).
  rewrite (IH ltac:(done)).
  change (join_with sep (w :: w' :: ws))
    with (String.append w (String.append sep (join_with sep (w' :: ws)))).
  by rewrite !append_assoc.
Qed.

Lemma contains_element (name k : string) :
  occurs "_"%char k = false →
  contains name (String.append name (String "_"%char k)) = true.
Proof.
  intros Hk. unfold contains, but_last. apply String.eqb_eq.
  rewrite split_on_append, (split_on_plain _ k Hk), removelast_last.
  apply join_split_on.
Qed.

Section Names.
Variable py_int : string → result Z.

(** X27. A generator contains an element exactly when the name of the
    element is the name of the generator, an underscore and a last piece
    without underscore; the generator with the empty name also contains
    the elements whose name has no underscore. *)
Theorem contains_spec (name element : string) :
  contains name element = true
  ↔ (∃ k, occurs "_"%char k = false
          ∧ element = String.append name (String "_"%char k))
    ∨ (name = EmptyString ∧ occurs "_"%char element = false).
Proof.
  unfold contains, but_last. rewrite String.eqb_eq. split.
  - intros Hjoin.
    destruct (split_on_last "_"%char element) as (ws & k & Hsplit & Hk).
    pose proof (join_split_on "_"%char element) as Hround.
    rewrite Hsplit in Hjoin, Hround. rewrite removelast_last in Hjoin.
    destruct ws as [|w ws].
    + right. simpl in *. by subst.
    + left. exists k. split; [done|].
      rewrite join_with_snoc in Hround by done. by rewrite Hjoin in Hround.
  - intros [(k & Hk & ->)|[-> Hk]].
    + apply String.eqb_eq. by apply contains_element.
    + by rewrite (split_on_plain _ element Hk).
Qed.

(** X28. [index] reads the number after the last underscore of an element
    of the generator, as [int] does, and is [None], without an error, for
    an element of another generator. *)
Theorem index_in_spec (name element : string) :
  (∀ k, occurs "_"%char k = false →
     index_in py_int name (String.append name (String "_"%char k))
     = (n ← py_int k; Ok (Some n)))
  ∧ (contains name element = false →
     index_in py_int name element = Ok None).
Proof.
  split.
  - intros k Hk. unfold index_in.
    assert (contains name (String.append name (String "_"%char k)) = true)
      as ->.
    { by apply contains_element. }
    unfold last_of.
    by rewrite split_on_append, (split_on_plain _ k Hk), last_last.
  - intros Hno. unfold index_in. by rewrite Hno.
Qed.

End Names.

Section Derivatives.
Variable P : Type.
Variable derivation : P → P.

Lemma derivative_times_iter (p : P) (n : nat) :
  derivative_times P derivation p n = Nat.iter n derivation p.
Proof.
  induction n as [|n IH]; [done|].
  destruct n as [|n]; [done|].
  change (derivative_times P derivation p (S (S n)))
    with (derivation (derivative_times P derivation p (S n))).
  by rewrite IH.
Qed.

(** X29. [derivative(times)] applies the derivation of the parent [times]
    times, so that differentiating [a] times and then [b] times is
    differentiating [a + b] times and [derivative(0)] is the polynomial
    itself; a negative number of times and a value out of [ZZ] raise
    [ValueError]. *)
Theorem derivative_spec (p : P) :
  derivative P derivation p NotInZZ = Raise ValueError
  ∧ (∀ z, z < 0 → derivative P derivation p (InZZ z) = Raise ValueError)
  ∧ derivative P derivation p (InZZ 0) = Ok p
  ∧ (∀ n, 0 ≤ n →
       derivative P derivation p (InZZ n)
       = Ok (Nat.iter (Z.to_nat n) derivation p))
  ∧ (∀ a b, 0 ≤ a → 0 ≤ b →
       derivative P derivation p (InZZ (a + b))
       = (q ← derivative P derivation p (InZZ a);
          derivative P derivation q (InZZ b))).
Proof.
  assert (∀ q n, 0 ≤ n →
            derivative P derivation q (InZZ n)
            = Ok (Nat.iter (Z.to_nat n) derivation q)) as Hiter.
  { intros q n Hn. unfold derivative. cbn [bad_entry entry_value].
    destruct (n <? 0) eqn:E; [lia|]. by rewrite derivative_times_iter. }
  split; [done|]. split; [|split; [done|split; [by apply Hiter|]]].
  - intros z Hz. unfold derivative. cbn [bad_entry].
    by destruct (z <? 0) eqn:E; [|lia].
  - intros a b Ha Hb. rewrite !Hiter by lia. cbn. rewrite Hiter by done.
    f_equal. rewrite Z2Nat.inj_add by done.
    rewrite Nat.add_comm. apply Nat.iter_add.
Qed.

End Derivatives.

Lemma maximal_linear_variables_sound_witness :
  let sys_nl : RWOSystem :=
    {| class_of := DifferentialSystem_class; parent := Zx.ring_uv;
       _equations := [Zx.in_ring Zx.ring_uv (Zx.pmul (Zx.u 0) (Zx.v 0))];
       variables := ["u"%string; "v"%string]; parameters := [];
       CACHED_SP1 := ∅; CACHED_RES := None |} in
  let r : gset string := {["v"%string]} in
  r ∈ maximal_linear_variables Subsets_by_size sys_nl
  ∧ r ≠ ∅ ∧ r ∈ Subsets_by_size (variables sys_nl)
  ∧ is_linear sys_nl (Some (elements r)) = true.
Proof.
  intros sys_nl r.
  assert (r ∈ maximal_linear_variables Subsets_by_size sys_nl) as Hr.
  { apply list_elem_of_lookup_2 with 0%nat. vm_compute; reflexivity. }
  split; [exact Hr|].
  exact (maximal_linear_variables_sound Subsets_by_size sys_nl r Hr).
Defined.

Lemma maximal_linear_variables_antichain_witness :
  let sys_nl : RWOSystem :=
    {| class_of := DifferentialSystem_class; parent := Zx.ring_uv;
       _equations := [Zx.in_ring Zx.ring_uv (Zx.pmul (Zx.u 0) (Zx.v 0))];
       variables := ["u"%string; "v"%string]; parameters := [];
       CACHED_SP1 := ∅; CACHED_RES := None |} in
  let ri : gset string := {["v"%string]} in
  let rj : gset string := {["u"%string]} in
  maximal_linear_variables Subsets_by_size sys_nl !! 0%nat = Some ri
  ∧ maximal_linear_variables Subsets_by_size sys_nl !! 1%nat = Some rj
  ∧ ¬ ri ⊆ rj.
Proof.
  intros sys_nl ri rj.
  assert (maximal_linear_variables Subsets_by_size sys_nl !! 0%nat = Some ri)
    as Hi by (vm_compute; reflexivity).
  assert (maximal_linear_variables Subsets_by_size sys_nl !! 1%nat = Some rj)
    as Hj by (vm_compute; reflexivity).
  split; [exact Hi|]. split; [exact Hj|].
  destruct (maximal_linear_variables_antichain Subsets_by_size sys_nl
              0%nat 1%nat ri rj Hi Hj) as [_ Hanti].
  apply Hanti. discriminate.
Defined.

Lemma maximal_linear_variables_covering_witness :
  let sys_all : RWOSystem :=
    {| class_of := DifferentialSystem_class; parent := Zx.ring_uv;
       _equations := [Zx.eq1; Zx.eq2];
       variables := ["u"%string; "v"%string]; parameters := [];
       CACHED_SP1 := ∅; CACHED_RES := None |} in
  let s : gset string := {["u"%string]} in
  s ∈ Subsets_by_size (variables sys_all) ∧ s ≠ ∅
  ∧ is_linear sys_all (Some (elements s)) = true
  ∧ ∃ r, r ∈ maximal_linear_variables Subsets_by_size sys_all ∧ s ⊆ r.
Proof.
  intros sys_all s.
  assert (Subsets_by_size (variables sys_all)
          = [∅; {["u"%string]}; {["v"%string]};
             {["u"%string; "v"%string]}]) as Hsubsets
    by (vm_compute; reflexivity).
  assert (s ∈ Subsets_by_size (variables sys_all)) as Hs.
  { apply list_elem_of_lookup_2 with 1%nat. vm_compute; reflexivity. }
  assert (s ≠ ∅) as Hne.
  { intros Hempty. assert ("u"%string ∈ s) as Hu by by apply elem_of_singleton.
    rewrite Hempty in Hu. by apply not_elem_of_empty in Hu. }
  assert (is_linear sys_all (Some (elements s)) = true) as Hlin
    by (vm_compute; reflexivity).
  split; [exact Hs|]. split; [exact Hne|]. split; [exact Hlin|].
  apply (maximal_linear_variables_covering Subsets_by_size sys_all s);
    [|exact Hs|exact Hne|exact Hlin].
  intros a b _ Hb Hbne _ _. rewrite Hsubsets in Hb.
  apply elem_of_cons in Hb as [->|Hb]; [done|].
  apply elem_of_cons in Hb as [->|Hb]; [vm_compute; reflexivity|].
  apply elem_of_cons in Hb as [->|Hb]; [vm_compute; reflexivity|].
  apply list_elem_of_singleton in Hb as ->. vm_compute; reflexivity.
Defined.

Lemma iterative_best_variable_spec_witness :
  let degree_one := fun (_ : Zx.poly) (_ : avar) => 1 in
  variables Zx.sys_uv ≠ []
  ∧ ∃ v i, iterative_best_variable (R := Zx.ring) degree_one Zx.sys_uv = Ok v
      ∧ variables Zx.sys_uv !! i = Some v
      ∧ (∀ w, w ∈ variables Zx.sys_uv →
           measure (R := Zx.ring) degree_one Zx.sys_uv v
           ≤ measure (R := Zx.ring) degree_one Zx.sys_uv w)
      ∧ (∀ j w, (j < i)%nat → variables Zx.sys_uv !! j = Some w →
           measure (R := Zx.ring) degree_one Zx.sys_uv v
           < measure (R := Zx.ring) degree_one Zx.sys_uv w).
Proof.
  intros degree_one.
  assert (variables Zx.sys_uv ≠ []) as Hne by discriminate.
  split; [exact Hne|].
  destruct (iterative_best_variable_spec (R := Zx.ring) degree_one Zx.sys_uv)
    as [_ Hbest].
  exact (Hbest Hne).
Defined.

Lemma index_in_spec_witness :
  let py_int := fun s : string =>
                  if String.eqb s "3" then Ok 3 else Raise ValueError in
  occurs "_"%char "3" = false
  ∧ index_in py_int "a_b" "a_b_3" = Ok (Some 3)
  ∧ contains "a" "a_b_3" = false
  ∧ index_in py_int "a" "a_b_3" = Ok None.
Proof.
  intros py_int.
  assert (occurs "_"%char "3" = false) as Hplain by reflexivity.
  assert (contains "a" "a_b_3" = false) as Hother by reflexivity.
  split; [exact Hplain|].
  destruct (index_in_spec py_int "a_b" "a_b_3") as [Hindex _].
  destruct (index_in_spec py_int "a" "a_b_3") as [_ Hnone].
  split; [exact (Hindex "3"%string Hplain)|].
  split; [exact Hother|exact (Hnone Hother)].
Defined.

Lemma derivative_spec_witness :
  0 ≤ 2 ∧ 0 ≤ 3
  ∧ derivative Z Z.succ 10 (InZZ (2 + 3))
    = (q ← derivative Z Z.succ 10 (InZZ 2); derivative Z Z.succ q (InZZ 3))
  ∧ derivative Z Z.succ 10 (InZZ (-1)) = Raise ValueError.
Proof.
  destruct (derivative_spec Z Z.succ 10) as (_ & Hneg & _ & _ & Hadd).
  split; [lia|]. split; [lia|].
  split; [apply Hadd; lia|apply Hneg; lia].
Defined.

(** ** The differential systems of the module [differential_polynomial] *)

Lemma cartesian_product_elem (n : nat) (values : list Z) (L : list Z) :
  L ∈ Legacy.cartesian_product n values
  ↔ length L = n ∧ Forall (fun c => c ∈ values) L.
Proof.
  revert L. induction n as [|n IH]; intros L; cbn [Legacy.cartesian_product].
  - rewrite list_elem_of_singleton. split.
    + by intros ->.
    + intros [Hlen _]. by destruct L.
  - rewrite list_elem_of_bind. split.
    + intros (a & (L' & -> & [Hlen Hall]%IH)%list_elem_of_fmap & Ha).
      split; [by rewrite length_cons, Hlen|by constructor].
    + intros [Hlen Hall]. destruct L as [|a L]; [done|].
      apply Forall_cons in Hall as [Ha Hall]. exists a. split; [|done].
      apply list_elem_of_fmap. exists L. split; [done|].
      apply IH. split; [by injection Hlen|done].
Qed.

(** The first tuple of a product repeats the first value. *)
Lemma cartesian_product_head (n : nat) (v : Z) (vs : list Z) :
  ∃ rest, Legacy.cartesian_product n (v :: vs) = replicate n v :: rest.
Proof.
  induction n as [|n [rest IH]]; [by exists []|].
  cbn [Legacy.cartesian_product]. rewrite bind_cons, IH, fmap_cons.
  cbn [replicate app]. eauto.
Qed.

Lemma concat_singletons {A} (l : list A) : concat ((fun x => [x]) <$> l) = l.
Proof. induction l as [|x l IH]; [done|]. rewrite fmap_cons. simpl. by rewrite IH. Qed.

Section LegacySystems.
Context `{R : OperatorRing}.

Lemma legacy_search_Some (s : loc) (candidates : list (list Z))
    (h h' : store) (L : list Z) :
  Legacy.search s candidates h = Some (Ok (Some L), h') → L ∈ candidates.
Proof.
  revert h. induction candidates as [|L0 rest IH]; intros h; [done|].
  cbn [Legacy.search].
  destruct (Legacy.build_sp1 s _ h) as [[ext|e] h1]; [|done].
  destruct (h1 !! ext) as [e|]; [|done].
  destruct (Legacy.is_sp2 e) as [[|]|]; [| |done].
  - intros [= <- <-]. by apply elem_of_cons; left.
  - intros Hrest%IH. by apply elem_of_cons; right.
Qed.

(** The derivatives of order [0] are the equations themselves. *)
Lemma derived_equations_zeros (o : RWOSystem) :
  Legacy.derived_equations o (InZZ <$> replicate (length (_equations o)) 0)
  = Ok (_equations o).
Proof.
  unfold Legacy.derived_equations.
  rewrite (proj2 (traverse_Ok _ _ ((fun p => [p]) <$> _equations o))).
  { cbn. by rewrite concat_singletons. }
  apply Forall2_same_length_lookup_2.
  { rewrite length_seqZ, length_fmap. unfold size. lia. }
  intros i j block Hj Hblock. apply lookup_seqZ in Hj as [-> Hi].
  rewrite list_lookup_fmap in Hblock.
  destruct (_equations o !! i) as [p|] eqn:Hp; [|done].
  injection Hblock as <-. rewrite Z.add_0_l.
  rewrite (getitem_lookup _ i (InZZ 0)).
  2:{ rewrite list_lookup_fmap, lookup_replicate_2; [done|].
      by eapply lookup_lt_Some. }
  cbn. by rewrite (getitem_lookup _ i p Hp).
Qed.

(** The membership test never ends on a system with a variable that is not
    of its first variable family. *)
Lemma legacy_is_sp2_diverges (o : RWOSystem) g rest (p : Poly) (el : avar) :
  variables o = g :: rest → p ∈ _equations o → el ∈ poly_variables p →
  el.1 ≠ g → Legacy.is_sp2 o = None.
Proof.
  intros Hvars Hp Hel Hne. unfold Legacy.is_sp2, Legacy.algebraic_variables.
  rewrite (proj2 (mapM_None _ _)); [done|].
  apply Exists_exists. exists el. split.
  - apply elem_of_remove_dups, list_elem_of_In, in_concat.
    exists (poly_variables p). split; [|by apply list_elem_of_In].
    apply list_elem_of_In, list_elem_of_fmap. by exists p.
  - rewrite Hvars. cbn [Legacy.any_contains]. unfold Legacy.gen_contains.
    by rewrite bool_decide_eq_false_2.
Qed.

Lemma legacy_init_derived `{!OperatorRingLaws R} eqs par vars :
  is_DifferentialPolynomialRing par = true →
  Forall (fun p => parent_of p = par) eqs →
  Forall (fun g => g ∈ gens par) vars →
  Legacy.init eqs (Some par) (Some vars)
  = Ok {| class_of := DifferentialSystem_class; parent := par;
          _equations := eqs; variables := vars;
          parameters := filter (fun el => el ∉ vars) (gens par);
          CACHED_SP1 := ∅; CACHED_RES := None |}.
Proof.
  intros Hring Heqs Hvars. unfold Legacy.init.
  rewrite reduce_pushout_same; [|by apply Forall_fmap]. simpl.
  rewrite Hring. simpl.
  rewrite (traverse_id (coerce par) eqs); [simpl|].
  2:{ eapply Forall_impl; [exact Heqs|]. intros p <-. apply coerce_same. }
  rewrite (traverse_id _ vars); [done|].
  eapply Forall_impl; [exact Hvars|]. intros g Hg. simpl in Hg.
  destruct (index_of_lookup g _ Hg) as (i & -> & Hi).
  by apply getitem_lookup.
Qed.

(** The first round of the search on a newly built system: the extension
    by the zero tuple has the equations and the variables of the system. *)
Lemma legacy_search_diverges `{!OperatorRingLaws R}
    (h : store) (s : loc) (o : RWOSystem) (rest : list (list Z)) :
  h !! s = Some o → CACHED_SP1 o = ∅ →
  is_DifferentialPolynomialRing (parent o) = true →
  Forall (fun q => parent_of q = parent o) (_equations o) →
  Forall (fun v => v ∈ gens (parent o)) (variables o) →
  Legacy.is_sp2 o = None →
  Legacy.search s (replicate (length (_equations o)) 0 :: rest) h = None.
Proof.
  intros Hs Hcache Hring Heqs Hvars Hdiv. cbn [Legacy.search].
  unfold Legacy.build_sp1.
  rewrite existsb_bad_entry_InZZ, entry_value_InZZ
    by (apply Forall_forall; by intros z [-> _]%elem_of_replicate).
  unfold Legacy.new, lift, mbind, M_bind, load, alloc, modify, mret, M_ret.
  rewrite Hs, Hcache, lookup_empty, derived_equations_zeros.
  rewrite (legacy_init_derived _ _ _ Hring Heqs Hvars).
  pose proof (lookup_lt_Some _ _ _ Hs) as Hlt.
  cbv beta iota. rewrite lookup_app_l, Hs by done.
  rewrite list_lookup_insert_ne by lia.
  rewrite list_lookup_middle by done.
  set (o' := {| class_of := DifferentialSystem_class; parent := parent o |}).
  assert (Legacy.is_sp2 o' = None) as ->; [|done].
  revert Hdiv. unfold Legacy.is_sp2, Legacy.algebraic_variables, size. simpl.
  done.
Qed.

(** X30. The [differential_resultant] of the module
    [differential_polynomial] checks its two arguments before it touches
    anything and raises [ValueError] for a bad one; a bound such as [3.0],
    in [ZZ] and no integer, raises [TypeError]. It never returns a
    resultant. On a system with equations its search goes through the
    tuples with one entry per equation between [0] and the bound, the
    bound included; without a tuple whose extension satisfies SP2 the
    method raises [TypeError], and with one the algorithm ["dixon"] raises
    [NotImplementedError]. On a newly built system in which a variable of
    an equation is not of the first variable family, the call does not
    terminate. *)
Theorem differential_resultant_outcomes `{!OperatorRingLaws R}
    (h : store) (s : loc) (o : RWOSystem)
    (bound_L : entry) (alg_res : string) :
  h !! s = Some o →
  let run := Legacy.differential_resultant s bound_L alg_res h in
  (bad_entry bound_L = true ∨ alg_res ∉ ["dixon"; "macaulay"]%string →
   run = Some (Raise ValueError, h))
  ∧ (∀ z, bound_L = FloatInZZ z → 0 ≤ z →
       alg_res ∈ ["dixon"; "macaulay"]%string →
       run = Some (Raise TypeError, h))
  ∧ (∀ r h', run ≠ Some (Ok r, h'))
  ∧ (∀ b, bound_L = InZZ b → 0 ≤ b →
       alg_res ∈ ["dixon"; "macaulay"]%string → _equations o ≠ [] →
       let candidates :=
         Legacy.cartesian_product (length (_equations o))
           (py_range 0 (b + 1) 1) in
       (∀ L, L ∈ candidates
             ↔ length L = length (_equations o)
               ∧ Forall (fun c => 0 ≤ c ≤ b) L)
       ∧ (Legacy.search s candidates h = None → run = None)
       ∧ (∀ h', Legacy.search s candidates h = Some (Ok None, h') →
            run = Some (Raise TypeError, h'))
       ∧ (∀ L h', Legacy.search s candidates h = Some (Ok (Some L), h') →
            L ∈ candidates
            ∧ (alg_res = "dixon"%string →
               run = Some (Raise NotImplementedError, h'))))
  ∧ (∀ b g rest p el, bound_L = InZZ b → 0 ≤ b →
       alg_res ∈ ["dixon"; "macaulay"]%string →
       CACHED_SP1 o = ∅ →
       is_DifferentialPolynomialRing (parent o) = true →
       Forall (fun q => parent_of q = parent o) (_equations o) →
       Forall (fun v => v ∈ gens (parent o)) (variables o) →
       variables o = g :: rest → p ∈ _equations o →
       el ∈ poly_variables p → el.1 ≠ g →
       run = None).
Proof.
  intros Hs run.
  assert (∀ b, bound_L = InZZ b → 0 ≤ b →
            alg_res ∈ ["dixon"; "macaulay"]%string →
            run = match Legacy.search s
                          (Legacy.cartesian_product (length (_equations o))
                             (py_range 0 (b + 1) 1)) h with
                  | None => None
                  | Some (Raise e, h1) => Some (Raise e, h1)
                  | Some (Ok None, h1) => Some (Raise TypeError, h1)
                  | Some (Ok (Some L), h1) =>
                      Some (Legacy.compute_resultant s L alg_res h1)
                  end) as Hvalid.
  { intros b -> Hb Halg. unfold run, Legacy.differential_resultant.
    cbn [bad_entry as_index]. destruct (b <? 0) eqn:E; [lia|].
    rewrite bool_decide_eq_true_2 by done. cbn [negb]. by rewrite Hs. }
  split; [|split; [|split; [|split]]].
  - intros [Hbad|Halg]; unfold run, Legacy.differential_resultant.
    + by rewrite Hbad.
    + destruct (bad_entry bound_L); [done|].
      by rewrite bool_decide_eq_false_2.
  - intros z -> Hz Halg. unfold run, Legacy.differential_resultant.
    cbn [bad_entry as_index]. destruct (z <? 0) eqn:E; [lia|].
    rewrite bool_decide_eq_true_2 by done. cbn [negb]. by rewrite Hs.
  - intros r h'. unfold run, Legacy.differential_resultant.
    destruct (bad_entry bound_L); [done|].
    destruct (bool_decide _) eqn:Halg; [|done]. cbn [negb]. rewrite Hs.
    apply bool_decide_eq_true in Halg.
    destruct (as_index bound_L); [|done].
    destruct (Legacy.search _ _ h) as [[[[L|]|e] h1]|]; [|done..].
    unfold Legacy.compute_resultant.
    destruct (String.eqb alg_res "dixon") eqn:Ed; [done|].
    destruct (String.eqb alg_res "macaulay") eqn:Em.
    + unfold mbind, M_bind, load, lift.
      destruct (Legacy.build_sp1 s _ h1) as [[ext|e] h2]; [|done].
      destruct (h2 !! ext) as [e|]; [|done].
      unfold Legacy.algebraic_equations. by destruct (_equations e).
    + apply String.eqb_neq in Ed, Em.
      apply elem_of_cons in Halg as [?|Halg]; [done|].
      by apply list_elem_of_singleton in Halg.
  - intros b Hbound Hb Halg Hne candidates.
    rewrite (Hvalid b Hbound Hb Halg). fold candidates.
    split; [|split; [|split]].
    + intros L. unfold candidates. rewrite cartesian_product_elem.
      rewrite py_range_full.
      assert (∀ c, c ∈ seqZ 0 (b + 1) ↔ 0 ≤ c ≤ b) as Hrange.
      { intros c. rewrite elem_of_seqZ. lia. }
      split; intros [Hlen Hall]; (split; [done|]);
        (eapply Forall_impl; [exact Hall|]); intros c; apply Hrange.
    + by intros ->.
    + by intros h' ->.
    + intros L h' Hsearch. split; [by eapply legacy_search_Some|].
      intros ->. by rewrite Hsearch.
  - intros b g rest p el Hbound Hb Halg Hcache Hring Heqs Hvars Hfirst Hp Hel
      Hne.
    rewrite (Hvalid b Hbound Hb Halg), py_range_full.
    rewrite seqZ_cons by lia.
    destruct (cartesian_product_head (length (_equations o)) 0
                (seqZ (Z.succ 0) (Z.pred (b + 1)))) as [others ->].
    rewrite (legacy_search_diverges h s o others Hs Hcache Hring Heqs Hvars);
      [done|].
    by eapply legacy_is_sp2_diverges.
Qed.

End LegacySystems.

Lemma differential_resultant_outcomes_witness :
  Legacy.differential_resultant 0%nat (InZZ (-1)) "dixon" [Zx.sys_uv]
  = Some (Raise ValueError, [Zx.sys_uv])
  ∧ Legacy.differential_resultant 0%nat (FloatInZZ 3) "dixon" [Zx.sys_uv]
    = Some (Raise TypeError, [Zx.sys_uv])
  ∧ Legacy.differential_resultant 0%nat (InZZ 2) "dixon" [Zx.sys_uv] = None
  ∧ ∃ h', Legacy.differential_resultant 0%nat (InZZ 2) "dixon" [Zx.sys_ab]
          = Some (Raise NotImplementedError, h').
Proof.
  assert (∃ h', Legacy.differential_resultant 0%nat (InZZ 2) "dixon"
                  [Zx.sys_ab] = Some (Raise NotImplementedError, h'))
    as Hdixon.
  { destruct (differential_resultant_outcomes [Zx.sys_ab] 0%nat Zx.sys_ab
                (InZZ 2) "dixon" eq_refl) as (_ & _ & _ & Hsearch & _).
    destruct (Hsearch 2 eq_refl) as (_ & _ & _ & Hfound);
      [lia|by apply elem_of_cons; left|discriminate|].
    assert (fst <$> Legacy.search 0%nat
                      (Legacy.cartesian_product
                         (length (_equations Zx.sys_ab))
                         (py_range 0 (2 + 1) 1)) [Zx.sys_ab]
            = Some (Ok (Some [0; 0]))) as Hfirst
      by (vm_compute; reflexivity).
    destruct (Legacy.search 0%nat _ [Zx.sys_ab]) as [[r h']|] eqn:Hrun;
      [|discriminate Hfirst].
    injection Hfirst as ->. exists h'.
    destruct (Hfound [0; 0] h' eq_refl) as [_ Hraise]. by apply Hraise. }

  destruct (differential_resultant_outcomes [Zx.sys_uv] 0%nat Zx.sys_uv
              (InZZ (-1)) "dixon" eq_refl) as (Hbad & _).
  destruct (differential_resultant_outcomes [Zx.sys_uv] 0%nat Zx.sys_uv
              (FloatInZZ 3) "dixon" eq_refl) as (_ & Hfloat & _).
  destruct (differential_resultant_outcomes [Zx.sys_uv] 0%nat Zx.sys_uv
              (InZZ 2) "dixon" eq_refl) as (_ & _ & _ & _ & Hloop).
  split; [apply Hbad; by left|].
  split; [apply (Hfloat 3 eq_refl); [lia|by apply elem_of_cons; left]|].
  split; [|exact Hdixon].
  apply (Hloop 2 "u"%string [] Zx.eq1 ("v"%string, 0%nat) eq_refl);
    try reflexivity; try lia.
  - by apply elem_of_cons; left.
  - apply sys_uv_wf.
  - apply sys_uv_wf.
  - by apply elem_of_cons; left.
  - apply list_elem_of_lookup_2 with 2%nat. vm_compute. reflexivity.
  - discriminate.
Defined.
